(** * A shallow embedding of the roadmap generator's services

    The development follows [src/services/geminiService.ts] (the multi-key
    rate limiter, the request dispatcher, the batch orchestrator, the
    response cleaning step and the detailed-course pipeline),
    [src/services/userService.ts] (persistence with a local-storage
    fallback) and the [roadmaps] migration (the unique index, the foreign
    key and the policies).

    - [Limiter]: [class MultiKeyRateLimiter], its selection and its
      suspension of failing keys.
    - [JSON], [Js]: the built-ins the services rely on ([JSON.parse],
      [JSON.stringify], [trim], truthiness, property access).
    - [Gemini]: [class GeminiService].
    - [UserService]: [class UserService].
    - [Store]: the [roadmaps] table.

    - [Results], [Generation]: the entries [makeParallelRequests] returns and
      the generators built on [makeRequest].
    - [Storable], [Offline]: the values [JSON.stringify] and [JSON.parse]
      carry unchanged, and sample documents.
    - [Access]: reading and deleting rows of [roadmaps] under its policies.

    Part I holds the embedding, one module per unit of the source; Part II
    holds the properties, in [LimiterFacts], [GeminiFacts],
    [UserServiceFacts] and [StoreFacts], and then, module by module, in
    [QuotaFacts], [DispatchFacts], [CleaningFacts], [RoundTripFacts],
    [GenerationFacts], [StorageFacts], [ProgressFacts] and [AccessFacts].

    Conventions.
    - A JavaScript string is the list of its UTF-16 code units ([jsstring]).
    - Time is in milliseconds.  A method of the limiter takes the value of
      [Date.now()] as an argument; the service reads it off the clock of its
      world, which moves at every [await].
    - An object held by reference ([usage]) lives in the map it was taken
      from: entries of [keyUsage] are created once by the constructor and are
      never replaced or deleted, so a callback that captured [usage] for a key
      updates that key's entry.
    - A loop whose termination depends on its data takes fuel and returns
      [None] when the fuel is used up.  An [await] that never ends gives
      [None] as well: a call is [None] when it does not return. *)

From Stdlib Require Import ZArith Lia.
From stdpp Require Import gmap strings list fin_maps sorting.

Local Open Scope Z_scope.

(** ** JavaScript strings *)

Abbreviation jsstring := (list N).

(** The code units of a literal (all below 256). *)
Definition u (s : string) : jsstring :=
  Ascii.N_of_ascii <$> String.list_ascii_of_string s.
Arguments u : simpl never.

(** * Part I: the embedding *)

(** ** The rate limiter: [class MultiKeyRateLimiter] *)

Module Limiter.

(** The value type of [keyUsage]. *)
Record Usage := mkUsage {
  requests : list Z;
  lastRequest : Z;
  consecutiveErrors : nat;
  isActive : bool
}.

(** A callback registered by [setTimeout] in [recordError] and not run yet:
    the time it becomes due and the key whose [usage] it captured. *)
Record Timer := mkTimer {
  dueAt : Z;
  usageOf : jsstring
}.

(** The limiter's fields, with the pending callbacks of the runtime. *)
Record RateLimiter := mkLimiter {
  keyUsage : gmap jsstring Usage;
  keyPool : list jsstring;
  pending : list Timer
}.

Definition maxRequestsPerKey : nat := 20.
Definition timeWindow : Z := 60000.
Definition minInterval : Z := 1000.
Definition maxConsecutiveErrors : nat := 3.
(** The delay of the [setTimeout] in [recordError]. *)
Definition reactivateAfter : Z := 300000.

(** [constructor]: every configured key starts with an empty record.  The
    constant [API_KEYS] has no falsy entry (it went through
    [filter(Boolean)]), so the [if (key)] test always passes. *)
Definition freshUsage : Usage :=
  {| requests := []; lastRequest := 0; consecutiveErrors := 0; isActive := true |}.

Definition new (API_KEYS : list jsstring) : RateLimiter :=
  {| keyUsage := foldl (fun m key => <[key := freshUsage]> m) ∅ API_KEYS;
     keyPool := API_KEYS;
     pending := [] |}.

Definition setUsage (key : jsstring) (f : Usage -> Usage) (rl : RateLimiter)
  : RateLimiter :=
  {| keyUsage := alter f key (keyUsage rl);
     keyPool := keyPool rl;
     pending := pending rl |}.

(** [usage.requests = usage.requests.filter(time => now - time < timeWindow)] *)
Definition inWindow (now : Z) (requests : list Z) : list Z :=
  filter (fun time => now - time < timeWindow) requests.

Definition clean (now : Z) (usage : Usage) : Usage :=
  {| requests := inWindow now (requests usage);
     lastRequest := lastRequest usage;
     consecutiveErrors := consecutiveErrors usage;
     isActive := isActive usage |}.

Definition requestsLength (key : jsstring) (rl : RateLimiter) : Z :=
  match keyUsage rl !! key with
  | Some usage => Z.of_nat (length (requests usage))
  | None => 0
  end.

(** The comparator passed to [sort]: it cleans both records, then compares
    their lengths. *)
Definition compareKeys (now : Z) (a b : jsstring) (rl : RateLimiter)
  : Z * RateLimiter :=
  match keyUsage rl !! a, keyUsage rl !! b with
  | Some _, Some _ =>
      let rl1 := setUsage a (clean now) rl in
      let rl2 := setUsage b (clean now) rl1 in
      (requestsLength a rl2 - requestsLength b rl2, rl2)
  | _, _ => (0, rl)
  end.

(** [Array.prototype.sort] is stable; it is modelled by a stable insertion
    sort that calls the comparator, which threads the limiter through its
    calls.  An element is placed after every earlier one that does not
    compare greater. *)
Fixpoint insertKey (now : Z) (x : jsstring) (sorted : list jsstring)
    (rl : RateLimiter) : list jsstring * RateLimiter :=
  match sorted with
  | [] => ([x], rl)
  | y :: ys =>
      let '(c, rl1) := compareKeys now y x rl in
      if bool_decide (c <= 0) then
        let '(r, rl2) := insertKey now x ys rl1 in (y :: r, rl2)
      else (x :: y :: ys, rl1)
  end.

Definition sortKeys (now : Z) (keys : list jsstring) (rl : RateLimiter)
  : list jsstring * RateLimiter :=
  foldl (fun acc x => insertKey now x acc.1 acc.2) ([], rl) keys.

Definition canUseKey (now : Z) (usage : Usage) : bool :=
  bool_decide (length (requests usage) < maxRequestsPerKey)%nat
  && bool_decide (minInterval <= now - lastRequest usage)
  && bool_decide (consecutiveErrors usage < maxConsecutiveErrors)%nat.

(** The [for (const key of sortedKeys)] loop of [getAvailableKeys]. *)
Fixpoint selectKeys (now : Z) (count : nat) (sortedKeys availableKeys : list jsstring)
    (rl : RateLimiter) : list jsstring * RateLimiter :=
  match sortedKeys with
  | [] => (availableKeys, rl)
  | key :: rest =>
      if bool_decide (count <= length availableKeys)%nat then (availableKeys, rl)
      else
        match keyUsage rl !! key with
        | None => selectKeys now count rest availableKeys rl
        | Some usage =>
            if negb (isActive usage) then selectKeys now count rest availableKeys rl
            else
              let rl1 := setUsage key (clean now) rl in
              if canUseKey now (clean now usage)
              then selectKeys now count rest (availableKeys ++ [key]) rl1
              else selectKeys now count rest availableKeys rl1
        end
  end.

(** [getAvailableKeys(count)] at time [now]: the keys and the limiter with
    the records it cleaned on the way. *)
Definition getAvailableKeys (now : Z) (count : nat) (rl : RateLimiter)
  : list jsstring * RateLimiter :=
  let '(sortedKeys, rl1) := sortKeys now (keyPool rl) rl in
  selectKeys now count sortedKeys [] rl1.

(** [recordRequest(apiKey)] *)
Definition recordRequest (now : Z) (apiKey : jsstring) (rl : RateLimiter)
  : RateLimiter :=
  setUsage apiKey (fun usage =>
    {| requests := requests usage ++ [now];
       lastRequest := now;
       consecutiveErrors := consecutiveErrors usage;
       isActive := isActive usage |}) rl.

(** [recordError(apiKey)], called at time [now]: the callback it registers
    is due [reactivateAfter] later. *)
Definition recordError (now : Z) (apiKey : jsstring) (rl : RateLimiter)
  : RateLimiter :=
  match keyUsage rl !! apiKey with
  | None => rl
  | Some usage =>
      let errors := S (consecutiveErrors usage) in
      if bool_decide (maxConsecutiveErrors <= errors)%nat then
        {| keyUsage := <[apiKey := {| requests := requests usage;
                                      lastRequest := lastRequest usage;
                                      consecutiveErrors := errors;
                                      isActive := false |}]> (keyUsage rl);
           keyPool := keyPool rl;
           pending := pending rl ++ [mkTimer (now + reactivateAfter) apiKey] |}
      else
        {| keyUsage := <[apiKey := {| requests := requests usage;
                                      lastRequest := lastRequest usage;
                                      consecutiveErrors := errors;
                                      isActive := isActive usage |}]> (keyUsage rl);
           keyPool := keyPool rl;
           pending := pending rl |}
  end.

(** The body of the callback: [usage.isActive = true; usage.consecutiveErrors = 0]. *)
Definition reactivate (key : jsstring) (rl : RateLimiter) : RateLimiter :=
  setUsage key (fun usage =>
    {| requests := requests usage;
       lastRequest := lastRequest usage;
       consecutiveErrors := 0;
       isActive := true |}) rl.

(** [recordSuccess(apiKey)] *)
Definition recordSuccess (apiKey : jsstring) (rl : RateLimiter) : RateLimiter :=
  setUsage apiKey (fun usage =>
    {| requests := requests usage;
       lastRequest := lastRequest usage;
       consecutiveErrors := 0;
       isActive := true |}) rl.

(** One entry of [keyStatuses]. *)
Record KeyStatus := mkKeyStatus {
  ks_key : jsstring;
  ks_requests : nat;
  ks_available : bool;
  ks_errors : nat
}.

Record Status := mkStatus {
  canMakeRequest : bool;
  waitTime : Z;
  requestsRemaining : nat;
  activeKeys : nat;
  keyStatuses : list KeyStatus
}.

(** [key.slice(-8)] *)
Definition lastEight (key : jsstring) : jsstring :=
  drop (length key - 8)%nat key.

(** The callback of [API_KEYS.map] in [getStatus]. *)
Definition keyStatus (now : Z) (key : jsstring) (rl : RateLimiter)
  : KeyStatus * RateLimiter :=
  match keyUsage rl !! key with
  | None => (mkKeyStatus (lastEight key) 0 false 0, rl)
  | Some usage =>
      let usage1 := clean now usage in
      (mkKeyStatus (lastEight key) (length (requests usage1))
         (canUseKey now usage1 && isActive usage1)
         (consecutiveErrors usage1),
       setUsage key (clean now) rl)
  end.

Fixpoint mapKeyStatus (now : Z) (keys : list jsstring) (rl : RateLimiter)
  : list KeyStatus * RateLimiter :=
  match keys with
  | [] => ([], rl)
  | key :: rest =>
      let '(s, rl1) := keyStatus now key rl in
      let '(ss, rl2) := mapKeyStatus now rest rl1 in
      (s :: ss, rl2)
  end.

(** [getStatus()] at time [now]. *)
Definition getStatus (now : Z) (API_KEYS : list jsstring) (rl : RateLimiter)
  : Status * RateLimiter :=
  let '(statuses, rl1) := mapKeyStatus now API_KEYS rl in
  let active := length (filter (fun k => ks_available k = true) statuses) in
  let totalRemaining :=
    foldl (fun sum k => (sum + (maxRequestsPerKey - ks_requests k))%nat) 0%nat statuses in
  ({| canMakeRequest := bool_decide (0 < active)%nat;
      waitTime := if bool_decide (0 < active)%nat then 0 else minInterval;
      requestsRemaining := totalRemaining;
      activeKeys := active;
      keyStatuses := statuses |}, rl1).

(** Whether [getAvailableKeys] would accept the key at time [now]: the tests
    of its loop, read off the current records. *)
Definition windowCount (now : Z) (rl : RateLimiter) (key : jsstring) : nat :=
  match keyUsage rl !! key with
  | Some usage => length (inWindow now (requests usage))
  | None => 0
  end.

Definition eligible (now : Z) (rl : RateLimiter) (key : jsstring) : bool :=
  match keyUsage rl !! key with
  | Some usage => isActive usage && canUseKey now (clean now usage)
  | None => false
  end.

(** *** What the selection reads

    Cleaning a record drops the timestamps outside the window; every test of
    the selection is taken after cleaning, so it depends on a record only
    through its cleaned form, the record's [view]. *)

Definition view (now : Z) (rl : RateLimiter) (key : jsstring) : option Usage :=
  clean now <$> keyUsage rl !! key.

Definition sameView (now : Z) (rl rl' : RateLimiter) : Prop :=
  keyPool rl' = keyPool rl /\ pending rl' = pending rl /\
  forall key, view now rl' key = view now rl key.

(** Every key of the pool has a record: established by the constructor and
    kept by every method. *)
Definition tracked (rl : RateLimiter) : Prop :=
  forall key, key ∈ keyPool rl -> is_Some (keyUsage rl !! key).

(** The order [sort] establishes: fewer calls in the window first. *)
Definition fewerCalls (now : Z) (rl0 : RateLimiter) (a b : jsstring) : Prop :=
  (windowCount now rl0 a <= windowCount now rl0 b)%nat.

(** Two fresh keys, one of which has been used once 5 seconds ago. *)
Definition twoKeys : RateLimiter :=
  recordRequest 0 (u "key-A") (new [u "key-A"; u "key-B"]).

(** Two keys at work: the first has three recorded calls, two of them more
    than a minute before time 70000; the second has two, both inside that
    minute. *)
Definition crowded : RateLimiter :=
  recordRequest 65000 (u "key-A")
    (recordRequest 30000 (u "key-B")
       (recordRequest 20000 (u "key-B")
          (recordRequest 1000 (u "key-A")
             (recordRequest 0 (u "key-A") (new [u "key-A"; u "key-B"]))))).

(** ** The limiter over time

    Between two suspension points the limiter is touched by its own methods
    and by the reactivation callbacks; a callback never runs before it is
    due.  An [Event] is one such access, [step] its effect at time [now]
    ([None] when a callback is asked to run early or does not exist). *)

Inductive Event :=
  | EvSelect (count : nat)
  | EvStatus (API_KEYS : list jsstring)
  | EvRequest (apiKey : jsstring)
  | EvError (apiKey : jsstring)
  | EvSuccess (apiKey : jsstring)
  | EvTimer (i : nat).

Definition step (now : Z) (ev : Event) (rl : RateLimiter) : option RateLimiter :=
  match ev with
  | EvSelect count => Some (getAvailableKeys now count rl).2
  | EvStatus API_KEYS => Some (getStatus now API_KEYS rl).2
  | EvRequest apiKey => Some (recordRequest now apiKey rl)
  | EvError apiKey => Some (recordError now apiKey rl)
  | EvSuccess apiKey => Some (recordSuccess apiKey rl)
  | EvTimer i =>
      match pending rl !! i with
      | Some timer =>
          if bool_decide (dueAt timer <= now) then
            Some (reactivate (usageOf timer)
                    {| keyUsage := keyUsage rl;
                       keyPool := keyPool rl;
                       pending := delete i (pending rl) |})
          else None
      | None => None
      end
  end.

Fixpoint run (evs : list (Z * Event)) (rl : RateLimiter) : option RateLimiter :=
  match evs with
  | [] => Some rl
  | (now, ev) :: rest =>
      match step now ev rl with
      | Some rl' => run rest rl'
      | None => None
      end
  end.

(** The state of a suspended key [key] during its cool-down: the record is
    inactive and no callback for it is due before [deadline]. *)
Definition suspendedUntil (deadline : Z) (key : jsstring) (rl : RateLimiter) : Prop :=
  (exists usage, keyUsage rl !! key = Some usage /\ isActive usage = false) /\
  forall timer, timer ∈ pending rl -> usageOf timer = key -> deadline <= dueAt timer.

(** A limiter with one key that failed twice in a row, then a third time. *)
Definition twoStrikes : RateLimiter :=
  recordError 0 (u "key-A") (recordError 0 (u "key-A") (new [u "key-A"])).

Definition threeStrikes : RateLimiter := recordError 0 (u "key-A") twoStrikes.

End Limiter.

(** ** JSON: [JSON.parse] and [JSON.stringify]

    The two built-ins, over code units.  A number keeps the text of its
    literal: no claim below depends on its numeric value beyond whether it is
    zero. *)

Module JSON.

#[local] Set Warnings "-register-all".

Inductive json :=
  | JNull
  | JBool (b : bool)
  | JNumber (literal : jsstring)
  | JString (s : jsstring)
  | JArray (items : list json)
  | JObject (fields : list (jsstring * json)).

Local Open Scope N_scope.

(** JSON white space: space, tab, line feed, carriage return. *)
Definition isWs (c : N) : bool :=
  (c =? 32) || (c =? 9) || (c =? 10) || (c =? 13).

Fixpoint skipWs (s : jsstring) : jsstring :=
  match s with
  | c :: rest => if isWs c then skipWs rest else s
  | [] => []
  end.

Definition isDigit (c : N) : bool := (48 <=? c) && (c <=? 57).

Definition hexValue (c : N) : option N :=
  if isDigit c then Some (c - 48)
  else if (97 <=? c) && (c <=? 102) then Some (c - 87)
  else if (65 <=? c) && (c <=? 70) then Some (c - 55)
  else None.

(** The characters of a string literal after its opening quote, decoded, and
    what follows the closing quote. *)
Fixpoint parseChars (s : jsstring) : option (jsstring * jsstring) :=
  match s with
  | [] => None
  | c :: rest =>
      if c =? 34 then Some ([], rest)
      else if c <? 32 then None
      else if c =? 92 then
        match rest with
        | [] => None
        | e :: rest1 =>
            let simple (d : N) :=
              match parseChars rest1 with
              | Some (cs, r) => Some (d :: cs, r)
              | None => None
              end in
            if e =? 34 then simple 34
            else if e =? 92 then simple 92
            else if e =? 47 then simple 47
            else if e =? 98 then simple 8
            else if e =? 102 then simple 12
            else if e =? 110 then simple 10
            else if e =? 114 then simple 13
            else if e =? 116 then simple 9
            else if e =? 117 then
              match rest1 with
              | h1 :: h2 :: h3 :: h4 :: rest2 =>
                  match hexValue h1, hexValue h2, hexValue h3, hexValue h4 with
                  | Some a, Some b, Some c', Some d =>
                      match parseChars rest2 with
                      | Some (cs, r) => Some (((a * 16 + b) * 16 + c') * 16 + d :: cs, r)
                      | None => None
                      end
                  | _, _, _, _ => None
                  end
              | _ => None
              end
            else None
        end
      else
        match parseChars rest with
        | Some (cs, r) => Some (c :: cs, r)
        | None => None
        end
  end.

Fixpoint spanDigits (s : jsstring) : jsstring * jsstring :=
  match s with
  | c :: rest =>
      if isDigit c then let '(ds, r) := spanDigits rest in (c :: ds, r)
      else ([], s)
  | [] => ([], [])
  end.

(** A number literal: an optional minus sign, then 0 or a digit string that
    does not start with 0, then an optional fraction (a dot and at least one
    digit), then an optional exponent (e or E, an optional sign, at least one
    digit). *)
Definition parseNumber (s : jsstring) : option (jsstring * jsstring) :=
  let '(sign, s1) :=
    match s with
    | c :: rest => if c =? 45 then ([c], rest) else ([], s)
    | [] => ([], s)
    end in
  let '(int, s2) := spanDigits s1 in
  match int with
  | [] => None
  | d :: ds =>
      if (d =? 48) && negb (bool_decide (ds = [])) then None
      else
        let '(frac, s3) :=
          match s2 with
          | c :: rest =>
              if c =? 46 then let '(fs, r) := spanDigits rest in (Some (c :: fs), r)
              else (Some [], s2)
          | [] => (Some [], s2)
          end in
        match frac with
        | Some [_] => None
        | Some frac =>
            match s3 with
            | c :: rest =>
                if (c =? 101) || (c =? 69) then
                  let '(esign, s4) :=
                    match rest with
                    | c' :: rest' =>
                        if (c' =? 43) || (c' =? 45) then ([c'], rest') else ([], rest)
                    | [] => ([], rest)
                    end in
                  let '(es, s5) := spanDigits s4 in
                  match es with
                  | [] => None
                  | _ => Some (sign ++ int ++ frac ++ [c] ++ esign ++ es, s5)
                  end
                else Some (sign ++ int ++ frac, s3)
            | [] => Some (sign ++ int ++ frac, s3)
            end
        | None => None
        end
  end.

(** What the parser is reading: one value, the rest of an array or the rest
    of an object. *)
Inductive Mode :=
  | MValue
  | MElements (acc : list json)
  | MMembers (acc : list (jsstring * json)).

Definition isPrefix (p s : jsstring) : bool := bool_decide (take (length p) s = p).

Fixpoint parseFrom (fuel : nat) (m : Mode) (s : jsstring) : option (json * jsstring) :=
  match fuel with
  | O => None
  | S fuel' =>
      match m with
      | MValue =>
          match skipWs s with
          | [] => None
          | c :: rest =>
              if c =? 123 then
                match skipWs rest with
                | c' :: rest' =>
                    if c' =? 125 then Some (JObject [], rest')
                    else parseFrom fuel' (MMembers []) rest
                | [] => None
                end
              else if c =? 91 then
                match skipWs rest with
                | c' :: rest' =>
                    if c' =? 93 then Some (JArray [], rest')
                    else parseFrom fuel' (MElements []) rest
                | [] => None
                end
              else if c =? 34 then
                match parseChars rest with
                | Some (cs, r) => Some (JString cs, r)
                | None => None
                end
              else if isPrefix [116; 114; 117; 101] (c :: rest) then
                Some (JBool true, drop 4 (c :: rest))
              else if isPrefix [102; 97; 108; 115; 101] (c :: rest) then
                Some (JBool false, drop 5 (c :: rest))
              else if isPrefix [110; 117; 108; 108] (c :: rest) then
                Some (JNull, drop 4 (c :: rest))
              else
                match parseNumber (c :: rest) with
                | Some (lit, r) => Some (JNumber lit, r)
                | None => None
                end
          end
      | MElements acc =>
          match parseFrom fuel' MValue s with
          | Some (v, r) =>
              match skipWs r with
              | c :: rest =>
                  if c =? 44 then parseFrom fuel' (MElements (acc ++ [v])) rest
                  else if c =? 93 then Some (JArray (acc ++ [v]), rest)
                  else None
              | [] => None
              end
          | None => None
          end
      | MMembers acc =>
          match skipWs s with
          | c :: rest =>
              if c =? 34 then
                match parseChars rest with
                | Some (key, r) =>
                    match skipWs r with
                    | c' :: r1 =>
                        if c' =? 58 then
                          match parseFrom fuel' MValue r1 with
                          | Some (v, r2) =>
                              match skipWs r2 with
                              | c'' :: r3 =>
                                  if c'' =? 44
                                  then parseFrom fuel' (MMembers (acc ++ [(key, v)])) r3
                                  else if c'' =? 125
                                  then Some (JObject (acc ++ [(key, v)]), r3)
                                  else None
                              | [] => None
                              end
                          | None => None
                          end
                        else None
                    | [] => None
                    end
                | None => None
                end
              else None
          | [] => None
          end
      end
  end.

(** [JSON.parse(text)]: one value and nothing but white space after it;
    [None] stands for the [SyntaxError]. *)
Definition parse (text : jsstring) : option json :=
  match parseFrom (2 * length text + 2) MValue text with
  | Some (v, rest) =>
      match skipWs rest with
      | [] => Some v
      | _ => None
      end
  | None => None
  end.

(** [JSON.stringify(value)] without indentation. *)

Definition hexDigit (n : N) : N := if n <? 10 then 48 + n else 87 + n.

(** [\uXXXX] with lower-case digits. *)
Definition escapeUnit (c : N) : jsstring :=
  [92; 117; hexDigit (c / 4096 mod 16); hexDigit (c / 256 mod 16);
   hexDigit (c / 16 mod 16); hexDigit (c mod 16)].

Definition isHighSurrogate (c : N) : bool := (55296 <=? c) && (c <=? 56319).
Definition isLowSurrogate (c : N) : bool := (56320 <=? c) && (c <=? 57343).

Fixpoint quoteChars (s : jsstring) : jsstring :=
  match s with
  | [] => []
  | c :: rest =>
      if isHighSurrogate c then
        match rest with
        | d :: rest' =>
            if isLowSurrogate d then c :: d :: quoteChars rest'
            else escapeUnit c ++ quoteChars rest
        | [] => escapeUnit c
        end
      else if isLowSurrogate c then escapeUnit c ++ quoteChars rest
      else if c =? 34 then [92; 34] ++ quoteChars rest
      else if c =? 92 then [92; 92] ++ quoteChars rest
      else if c =? 8 then [92; 98] ++ quoteChars rest
      else if c =? 12 then [92; 102] ++ quoteChars rest
      else if c =? 10 then [92; 110] ++ quoteChars rest
      else if c =? 13 then [92; 114] ++ quoteChars rest
      else if c =? 9 then [92; 116] ++ quoteChars rest
      else if c <? 32 then escapeUnit c ++ quoteChars rest
      else c :: quoteChars rest
  end.

Definition quote (s : jsstring) : jsstring := [34] ++ quoteChars s ++ [34].

Fixpoint stringify (j : json) : jsstring :=
  match j with
  | JNull => [110; 117; 108; 108]
  | JBool true => [116; 114; 117; 101]
  | JBool false => [102; 97; 108; 115; 101]
  | JNumber literal => literal
  | JString s => quote s
  | JArray items =>
      [91] ++
      (fix elements (items : list json) : jsstring :=
         match items with
         | [] => []
         | [x] => stringify x
         | x :: rest => stringify x ++ [44] ++ elements rest
         end) items ++ [93]
  | JObject fields =>
      [123] ++
      (fix members (fields : list (jsstring * json)) : jsstring :=
         match fields with
         | [] => []
         | [(k, v)] => quote k ++ [58] ++ stringify v
         | (k, v) :: rest => quote k ++ [58] ++ stringify v ++ [44] ++ members rest
         end) fields ++ [125]
  end.

End JSON.

(** ** Values of the language used by the services *)

Module Js.

Import JSON.

(** [String(n)] for an integer. *)
Fixpoint showDigits (fuel : nat) (n : N) (acc : jsstring) : jsstring :=
  match fuel with
  | O => acc
  | S fuel' =>
      let acc' := (48 + n mod 10)%N :: acc in
      if (n <? 10)%N then acc' else showDigits fuel' (n / 10)%N acc'
  end.

Definition showZ (z : Z) : jsstring :=
  let n := Z.to_N (Z.abs z) in
  let ds := showDigits (S (N.size_nat n)) n [] in
  if bool_decide (z < 0) then 45%N :: ds else ds.

(** White space and line terminators, as [String.prototype.trim] sees them. *)
Definition isSpace (c : N) : bool :=
  bool_decide (c ∈ [9; 10; 11; 12; 13; 32; 160; 5760; 8232; 8233; 8239; 8287;
                    12288; 65279]%N)
  || ((8192 <=? c) && (c <=? 8202))%N.

Fixpoint trimStart (s : jsstring) : jsstring :=
  match s with
  | c :: rest => if isSpace c then trimStart rest else s
  | [] => []
  end.

Definition trimEnd (s : jsstring) : jsstring := reverse (trimStart (reverse s)).

(** [s.trim()] *)
Definition trim (s : jsstring) : jsstring := trimEnd (trimStart s).

(** A value read out of parsed JSON: [undefined] or a JSON value. *)
Inductive Value :=
  | Undefined
  | Val (j : json).

(** Truthiness.  A number is falsy when its literal has no non-zero digit
    before the exponent. *)
Fixpoint mantissaIsZero (literal : jsstring) : bool :=
  match literal with
  | [] => true
  | c :: rest =>
      if ((c =? 101) || (c =? 69))%N then true
      else if ((49 <=? c) && (c <=? 57))%N then false
      else mantissaIsZero rest
  end.

Definition truthy (v : Value) : bool :=
  match v with
  | Undefined => false
  | Val JNull => false
  | Val (JBool b) => b
  | Val (JNumber literal) => negb (mantissaIsZero literal)
  | Val (JString s) => negb (bool_decide (s = []))
  | Val (JArray _) => true
  | Val (JObject _) => true
  end.

(** The last field of that name: a later duplicate overwrites an earlier one. *)
Fixpoint lookupField (name : jsstring) (fields : list (jsstring * json)) : Value :=
  match fields with
  | [] => Undefined
  | (k, v) :: rest =>
      match lookupField name rest with
      | Undefined => if bool_decide (k = name) then Val v else Undefined
      | found => found
      end
  end.

(** [v.name] for a name that is neither an index nor [length]: [None] is the
    [TypeError] of reading a property of [null] or [undefined]. *)
Definition getProp (v : Value) (name : jsstring) : option Value :=
  match v with
  | Undefined => None
  | Val JNull => None
  | Val (JObject fields) => Some (lookupField name fields)
  | Val _ => Some Undefined
  end.

(** [v[0]] *)
Definition getFirst (v : Value) : option Value :=
  match v with
  | Undefined => None
  | Val JNull => None
  | Val (JObject fields) => Some (lookupField [48%N] fields)
  | Val (JArray (x :: _)) => Some (Val x)
  | Val (JString (c :: _)) => Some (Val (JString [c]))
  | Val _ => Some Undefined
  end.

(** What an [async] function ends with: a value, or a thrown [Error] with
    its message. *)
Inductive Completion (A : Type) :=
  | Returned (a : A)
  | Threw (message : jsstring).
Arguments Returned {A} a.
Arguments Threw {A} message.

End Js.

(** ** The generation service: [class GeminiService] *)

Module Gemini.

Import Limiter JSON Js.

(** [API_KEYS]: the configured environment values that are set and are not
    the placeholder. *)
Definition placeholder : jsstring := u "your_gemini_api_key".

Definition apiKeysOf (env : list (option jsstring)) : list jsstring :=
  filter (fun key => take (length placeholder) key <> placeholder)
    (omap (fun v => match v with
                    | Some (c :: key) => Some (c :: key)
                    | _ => None
                    end) env).

(** The module's state: the limiter, the clock, and the requests handed to
    [makeRequestWithKey] so far (request id and key), oldest first. *)
Record World := mkWorld {
  limiter : RateLimiter;
  clock : Z;
  sent : list (jsstring * jsstring)
}.

Definition withLimiter (rl : RateLimiter) (w : World) : World :=
  {| limiter := rl; clock := clock w; sent := sent w |}.

(** The callbacks that are due at [now] run, oldest first. *)
Definition runDue (now : Z) (rl : RateLimiter) : RateLimiter :=
  foldl (fun rl timer => reactivate (usageOf timer) rl)
    {| keyUsage := keyUsage rl;
       keyPool := keyPool rl;
       pending := filter (fun timer => ~ dueAt timer <= now) (pending rl) |}
    (filter (fun timer => dueAt timer <= now) (pending rl)).

(** The clock reaches [now]. *)
Definition advanceTo (now : Z) (w : World) : World :=
  {| limiter := runDue now (limiter w);
     clock := now;
     sent := sent w |}.

(** An [await] that takes [ms] milliseconds. *)
Definition advance (ms : Z) (w : World) : World := advanceTo (clock w + ms) w.

(** What the endpoint does with a request.  The [fetch] rejects, or it
    settles with a response that carries a status.  The body of a response is
    read afterwards ([response.text()], [response.json()]): the read
    completes some milliseconds after the response arrived, with the text or
    with an error, or it never completes ([None]). *)
Inductive Body :=
  | BodyText (text : jsstring)
  | BodyFails (message : jsstring).

Inductive Answer :=
  | Refuses (message : jsstring)
  | Answers (status : Z) (read : option (Z * Body)).

(** The reply a call holds once its awaits are over. *)
Inductive Reply :=
  | Rejects (message : jsstring)
  | Responds (status : Z) (body : Body).

(** How the awaits of one call end: with the [fetch] aborted by the
    30000 ms timer, or with the endpoint's reply. *)
Inductive Settled :=
  | Aborted
  | Got (reply : Reply).

(** Messages of errors the runtime raises; their wording is the engine's. *)
Definition abortMessage : jsstring := u "The operation was aborted.".
Definition syntaxErrorMessage : jsstring := u "Unexpected token in JSON".
Definition typeErrorMessage : jsstring := u "Cannot read properties of undefined".

Definition orTypeError {A} (v : option Value) (k : Value -> Completion A)
  : Completion A :=
  match v with
  | Some v => k v
  | None => Threw typeErrorMessage
  end.

(** The checks of [makeRequestWithKey] on the parsed body, up to the
    returned text. *)
Definition extractText (data : json) : Completion jsstring :=
  orTypeError (getProp (Val data) (u "candidates")) (fun candidates =>
  if negb (truthy candidates) then Threw (u "Invalid response structure") else
  orTypeError (getFirst candidates) (fun first =>
  if negb (truthy first) then Threw (u "Invalid response structure") else
  orTypeError (getProp first (u "content")) (fun content0 =>
  if negb (truthy content0) then Threw (u "Invalid response structure") else
  orTypeError (getProp content0 (u "parts")) (fun parts =>
  orTypeError (getFirst parts) (fun part =>
  orTypeError (getProp part (u "text")) (fun content =>
  if negb (truthy content) then Threw (u "Empty response content") else
  match content with
  | Val (JString text) =>
      if bool_decide (length (trim text) = 0%nat)
      then Threw (u "Empty response content")
      else Returned text
  | _ => Threw typeErrorMessage
  end)))))).

(** [response.ok] *)
Definition ok (status : Z) : bool := bool_decide (200 <= status <= 299).

(** [makeRequestWithKey] from the point where its awaits are over: what the
    call completes with.  It depends on how the awaits ended only. *)
Definition completionOf (s : Settled) : Completion jsstring :=
  match s with
  | Aborted => Threw abortMessage
  | Got (Rejects message) => Threw message
  | Got (Responds status body) =>
      if negb (ok status) then
        match body with
        | BodyFails message => Threw message
        | BodyText errorText =>
            Threw (u "HTTP " ++ showZ status ++ u ": " ++ errorText)
        end
      else
        match body with
        | BodyFails message => Threw message
        | BodyText text =>
            match parse text with
            | None => Threw syntaxErrorMessage
            | Some data => extractText data
            end
        end
  end.

(** The calls to the limiter on that path, at time [now]: [recordError]
    sits in the [!response.ok] branch, after the error text was read, and
    [recordSuccess] before the [return]; the [catch] block logs and rethrows. *)
Definition effectOf (now : Z) (apiKey : jsstring) (s : Settled) (rl : RateLimiter)
  : RateLimiter :=
  match s with
  | Aborted => rl
  | Got (Rejects _) => rl
  | Got (Responds status body) =>
      if negb (ok status) then
        match body with
        | BodyFails _ => rl
        | BodyText _ => recordError now apiKey rl
        end
      else
        match completionOf s with
        | Returned _ => recordSuccess apiKey rl
        | Threw _ => rl
        end
  end.

Definition settle (now : Z) (apiKey : jsstring) (s : Settled) (rl : RateLimiter)
  : Completion jsstring * RateLimiter :=
  (completionOf s, effectOf now apiKey s rl).

Definition msgNoKeys : jsstring :=
  u "No valid Gemini API keys configured. Please add your actual API keys to the .env file.".
Definition msgBusy : jsstring :=
  u "All API keys are currently busy or invalid. Please check your API keys and try again.".

Section Service.

(** The endpoint: for a request issued at a time with a prompt and a key,
    after how many milliseconds the [fetch] would settle, and what with. *)
Variable network : Z -> jsstring -> jsstring -> Z * Answer.

Variable API_KEYS : list jsstring.

(** The two awaits of [makeRequestWithKey]: the [fetch], then the read of
    the body.  The timer aborts the [fetch] after 30000 ms; it is cleared as
    soon as the [fetch] has settled, so nothing bounds the read of the body.
    The result is the time the awaits take together and how they end; [None]
    when the read never completes. *)
Definition awaitReply (now : Z) (prompt apiKey : jsstring) : option (Z * Settled) :=
  let '(ms, answer) := network now prompt apiKey in
  if bool_decide (30000 <= ms) then Some (30000, Aborted)
  else
    match answer with
    | Refuses message => Some (ms, Got (Rejects message))
    | Answers status (Some (readMs, body)) =>
        Some (ms + readMs, Got (Responds status body))
    | Answers status None => None
    end.

(** No exchange with the endpoint stalls: the awaits of every call end. *)
Definition responsive : Prop :=
  forall now prompt apiKey, is_Some (awaitReply now prompt apiKey).

(** [makeRequestWithKey]: what the call completes with, [None] when it
    never completes, and the world it leaves. *)
Definition makeRequestWithKey (prompt apiKey requestId : jsstring) (w : World)
  : option (Completion jsstring) * World :=
  let w1 := {| limiter := limiter w; clock := clock w;
               sent := sent w ++ [(requestId, apiKey)] |} in
  match awaitReply (clock w) prompt apiKey with
  | None => (None, w1)
  | Some (ms, s) =>
      let w2 := advance ms w1 in
      let '(c, rl) := settle (clock w2) apiKey s (limiter w2) in
      (Some c, withLimiter rl w2)
  end.

Definition makeRequest (prompt requestId : jsstring) (w : World)
  : option (Completion jsstring) * World :=
  if bool_decide (length API_KEYS = 0%nat) then (Some (Threw msgNoKeys), w)
  else
    let '(availableKeys, rl1) := getAvailableKeys (clock w) 1 (limiter w) in
    match availableKeys with
    | [] => (Some (Threw msgBusy), withLimiter rl1 w)
    | apiKey :: _ =>
        makeRequestWithKey prompt apiKey requestId
          (withLimiter (recordRequest (clock w) apiKey rl1) w)
    end.

(** An entry of the argument of [makeParallelRequests], and of its result. *)
Record PromptItem := mkPrompt {
  prompt : jsstring;
  id : jsstring
}.

Record RequestResult := mkResult {
  resultId : jsstring;
  result : jsstring;
  error : option jsstring
}.

(** [availableKeys[index % availableKeys.length]]: [None] is [undefined]. *)
Definition keyFor (availableKeys : list jsstring) (index : nat) : option jsstring :=
  match availableKeys with
  | [] => None
  | _ => availableKeys !! (index mod length availableKeys)%nat
  end.

(** A call of a batch that reached its [fetch]: when its awaits are over
    (milliseconds after the batch started), its key and how they end. *)
Record InFlight := mkInFlight {
  settlesAfter : Z;
  usedKey : jsstring;
  settled : Settled
}.

(** The part of the [batch.map] callback that runs before its first
    [await], for the item at [index]: [recordRequest], then the start of
    [makeRequestWithKey] up to the [fetch].  With an [undefined] key nothing
    is recorded and [apiKey.slice] raises a [TypeError].  The result is
    [None] when the awaits of the call never end: then [Promise.all] never
    resumes, and the round has no end. *)
Definition startCall (availableKeys : list jsstring) (index : nat) (item : PromptItem)
    (w : World) : option (option InFlight * World) :=
  match keyFor availableKeys index with
  | None => Some (None, w)
  | Some apiKey =>
      match awaitReply (clock w) (prompt item) apiKey with
      | None => None
      | Some (ms, s) =>
          Some (Some (mkInFlight ms apiKey s),
                {| limiter := recordRequest (clock w) apiKey (limiter w);
                   clock := clock w;
                   sent := sent w ++ [(id item, apiKey)] |})
      end
  end.

Fixpoint startCalls (availableKeys : list jsstring) (index : nat)
    (batch : list PromptItem) (w : World)
  : option (list (option InFlight) * World) :=
  match batch with
  | [] => Some ([], w)
  | item :: rest =>
      match startCall availableKeys index item w with
      | None => None
      | Some (call, w1) =>
          match startCalls availableKeys (S index) rest w1 with
          | None => None
          | Some (calls, w2) => Some (call :: calls, w2)
          end
      end
  end.

(** The entry of [batchResults] for an item: the [try]/[catch] of the
    callback turns a thrown error into its message. *)
Definition resultOf (item : PromptItem) (call : option InFlight) : RequestResult :=
  match call with
  | None => mkResult (id item) [] (Some typeErrorMessage)
  | Some c =>
      match completionOf (settled c) with
      | Returned text => mkResult (id item) text None
      | Threw message => mkResult (id item) [] (Some message)
      end
  end.

(** The calls in flight end in the order of their times (calls that take
    equally long, in the order they were started). *)
Fixpoint insertCall (c : InFlight) (ordered : list InFlight) : list InFlight :=
  match ordered with
  | [] => [c]
  | d :: rest =>
      if bool_decide (settlesAfter d <= settlesAfter c) then d :: insertCall c rest
      else c :: d :: rest
  end.

Definition bySettleTime (calls : list InFlight) : list InFlight :=
  foldl (fun ordered c => insertCall c ordered) [] calls.

Definition settleCall (start : Z) (w : World) (c : InFlight) : World :=
  let w1 := advanceTo (start + settlesAfter c) w in
  withLimiter (effectOf (clock w1) (usedKey c) (settled c) (limiter w1)) w1.

(** One round of the loop of [makeParallelRequests]: the callbacks start
    their calls, and [Promise.all] resumes when every call has ended; [None]
    when one of them never does. *)
Definition dispatchBatch (availableKeys : list jsstring) (batch : list PromptItem)
    (w : World) : option (list RequestResult * World) :=
  match startCalls availableKeys 0 batch w with
  | None => None
  | Some (calls, w1) =>
      let w2 :=
        foldl (settleCall (clock w)) w1 (bySettleTime (omap (fun c => c) calls)) in
      Some (zip_with resultOf batch calls, w2)
  end.

(** The [for] loop of [makeParallelRequests]; [rounds] holds the
    [batchResults] of each round so far.  [None]: the loop has no end,
    because a round has none or because the fuel is used up. *)
Fixpoint batchLoop (fuel : nat) (availableKeys : list jsstring) (batchSize : nat)
    (prompts : list PromptItem) (i : nat) (rounds : list (list RequestResult))
    (w : World) : option (list (list RequestResult) * World) :=
  if bool_decide (i < length prompts)%nat then
    match fuel with
    | O => None
    | S fuel' =>
        let batch := take batchSize (drop i prompts) in
        match dispatchBatch availableKeys batch w with
        | None => None
        | Some (batchResults, w1) =>
            let w2 := if bool_decide (i + batchSize < length prompts)%nat
                      then advance 500 w1 else w1 in
            batchLoop fuel' availableKeys batchSize prompts (i + batchSize)
              (rounds ++ [batchResults]) w2
        end
    end
  else Some (rounds, w).

(** [makeParallelRequests(prompts)], with the rounds kept apart. *)
Definition parallelRounds (fuel : nat) (prompts : list PromptItem) (w : World)
  : option (list (list RequestResult) * World) :=
  let '(availableKeys, rl1) :=
    getAvailableKeys (clock w) (length prompts) (limiter w) in
  let batchSize := (length availableKeys `min` length prompts)%nat in
  batchLoop fuel availableKeys batchSize prompts 0 [] (withLimiter rl1 w).

(** [makeParallelRequests(prompts)]: [results] is the rounds' results, one
    after the other. *)
Definition makeParallelRequests (fuel : nat) (prompts : list PromptItem) (w : World)
  : option (list RequestResult * World) :=
  match parallelRounds fuel prompts w with
  | Some (rounds, w') => Some (concat rounds, w')
  | None => None
  end.

End Service.

(** *** Sample endpoints and worlds *)

(** An endpoint that cannot be reached: every [fetch] rejects after 100 ms. *)
Definition offline (now : Z) (prompt apiKey : jsstring) : Z * Answer :=
  (100, Refuses (u "Failed to fetch")).

(** An endpoint that refuses the key: every request is answered with
    status 403 after 150 ms, and the error text is read 50 ms later. *)
Definition forbidden (now : Z) (prompt apiKey : jsstring) : Z * Answer :=
  (150, Answers 403 (Some (50, BodyText (u "forbidden")))).

(** One configured key, at time 5000. *)
Definition oneKey : World :=
  {| limiter := Limiter.new [u "key-A"]; clock := 5000; sent := [] |}.

(** One key that was used at time 5000, seen 200 ms later. *)
Definition busyKey : World :=
  {| limiter := recordRequest 5000 (u "key-A") (Limiter.new [u "key-A"]);
     clock := 5200; sent := [] |}.

Definition noKeys : World :=
  {| limiter := Limiter.new []; clock := 5200; sent := [] |}.

(** The body of an answer that holds one candidate whose text is [text]. *)
Definition candidateBody (text : jsstring) : jsstring :=
  stringify
    (JObject [(u "candidates",
               JArray [JObject [(u "content",
                                 JObject [(u "parts",
                                           JArray [JObject [(u "text", JString text)]])])]])]).

(** An endpoint that answers every request after 200 ms with status 200;
    the body, read 100 ms later, holds one candidate whose text is [text]. *)
Definition answering (text : jsstring) (now : Z) (prompt apiKey : jsstring)
  : Z * Answer :=
  (200, Answers 200 (Some (100, BodyText (candidateBody text)))).



(** An endpoint that refuses the prompt [bad] as [forbidden] does and
    answers every other prompt as [answering] does. *)
Definition picky (now : Z) (prompt apiKey : jsstring) : Z * Answer :=
  if bool_decide (prompt = u "bad") then forbidden now prompt apiKey
  else answering (u "fine") now prompt apiKey.


(** Two keys, the first of which was used at time 0, seen at time 5000. *)
(** The service at time 70000, with the keys of [crowded]. *)
Definition crowdedWorld : World :=
  {| limiter := crowded; clock := 70000; sent := [] |}.

Definition twoKeysWorld : World :=
  {| limiter := twoKeys; clock := 5000; sent := [] |}.

(** Three prompts, the second of which the endpoint [picky] refuses. *)
Definition threePrompts : list PromptItem :=
  [mkPrompt (u "good") (u "p-1"); mkPrompt (u "bad") (u "p-2");
   mkPrompt (u "good") (u "p-3")].

(** *** Counting rounds *)

(** [Math.ceil(n / d)] on naturals. *)
Definition ceilDiv (n d : nat) : nat := ((n + d - 1) / d)%nat.

(** The number of keys of the pool that the selection accepts at the
    world's time. *)
Definition eligibleCount (w : World) : nat :=
  length (filter (fun key => eligible (clock w) (limiter w) key = true)
                 (keyPool (limiter w))).

(** One prompt. *)
Definition onePrompt : list PromptItem := [mkPrompt (u "prompt") (u "chapter-1")].

(** *** Cleaning a response: [cleanJsonResponse] *)

Definition fenceJson : jsstring := u "```json".
Definition fence : jsstring := u "```".

(** [s.replace(/FENCE\n?/g, '')] for a literal [FENCE]: the text is read
    from the left; where the fence starts, it and a line feed right after it
    are left out and reading goes on behind them.  [skip] counts the code
    units of a match that are still to be left out. *)
Fixpoint removeAll (pattern : jsstring) (skip : nat) (s : jsstring) : jsstring :=
  match s with
  | [] => []
  | c :: rest =>
      match skip with
      | S skip' => removeAll pattern skip' rest
      | O =>
          if isPrefix pattern s then
            let matched :=
              if bool_decide (s !! length pattern = Some 10%N)
              then S (length pattern) else length pattern in
            removeAll pattern (matched - 1) rest
          else c :: removeAll pattern 0 rest
      end
  end.

(** [s.indexOf(c)] and [s.lastIndexOf(c)]; [None] is -1. *)
Fixpoint indexOf (c : N) (s : jsstring) : option nat :=
  match s with
  | [] => None
  | d :: rest => if bool_decide (d = c) then Some 0%nat else S <$> indexOf c rest
  end.

Fixpoint lastIndexOf (c : N) (s : jsstring) : option nat :=
  match s with
  | [] => None
  | d :: rest =>
      match lastIndexOf c rest with
      | Some i => Some (S i)
      | None => if bool_decide (d = c) then Some 0%nat else None
      end
  end.

(** [s.substring(from, to)] for [from <= to]. *)
Definition substring (from to : nat) (s : jsstring) : jsstring :=
  take (to - from) (drop from s).

Definition cleanJsonResponse (response : jsstring) : jsstring :=
  let cleaned := removeAll fence 0 (removeAll fenceJson 0 response) in
  let cleaned := trim cleaned in
  let firstBrace := indexOf 123 cleaned in
  let lastBrace := lastIndexOf 125 cleaned in
  let cleaned :=
    match firstBrace, lastBrace with
    | Some first, Some last =>
        if bool_decide (first < last)%nat
        then substring first (last + 1) cleaned
        else cleaned
    | _, _ => cleaned
    end in
  trim cleaned.

(** The text of [response] with the fences taken out and trimmed. *)
Definition unfenced (response : jsstring) : jsstring :=
  trim (removeAll fence 0 (removeAll fenceJson 0 response)).

(** A JSON object text between a [json] fence and a closing fence. *)
Definition fenced (object : jsstring) : jsstring :=
  fenceJson ++ [10%N] ++ object ++ [10%N] ++ fence.


(** Three backticks start here. *)
Definition fenceAt (s : jsstring) : bool := isPrefix fence s.

(** No fence starts inside [text] when [tail] follows it. *)
Fixpoint fenceFree (text tail : jsstring) : bool :=
  match text with
  | [] => true
  | _ :: rest => negb (fenceAt (text ++ tail)) && fenceFree rest tail
  end.

(** The text of an object: an opening brace, a body, a closing brace. *)
Definition objectText (body : jsstring) : jsstring := 123%N :: body ++ [125%N].

(** *** The detailed course: [generateDetailedCourse] *)

(** A chapter and a roadmap, as the views declare them. *)
Record Chapter := mkChapter {
  chapterId : jsstring;
  title : jsstring;
  description : jsstring;
  duration : jsstring;
  estimatedHours : jsstring;
  difficulty : jsstring;
  position : jsstring;
  completed : bool;
  keyTopics : list jsstring;
  skills : list jsstring;
  practicalProjects : list jsstring;
  resources : Z
}.

Record Roadmap := mkRoadmap {
  roadmapId : jsstring;
  subject : jsstring;
  chapters : option (list Chapter)
}.

(** [{...chapter, content, quiz: null}]; a [null] content is [JNull]. *)
Record DetailedChapter := mkDetailed {
  chapter : Chapter;
  content : json;
  quiz : json
}.

Record DetailedCourse := mkCourse {
  courseId : jsstring;
  courseRoadmapId : jsstring;
  courseTitle : jsstring;
  courseDescription : jsstring;
  courseChapters : list DetailedChapter;
  generatedAt : jsstring
}.

(** [`chapter-${chapter.id}`] *)
Definition promptId (chapter : Chapter) : jsstring := u "chapter-" ++ chapterId chapter.

(** [!result.error]: no error, or an empty message. *)
Definition noError (r : RequestResult) : bool :=
  match error r with
  | None => true
  | Some message => bool_decide (message = [])
  end.

(** The body of the [for (let j ...)] loop: the entry pushed for a chapter
    of the batch, given the results of the batch. *)
Definition detailedChapterOf (batchResults : list RequestResult) (chapter : Chapter)
  : DetailedChapter :=
  match list_find (fun r => resultId r = promptId chapter) batchResults with
  | Some (_, r) =>
      if noError r then
        match parse (cleanJsonResponse (result r)) with
        | Some chapterContent => mkDetailed chapter chapterContent JNull
        | None => mkDetailed chapter JNull JNull
        end
      else mkDetailed chapter JNull JNull
  | None => mkDetailed chapter JNull JNull
  end.

Section Course.

Variable network : Z -> jsstring -> jsstring -> Z * Answer.
Variable API_KEYS : list jsstring.

(** The prompt built for a chapter of a roadmap on a subject (a fixed
    template filled with the chapter's fields), and [toISOString] of a time. *)
Variable chapterPrompt : Chapter -> jsstring -> jsstring.
Variable toISOString : Z -> jsstring.

(** The outer [for] loop of [generateDetailedCourse], called without
    [onProgress]. *)
Fixpoint courseLoop (fuel : nat) (roadmap : Roadmap) (batchSize : nat)
    (allChapters : list Chapter) (i : nat) (detailedChapters : list DetailedChapter)
    (w : World) : option (list DetailedChapter * World) :=
  if bool_decide (i < length allChapters)%nat then
    match fuel with
    | O => None
    | S fuel' =>
        let batch := take batchSize (drop i allChapters) in
        let prompts :=
          (fun chapter => mkPrompt (chapterPrompt chapter (subject roadmap))
                                   (promptId chapter)) <$> batch in
        match makeParallelRequests network fuel' prompts w with
        | None => None
        | Some (batchResults, w1) =>
            let w2 := if bool_decide (i + batchSize < length allChapters)%nat
                      then advance 1000 w1 else w1 in
            courseLoop fuel' roadmap batchSize allChapters (i + batchSize)
              (detailedChapters ++ (detailedChapterOf batchResults <$> batch)) w2
        end
    end
  else Some (detailedChapters, w).

Definition generateDetailedCourse (fuel : nat) (roadmap : Roadmap) (w : World)
  : option (DetailedCourse * World) :=
  let allChapters := default [] (chapters roadmap) in
  let '(status, rl1) := getStatus (clock w) API_KEYS (limiter w) in
  let batchSize := (3 `min` activeKeys status)%nat in
  match courseLoop fuel roadmap batchSize allChapters 0 [] (withLimiter rl1 w) with
  | None => None
  | Some (detailedChapters, w') =>
      Some ({| courseId := u "detailed_" ++ roadmapId roadmap;
               courseRoadmapId := roadmapId roadmap;
               courseTitle := u "Complete " ++ subject roadmap ++ u " Course";
               courseDescription :=
                 u "Comprehensive " ++ subject roadmap ++ u " course with detailed content";
               courseChapters := detailedChapters;
               generatedAt := toISOString (clock w') |}, w')
  end.

(** The loop does not end from index [i] in world [w]: the call for the
    batch at [i] never returns, or it returns and the loop does not end from
    the next index. *)
Inductive Hangs (roadmap : Roadmap) (batchSize : nat) (allChapters : list Chapter)
  : nat -> World -> Prop :=
  | hangs_here i w :
      (i < length allChapters)%nat ->
      (forall fuel,
         makeParallelRequests network fuel
           ((fun chapter => mkPrompt (chapterPrompt chapter (subject roadmap))
                                     (promptId chapter))
              <$> take batchSize (drop i allChapters)) w = None) ->
      Hangs roadmap batchSize allChapters i w
  | hangs_later i w fuel batchResults w1 :
      (i < length allChapters)%nat ->
      makeParallelRequests network fuel
        ((fun chapter => mkPrompt (chapterPrompt chapter (subject roadmap))
                                  (promptId chapter))
           <$> take batchSize (drop i allChapters)) w = Some (batchResults, w1) ->
      Hangs roadmap batchSize allChapters (i + batchSize)
        (if bool_decide (i + batchSize < length allChapters)%nat
         then advance 1000 w1 else w1) ->
      Hangs roadmap batchSize allChapters i w.

End Course.

(** A roadmap with one chapter. *)
Definition firstChapter : Chapter :=
  {| chapterId := u "chapter-1"; title := u "Introduction";
     description := u "Learn the fundamentals"; duration := u "1 week";
     estimatedHours := u "4-6 hours"; difficulty := u "beginner";
     position := u "left"; completed := false; keyTopics := []; skills := [];
     practicalProjects := []; resources := 5 |}.

Definition shortRoadmap : Roadmap :=
  {| roadmapId := u "roadmap-1"; subject := u "Python";
     chapters := Some [firstChapter] |}.

Definition numbered (n : Z) : Chapter :=
  {| chapterId := showZ n; title := u "Chapter " ++ showZ n;
     description := u "Learn the fundamentals"; duration := u "1 week";
     estimatedHours := u "4-6 hours"; difficulty := u "beginner";
     position := u "left"; completed := false; keyTopics := []; skills := [];
     practicalProjects := []; resources := 5 |}.

(** A roadmap with four chapters. *)
Definition longRoadmap : Roadmap :=
  {| roadmapId := u "roadmap-1"; subject := u "Python";
     chapters := Some (numbered <$> [1; 2; 3; 4]) |}.

(** A roadmap with two chapters. *)
Definition pairRoadmap : Roadmap :=
  {| roadmapId := u "roadmap-2"; subject := u "Python";
     chapters := Some (numbered <$> [1; 2]) |}.

End Gemini.

(** ** Persistence with a local fallback: [class UserService]

    Every method tries the backend first; [backend] is what that call
    completes with (the backend client is another module).  [localStorage]
    is a map from keys to strings; [setItem] is taken to succeed. *)

Module UserService.

Import JSON Js.

Abbreviation Storage := (gmap jsstring jsstring).

(** [localStorage.getItem(key)] when the result is truthy: present and not
    the empty string. *)
Definition getTruthy (key : jsstring) (st : Storage) : option jsstring :=
  match st !! key with
  | Some (c :: s) => Some (c :: s)
  | _ => None
  end.

(** [target[name] = v]: an existing property keeps its place. *)
Fixpoint setField (name : jsstring) (v : json) (fields : list (jsstring * json))
  : list (jsstring * json) :=
  match fields with
  | [] => [(name, v)]
  | (k, x) :: rest =>
      if bool_decide (k = name) then (k, v) :: rest
      else (k, x) :: setField name v rest
  end.


Definition assign (target source : list (jsstring * json)) : list (jsstring * json) :=
  foldl (fun acc kv => setField kv.1 kv.2 acc) target source.

(** The own enumerable properties that [{...value}] copies.  (Keys that are
    array indices are kept where they stand.) *)
Definition ownFields (value : json) : list (jsstring * json) :=
  match value with
  | JObject fields => assign [] fields
  | JArray items => imap (fun i x => (showZ (Z.of_nat i), x)) items
  | JString s => imap (fun i c => (showZ (Z.of_nat i), JString [c])) s
  | _ => []
  end.

Record UserData := mkUserData {
  clerkId : jsstring;
  email : jsstring;
  firstName : jsstring;
  lastName : jsstring;
  imageUrl : jsstring
}.





Section Methods.

(** [new Date(ms).toISOString()] *)
Variable toISOString : Z -> jsstring.

Definition fallbackUser (userData : UserData) (now : Z) : json :=
  JObject [(u "_id", JString (clerkId userData));
           (u "clerkId", JString (clerkId userData));
           (u "email", JString (email userData));
           (u "firstName", JString (firstName userData));
           (u "lastName", JString (lastName userData));
           (u "imageUrl", JString (imageUrl userData));
           (u "createdAt", JString (toISOString now));
           (u "updatedAt", JString (toISOString now))].

Definition getOrCreateUser (userData : UserData) (backend : Completion json)
    (now : Z) (st : Storage) : Completion json * Storage :=
  match backend with
  | Returned user => (Returned user, st)
  | Threw _ =>
      (Returned (fallbackUser userData now),
       <[u "user_" ++ clerkId userData := stringify (fallbackUser userData now)]> st)
  end.

Definition updateUser (userId : jsstring) (data : list (jsstring * json))
    (backend : Completion json) (now : Z) (st : Storage)
  : Completion json * Storage :=
  match backend with
  | Returned user => (Returned user, st)
  | Threw error =>
      match getTruthy (u "user_" ++ userId) st with
      | Some existingUser =>
          match parse existingUser with
          | None => (Threw Gemini.syntaxErrorMessage, st)
          | Some user =>
              let updatedUser :=
                JObject (assign (assign (ownFields user) (assign [] data))
                                [(u "updatedAt", JString (toISOString now))]) in
              (Returned updatedUser,
               <[u "user_" ++ userId := stringify updatedUser]> st)
          end
      | None => (Threw error, st)
      end
  end.















End Methods.

(** A fixed rendering of dates, for examples. *)
Definition isoStub (ms : Z) : jsstring := u "2025-07-11T18:14:57.000Z".

(** A user stored by the fallback of [getOrCreateUser]. *)
Definition sampleUser : UserData :=
  {| clerkId := u "user-1"; email := u "a@b.c"; firstName := u "Ada";
     lastName := u "Lovelace"; imageUrl := u "" |}.

Definition storedUser : Storage :=
  (getOrCreateUser isoStub sampleUser (Threw (u "backend unreachable")) 0 ∅).2.





End UserService.

(** ** The [roadmaps] table

    The migration creates the table with its primary key, its foreign key
    to [users], row-level security with one policy per command, and the
    unique index [idx_roadmaps_user_roadmap] on [(user_id, roadmap_id)].  A
    uuid is a number here; [user_id] may be [NULL], the other columns
    modelled are [NOT NULL]. *)

Module Store.

Import JSON.

Record Roadmap := mkRow {
  id : Z;
  user_id : option Z;
  roadmap_id : jsstring;
  subject : jsstring;
  difficulty : jsstring;
  description : jsstring;
  total_duration : jsstring;
  estimated_hours : jsstring;
  prerequisites : json;
  learning_outcomes : json;
  chapters : json;
  generated_at : Z;
  created_at : Z;
  updated_at : Z
}.

(** A row of [users]: its [id] and its [clerk_id]. *)
Record User := mkUser {
  userId : Z;
  clerk_id : jsstring
}.

Record Database := mkDatabase {
  users : list User;
  roadmaps : list Roadmap
}.

(** Who runs the statement: an authenticated user with [auth.uid()], or a
    role that bypasses row-level security. *)
Inductive Session :=
  | Authenticated (uid : jsstring)
  | ServiceRole.

Inductive Violation :=
  | RowLevelSecurity
  | PrimaryKey
  | ForeignKey
  | UniqueUserRoadmap.

(** [WITH CHECK (user_id IN (SELECT id FROM users WHERE clerk_id =
    auth.uid()::text))]; with a [NULL] [user_id] the test is not true. *)
Definition insertPolicy (session : Session) (db : Database) (row : Roadmap) : bool :=
  match session with
  | ServiceRole => true
  | Authenticated uid =>
      match user_id row with
      | Some owner =>
          bool_decide (owner ∈ userId <$> filter (fun x => clerk_id x = uid) (users db))
      | None => false
      end
  end.

(** The key of a row in [idx_roadmaps_user_roadmap]; a row with a [NULL]
    [user_id] conflicts with no row. *)
Definition indexKey (row : Roadmap) : option (Z * jsstring) :=
  match user_id row with
  | Some owner => Some (owner, roadmap_id row)
  | None => None
  end.

Definition conflicts (row other : Roadmap) : Prop :=
  match indexKey row with
  | Some key => indexKey other = Some key
  | None => False
  end.

#[local] Instance conflicts_dec row other : Decision (conflicts row other).
Proof. unfold conflicts. destruct (indexKey row); apply _. Defined.

(** [user_id uuid REFERENCES users(id)] *)
Definition referencesUser (db : Database) (row : Roadmap) : bool :=
  match user_id row with
  | Some owner => bool_decide (owner ∈ userId <$> users db)
  | None => true
  end.

(** [INSERT INTO roadmaps]: the row is stored, or the statement fails. *)
Definition insert (session : Session) (row : Roadmap) (db : Database)
  : Violation + Database :=
  if negb (insertPolicy session db row) then inl RowLevelSecurity
  else if bool_decide (id row ∈ id <$> roadmaps db) then inl PrimaryKey
  else if negb (referencesUser db row) then inl ForeignKey
  else if bool_decide (Exists (conflicts row) (roadmaps db)) then inl UniqueUserRoadmap
  else inr {| users := users db; roadmaps := roadmaps db ++ [row] |}.

(** A sequence of [INSERT] statements; a failed one changes nothing. *)
Definition execute (db : Database) (stmt : Session * Roadmap) : Database :=
  match insert stmt.1 stmt.2 db with
  | inr db' => db'
  | inl _ => db
  end.

Definition insertAll (stmts : list (Session * Roadmap)) (db : Database) : Database :=
  foldl execute db stmts.

(** What the index maintains, and what the foreign key maintains while
    [users] stays as it is. *)
Definition uniquePairs (db : Database) : Prop := NoDup (omap indexKey (roadmaps db)).

Definition ownersExist (db : Database) : Prop :=
  Forall (fun row => referencesUser db row = true) (roadmaps db).

(** One user; the same roadmap saved twice under two fresh ids. *)
Definition ada : User := {| userId := 1; clerk_id := u "clerk-ada" |}.

Definition pythonRoadmap (rowId : Z) : Roadmap :=
  {| id := rowId; user_id := Some 1; roadmap_id := u "roadmap_python_beginner";
     subject := u "Python"; difficulty := u "beginner";
     description := u "Python for beginners"; total_duration := u "8-12 weeks";
     estimated_hours := u "40-60 hours"; prerequisites := JArray [];
     learning_outcomes := JArray []; chapters := JArray [];
     generated_at := 0; created_at := 0; updated_at := 0 |}.

Definition afterFirstSave : Database :=
  insertAll [(Authenticated (u "clerk-ada"), pythonRoadmap 10)]
    {| users := [ada]; roadmaps := [] |}.

End Store.

(** ** What the orchestrator hands back *)

Module Results.

Import Limiter JSON Js Gemini.

(** An entry of the results is a text that is not blank, without an error,
    or an error message with an empty text. *)
Definition wellFormedResult (r : RequestResult) : Prop :=
  (error r = None /\ trim (result r) <> []) \/
  (exists message, error r = Some message /\ result r = []).

End Results.

(** ** The generators: [generateRoadmap], [generateCourseContent],
    [generateQuiz]

    Each builds a prompt from a fixed template, sends it with [makeRequest],
    cleans the reply and parses it.  [generateRoadmap] also reports its
    progress and reads the stored learning preferences. *)

Module Generation.

Import Limiter JSON Js Gemini.

Definition msgRoadmapFailed : jsstring :=
  u "Failed to generate roadmap. Please try again.".

(** A call of [onProgress]: the percentage and the status text. *)
Record Report := mkReport {
  progress : Z;
  status : jsstring
}.

Definition initializing : Report := mkReport 10 (u "Initializing roadmap generation...").
Definition generating : Report := mkReport 30 (u "Generating roadmap structure...").
Definition succeeded : Report := mkReport 100 (u "Roadmap generated successfully!").

(** [localStorage.getItem('learningPreferences') || '{}'] *)
Definition storedPreferences (st : UserService.Storage) : jsstring :=
  default (u "{}") (UserService.getTruthy (u "learningPreferences") st).

Section Generators.

Variable network : Z -> jsstring -> jsstring -> Z * Answer.
Variable API_KEYS : list jsstring.

(** The prompts: fixed templates filled with the arguments. *)
Variable structurePrompt : jsstring -> jsstring -> jsstring.
Variable coursePrompt : jsstring -> jsstring -> jsstring -> jsstring.
Variable quizPrompt : jsstring -> jsstring -> jsstring -> jsstring.

(** [generateRoadmap(subject, difficulty, onProgress)]: what it completes
    with ([None] when it never completes), the calls it made to [onProgress]
    (none when [onProgress] was not passed) and the world it leaves.  The
    stored preferences are parsed outside the [try]; everything thrown inside
    it is replaced by one message. *)
Definition generateRoadmap (subject difficulty : jsstring) (onProgress : bool)
    (st : UserService.Storage) (w : World)
  : option (Completion json) * list Report * World :=
  let report (r : Report) := if onProgress then [r] else [] in
  match parse (storedPreferences st) with
  | None => (Some (Threw syntaxErrorMessage), report initializing, w)
  | Some preferences =>
      let '(c, w1) :=
        makeRequest network API_KEYS (structurePrompt subject difficulty)
          (u "roadmap-structure") w in
      match c with
      | None => (None, report initializing ++ report generating, w1)
      | Some (Threw _) =>
          (Some (Threw msgRoadmapFailed), report initializing ++ report generating, w1)
      | Some (Returned response) =>
          match parse (cleanJsonResponse response) with
          | None =>
              (Some (Threw msgRoadmapFailed),
               report initializing ++ report generating, w1)
          | Some roadmapData =>
              (Some (Returned roadmapData),
               report initializing ++ report generating ++ report succeeded, w1)
          end
      end
  end.

(** [makeRequest], [cleanJsonResponse], [JSON.parse], with nothing caught. *)
Definition requestJson (prompt requestId : jsstring) (w : World)
  : option (Completion json) * World :=
  let '(c, w1) := makeRequest network API_KEYS prompt requestId w in
  match c with
  | None => (None, w1)
  | Some (Threw message) => (Some (Threw message), w1)
  | Some (Returned response) =>
      match parse (cleanJsonResponse response) with
      | None => (Some (Threw syntaxErrorMessage), w1)
      | Some v => (Some (Returned v), w1)
      end
  end.

(** [generateCourseContent] and [generateQuiz]; [random] stands for
    [Math.random().toString(36).substr(2, 9)]. *)
Definition generateCourseContent (chapterTitle subject difficulty random : jsstring)
    (w : World) : option (Completion json) * World :=
  requestJson (coursePrompt chapterTitle subject difficulty) (u "course-" ++ random) w.

Definition generateQuiz (chapterTitle subject difficulty random : jsstring)
    (w : World) : option (Completion json) * World :=
  requestJson (quizPrompt chapterTitle subject difficulty) (u "quiz-" ++ random) w.

End Generators.

End Generation.

(** ** Values that survive [JSON.stringify] and [JSON.parse]

    The values for which the text written by [JSON.stringify] is read back
    by [JSON.parse] as the same value: strings of 16-bit code units; numbers
    that are integers of at most 15 digits, written as the engine prints
    them; objects whose keys are distinct and do not start with a digit (so
    none is an array index, which the engine would enumerate first). *)

Module Storable.

Import JSON Js.

Local Open Scope N_scope.

Definition wfString (s : jsstring) : bool := forallb (fun c => c <? 65536) s.

Definition plainDigits (ds : jsstring) : bool :=
  match ds with
  | [] => false
  | [d] => isDigit d
  | d :: rest =>
      isDigit d && negb (d =? 48) && forallb isDigit rest
      && bool_decide (length ds <= 15)%nat
  end.

Definition canonicalNumber (literal : jsstring) : bool :=
  match literal with
  | c :: ds =>
      if c =? 45 then plainDigits ds && negb (bool_decide (ds = [48]))
      else plainDigits literal
  | [] => false
  end.

Definition wfKey (k : jsstring) : bool :=
  wfString k &&
  match k with
  | c :: _ => negb (isDigit c)
  | [] => true
  end.

Fixpoint wfJson (j : json) : bool :=
  match j with
  | JNull => true
  | JBool _ => true
  | JNumber literal => canonicalNumber literal
  | JString s => wfString s
  | JArray items => forallb wfJson items
  | JObject fields =>
      forallb (fun kv => wfKey kv.1 && wfJson kv.2) fields
      && bool_decide (NoDup fields.*1)
  end.

(** What follows a value inside a text: nothing, a comma, or a closing
    bracket or brace. *)
Definition delimited (rest : jsstring) : bool :=
  match rest with
  | [] => true
  | c :: _ => (c =? 44) || (c =? 93) || (c =? 125)
  end.

(** The texts between the brackets and between the braces, as
    [JSON.stringify] writes them. *)
Definition elementsText (items : list json) : jsstring :=
  (fix elements (items : list json) : jsstring :=
     match items with
     | [] => []
     | [x] => stringify x
     | x :: rest => stringify x ++ [44] ++ elements rest
     end) items.

Definition membersText (fields : list (jsstring * json)) : jsstring :=
  (fix members (fields : list (jsstring * json)) : jsstring :=
     match fields with
     | [] => []
     | [(k, v)] => quote k ++ [58] ++ stringify v
     | (k, v) :: rest => quote k ++ [58] ++ stringify v ++ [44] ++ members rest
     end) fields.

(** A written value, followed by a delimiter, is read back as the value,
    given fuel for its length. *)
Definition readsBack (j : json) : Prop :=
  wfJson j = true ->
  forall fuel rest, delimited rest = true ->
    (length (stringify j) + 1 <= fuel)%nat ->
    parseFrom fuel MValue (stringify j ++ rest) = Some (j, rest).

End Storable.

(** ** Sample documents for the local fallback *)

Module Offline.

Import JSON Js UserService.


(** [{...user, ...data}], read by property name: what [data] sets, and
    what [user] holds for the rest. *)
Definition merged (user data : list (jsstring * json)) (name : jsstring) : Value :=
  match lookupField name data with
  | Undefined => lookupField name user
  | found => found
  end.


(** The properties of an object. *)
Definition fieldsOf (value : json) : list (jsstring * json) :=
  match value with
  | JObject fields => fields
  | _ => []
  end.

End Offline.

(** ** Reading and deleting under the policies of the migration *)

Module Access.

Import JSON Store.

(** [USING (user_id IN (SELECT id FROM users WHERE clerk_id =
    auth.uid()::text))]: the one expression of the policies for [SELECT],
    [UPDATE] and [DELETE]; a row with a [NULL] [user_id] does not pass. *)
Definition usingPolicy (session : Session) (db : Database) (row : Roadmap) : bool :=
  match session with
  | ServiceRole => true
  | Authenticated uid =>
      match user_id row with
      | Some owner =>
          bool_decide (owner ∈ userId <$> filter (fun x => clerk_id x = uid) (users db))
      | None => false
      end
  end.

(** [SELECT * FROM roadmaps]: the rows the session may read, in the order
    of the table. *)
Definition select (session : Session) (db : Database) : list Roadmap :=
  filter (fun row => usingPolicy session db row = true) (roadmaps db).

(** [DELETE FROM roadmaps WHERE cond]: the rows that pass the policy and
    the condition go. *)
Definition delete (session : Session) (cond : Roadmap -> bool) (db : Database)
  : Database :=
  {| users := users db;
     roadmaps := filter (fun row => ~ (usingPolicy session db row = true /\
                                       cond row = true)) (roadmaps db) |}.

(** [DELETE FROM users WHERE id = uid] by a role that bypasses row-level
    security: with [ON DELETE CASCADE] the user's roadmaps go as well. *)
Definition deleteUser (uid : Z) (db : Database) : Database :=
  {| users := filter (fun x => userId x <> uid) (users db);
     roadmaps := filter (fun row => user_id row <> Some uid) (roadmaps db) |}.

(** Two users, one roadmap each. *)
Definition bob : User := {| userId := 2; clerk_id := u "clerk-bob" |}.

Definition rowOf (rowId owner : Z) : Roadmap :=
  {| id := rowId; user_id := Some owner; roadmap_id := u "roadmap_python_beginner";
     subject := u "Python"; difficulty := u "beginner";
     description := u "Python for beginners"; total_duration := u "8-12 weeks";
     estimated_hours := u "40-60 hours"; prerequisites := JArray [];
     learning_outcomes := JArray []; chapters := JArray [];
     generated_at := 0; created_at := 0; updated_at := 0 |}.

Definition twoUsers : Database :=
  {| users := [ada; bob]; roadmaps := [rowOf 10 1] |}.

End Access.

(** * Part II: properties *)

(** ** The rate limiter *)

Module LimiterFacts.

Import Limiter.

Lemma inWindow_idemp now l : inWindow now (inWindow now l) = inWindow now l.
Proof.
  unfold inWindow. induction l as [|t l IH]; [done|].
  rewrite filter_cons. case_decide as Ht; [|exact IH].
  rewrite filter_cons. rewrite decide_True by exact Ht. by rewrite IH.
Qed.

Lemma clean_idemp now usage : clean now (clean now usage) = clean now usage.
Proof. unfold clean; simpl. by rewrite inWindow_idemp. Qed.

Lemma sameView_refl now rl : sameView now rl rl.
Proof. by split_and!. Qed.

Lemma sameView_trans now rl1 rl2 rl3 :
  sameView now rl1 rl2 -> sameView now rl2 rl3 -> sameView now rl1 rl3.
Proof.
  intros (Hp & Ht & Hv) (Hp' & Ht' & Hv').
  split; [congruence|split; [congruence|]].
  intros key. by rewrite Hv', Hv.
Qed.

Lemma view_setUsage_clean now key rl key' :
  view now (setUsage key (clean now) rl) key' = view now rl key'.
Proof.
  unfold view, setUsage; simpl. destruct (decide (key = key')) as [->|Hne].
  - rewrite lookup_alter_eq. destruct (keyUsage rl !! key'); simpl; [|done].
    by rewrite clean_idemp.
  - by rewrite lookup_alter_ne.
Qed.

Lemma sameView_setUsage_clean now key rl :
  sameView now rl (setUsage key (clean now) rl).
Proof. split_and!; try done. intros key'. apply view_setUsage_clean. Qed.

Lemma windowCount_view now rl key :
  windowCount now rl key =
  from_option (fun v => length (requests v)) 0%nat (view now rl key).
Proof. unfold windowCount, view. by destruct (keyUsage rl !! key). Qed.

Lemma eligible_view now rl key :
  eligible now rl key =
  from_option (fun v => isActive v && canUseKey now v) false (view now rl key).
Proof. unfold eligible, view. by destruct (keyUsage rl !! key). Qed.

Lemma sameView_windowCount now rl rl' key :
  sameView now rl rl' -> windowCount now rl' key = windowCount now rl key.
Proof. intros (_ & _ & Hv). by rewrite !windowCount_view, Hv. Qed.

Lemma sameView_eligible now rl rl' key :
  sameView now rl rl' -> eligible now rl' key = eligible now rl key.
Proof. intros (_ & _ & Hv). by rewrite !eligible_view, Hv. Qed.

Lemma sameView_is_Some now rl rl' key :
  sameView now rl rl' ->
  is_Some (keyUsage rl' !! key) <-> is_Some (keyUsage rl !! key).
Proof.
  intros (_ & _ & Hv). specialize (Hv key). unfold view in Hv.
  destruct (keyUsage rl' !! key), (keyUsage rl !! key); simpl in Hv;
    try discriminate; split; intros [? ?]; try discriminate; eauto.
Qed.

Lemma sameView_tracked now rl rl' :
  sameView now rl rl' -> tracked rl -> tracked rl'.
Proof.
  intros Hs Ht key Hin. apply (sameView_is_Some now rl rl' key Hs).
  apply Ht. destruct Hs as (Hp & _). by rewrite <- Hp.
Qed.

(** A record that was just cleaned has exactly [windowCount] timestamps. *)
Lemma requestsLength_cleaned now key key' rl :
  is_Some (keyUsage rl !! key) ->
  (key' = key \/ exists v, keyUsage rl !! key = Some (clean now v)) ->
  requestsLength key (setUsage key' (clean now) rl)
  = Z.of_nat (windowCount now rl key).
Proof.
  intros [usage Hu] Hc. unfold requestsLength, windowCount, setUsage; simpl.
  destruct (decide (key' = key)) as [->|Hne].
  - rewrite lookup_alter_eq, Hu. reflexivity.
  - rewrite lookup_alter_ne by done. rewrite Hu.
    destruct Hc as [?|[v Hv]]; [done|]. rewrite Hu in Hv. injection Hv as ->.
    simpl. by rewrite inWindow_idemp.
Qed.

Lemma compareKeys_spec now a b rl :
  is_Some (keyUsage rl !! a) -> is_Some (keyUsage rl !! b) ->
  exists rl',
    compareKeys now a b rl
    = (Z.of_nat (windowCount now rl a) - Z.of_nat (windowCount now rl b), rl')
    /\ sameView now rl rl'.
Proof.
  intros [ua Ha] [ub Hb]. unfold compareKeys. rewrite Ha, Hb.
  set (rl1 := setUsage a (clean now) rl).
  assert (Hs1 : sameView now rl rl1) by apply sameView_setUsage_clean.
  eexists. split; [|eapply sameView_trans; [exact Hs1|apply sameView_setUsage_clean]].
  f_equal. f_equal.
  - rewrite requestsLength_cleaned.
    + by rewrite (sameView_windowCount now rl rl1).
    + apply (sameView_is_Some now rl rl1 a Hs1). eauto.
    + right. exists ua. unfold rl1, setUsage; simpl.
      by rewrite lookup_alter_eq, Ha.
  - rewrite requestsLength_cleaned.
    + by rewrite (sameView_windowCount now rl rl1).
    + apply (sameView_is_Some now rl rl1 b Hs1). eauto.
    + by left.
Qed.

(** Without both records the comparator answers 0 and touches nothing. *)
Lemma compareKeys_sameView now a b rl :
  sameView now rl (compareKeys now a b rl).2.
Proof.
  unfold compareKeys.
  destruct (keyUsage rl !! a), (keyUsage rl !! b); simpl;
    try apply sameView_refl.
  eapply sameView_trans; apply sameView_setUsage_clean.
Qed.

(** *** The sort *)

Section Sorting.
Variable now : Z.
Variable rl0 : RateLimiter.

Lemma insertKey_spec x sorted rl :
  sameView now rl0 rl ->
  Forall (fun key => is_Some (keyUsage rl0 !! key)) (x :: sorted) ->
  StronglySorted (fewerCalls now rl0) sorted ->
  exists r rl',
    insertKey now x sorted rl = (r, rl') /\ r ≡ₚ x :: sorted /\
    StronglySorted (fewerCalls now rl0) r /\ sameView now rl0 rl'.
Proof.
  revert rl. induction sorted as [|y ys IH]; intros rl Hs Hall Hsorted.
  - exists [x], rl. split_and!; auto. repeat constructor.
  - simpl. apply Forall_cons in Hall as [Hx Hall].
    apply Forall_cons in Hall as [Hy Hys].
    destruct (compareKeys_spec now y x rl) as (rl1 & Hc & Hs1).
    { by apply (sameView_is_Some now rl0 rl y Hs). }
    { by apply (sameView_is_Some now rl0 rl x Hs). }
    rewrite Hc. rewrite !(sameView_windowCount now rl0 rl) by done.
    assert (Hs01 : sameView now rl0 rl1) by (eapply sameView_trans; eauto).
    apply StronglySorted_cons in Hsorted as [Hle Hsorted].
    case_bool_decide as Hcmp.
    + destruct (IH rl1 Hs01) as (r & rl2 & Hi & Hperm & Hsr & Hs2);
        [by apply Forall_cons|done|].
      rewrite Hi. exists (y :: r), rl2. split_and!; auto.
      * rewrite Hperm. apply Permutation_swap.
      * apply StronglySorted_cons. split; [|done].
        rewrite Hperm. apply Forall_cons. split; [|done].
        unfold fewerCalls. lia.
    + exists (x :: y :: ys), rl1. split_and!; auto.
      apply StronglySorted_cons. split.
      * apply Forall_cons. split; [unfold fewerCalls; lia|].
        eapply Forall_impl; [exact Hle|]. unfold fewerCalls. intros; simpl in *; lia.
      * by apply StronglySorted_cons.
Qed.

Lemma sortKeys_from keys acc rl :
  sameView now rl0 rl ->
  Forall (fun key => is_Some (keyUsage rl0 !! key)) (acc ++ keys) ->
  StronglySorted (fewerCalls now rl0) acc ->
  exists r rl',
    foldl (fun a x => insertKey now x a.1 a.2) (acc, rl) keys = (r, rl') /\
    r ≡ₚ acc ++ keys /\ StronglySorted (fewerCalls now rl0) r /\ sameView now rl0 rl'.
Proof.
  revert acc rl. induction keys as [|x keys IH]; intros acc rl Hs Hall Hsorted.
  - exists acc, rl. rewrite app_nil_r. by split_and!.
  - simpl. destruct (insertKey_spec x acc rl Hs) as (r & rl1 & Hi & Hperm & Hsr & Hs1).
    { apply Forall_app in Hall as [Hacc Hkeys].
      apply Forall_cons in Hkeys as [Hx _]. by apply Forall_cons. }
    { done. }
    rewrite Hi. destruct (IH r rl1 Hs1) as (r' & rl2 & Hf & Hperm' & Hsr' & Hs2).
    { rewrite Hperm. rewrite Forall_app, Forall_cons in Hall.
      rewrite Forall_app, Forall_cons. tauto. }
    { done. }
    exists r', rl2. split_and!; auto.
    rewrite Hperm', Hperm. simpl. apply Permutation_middle.
Qed.

Lemma sortKeys_spec :
  tracked rl0 ->
  exists r rl',
    sortKeys now (keyPool rl0) rl0 = (r, rl') /\ r ≡ₚ keyPool rl0 /\
    StronglySorted (fewerCalls now rl0) r /\ sameView now rl0 rl'.
Proof.
  intros Ht. unfold sortKeys.
  apply (sortKeys_from (keyPool rl0) [] rl0); [apply sameView_refl| |constructor].
  apply Forall_forall. intros key Hin. by apply Ht.
Qed.

End Sorting.

(** The sort keeps the keys and the view whether or not every key has a
    record. *)
Lemma insertKey_perm now x sorted rl :
  (insertKey now x sorted rl).1 ≡ₚ x :: sorted /\
  sameView now rl (insertKey now x sorted rl).2.
Proof.
  revert rl. induction sorted as [|y ys IH]; intros rl; simpl.
  - split; [done|apply sameView_refl].
  - pose proof (compareKeys_sameView now y x rl) as Hc.
    destruct (compareKeys now y x rl) as [c rl1]; simpl in Hc.
    case_bool_decide.
    + destruct (IH rl1) as [Hp Hs].
      destruct (insertKey now x ys rl1) as [r rl2]; simpl in *.
      split; [rewrite Hp; apply Permutation_swap|by eapply sameView_trans].
    + by split.
Qed.

Lemma sortKeys_perm now keys rl :
  (sortKeys now keys rl).1 ≡ₚ keys /\ sameView now rl (sortKeys now keys rl).2.
Proof.
  unfold sortKeys.
  assert (H : forall acc rl1, sameView now rl rl1 ->
    (foldl (fun a x => insertKey now x a.1 a.2) (acc, rl1) keys).1 ≡ₚ acc ++ keys /\
    sameView now rl (foldl (fun a x => insertKey now x a.1 a.2) (acc, rl1) keys).2).
  { induction keys as [|x keys IH]; intros acc rl1 Hs; simpl.
    - by rewrite app_nil_r.
    - destruct (insertKey_perm now x acc rl1) as [Hp Hs1].
      destruct (insertKey now x acc rl1) as [r rl2]; simpl in *.
      destruct (IH r rl2) as [Hp' Hs'].
      { by eapply sameView_trans. }
      split; [|done]. rewrite Hp', Hp. simpl. apply Permutation_middle. }
  apply (H [] rl). apply sameView_refl.
Qed.

(** *** The selection loop *)

Lemma selectKeys_spec now count sortedKeys : forall availableKeys rl,
  exists rl',
    selectKeys now count sortedKeys availableKeys rl
    = (availableKeys ++
         take (count - length availableKeys)
              (filter (fun key => eligible now rl key = true) sortedKeys), rl')
    /\ sameView now rl rl'.
Proof.
  induction sortedKeys as [|key rest IH]; intros availableKeys rl; simpl.
  - exists rl. rewrite filter_nil, take_nil, app_nil_r. split; [done|apply sameView_refl].
  - case_bool_decide as Hfull.
    + exists rl. replace (count - length availableKeys)%nat with 0%nat by lia.
      rewrite take_0, app_nil_r. split; [done|apply sameView_refl].
    + rewrite filter_cons.
      assert (He : eligible now rl key =
                   match keyUsage rl !! key with
                   | Some usage => isActive usage && canUseKey now (clean now usage)
                   | None => false
                   end) by reflexivity.
      destruct (keyUsage rl !! key) as [usage|] eqn:Hu.
      * destruct (isActive usage) eqn:Hact; simpl in *.
        -- pose proof (sameView_setUsage_clean now key rl) as Hs1.
           assert (Hf : filter (fun k => eligible now (setUsage key (clean now) rl) k = true) rest
                        = filter (fun k => eligible now rl k = true) rest).
           { apply list_filter_iff. intros key'.
             by rewrite (sameView_eligible now rl _ key' Hs1). }
           destruct (canUseKey now (clean now usage)) eqn:Hcan.
           ++ destruct (IH (availableKeys ++ [key]) (setUsage key (clean now) rl))
                as (rl' & Hsel & Hs').
              exists rl'. split; [|by eapply sameView_trans].
              rewrite Hsel, Hf. rewrite decide_True by done.
              rewrite length_app; simpl.
              replace (count - length availableKeys)%nat
                with (S (count - (length availableKeys + 1)))%nat by lia.
              simpl. by rewrite <- app_assoc.
           ++ destruct (IH availableKeys (setUsage key (clean now) rl))
                as (rl' & Hsel & Hs').
              exists rl'. split; [|by eapply sameView_trans].
              rewrite Hsel, Hf. by rewrite decide_False by (rewrite He; done).
        -- destruct (IH availableKeys rl) as (rl' & Hsel & Hs').
           exists rl'. split; [|done]. rewrite Hsel.
           by rewrite decide_False by (rewrite He; done).
      * destruct (IH availableKeys rl) as (rl' & Hsel & Hs').
        exists rl'. split; [|done]. rewrite Hsel.
        by rewrite decide_False by (rewrite He; done).
Qed.

(** [getAvailableKeys] returns the first [count] acceptable keys of the
    sorted pool and leaves the view as it was. *)
Lemma getAvailableKeys_spec now count rl :
  exists rl',
    getAvailableKeys now count rl
    = (take count (filter (fun key => eligible now rl key = true)
                          (sortKeys now (keyPool rl) rl).1), rl')
    /\ sameView now rl rl'.
Proof.
  unfold getAvailableKeys.
  destruct (sortKeys_perm now (keyPool rl) rl) as [_ Hs].
  destruct (sortKeys now (keyPool rl) rl) as [sortedKeys rl1]; simpl in *.
  destruct (selectKeys_spec now count sortedKeys [] rl1) as (rl' & Hsel & Hs').
  exists rl'. split; [|by eapply sameView_trans].
  rewrite Hsel; simpl. rewrite Nat.sub_0_r.
  replace (filter (fun key => eligible now rl1 key = true) sortedKeys)
    with (filter (fun key => eligible now rl key = true) sortedKeys); [done|].
  apply list_filter_iff. intros key.
  by rewrite (sameView_eligible now rl rl1 key Hs).
Qed.

Lemma StronglySorted_filter {A} (R : A -> A -> Prop) (P : A -> Prop)
    `{!forall x, Decision (P x)} (l : list A) :
  StronglySorted R l -> StronglySorted R (filter P l).
Proof.
  induction 1 as [|x l Hl IH Hx]; [constructor|].
  rewrite filter_cons. case_decide; [|exact IH].
  constructor; [exact IH|]. apply Forall_forall. intros y Hy.
  apply list_elem_of_filter in Hy as [_ Hy].
  rewrite Forall_forall in Hx. by apply Hx.
Qed.

Lemma filter_none {A} (P : A -> Prop) `{!forall x, Decision (P x)} (l : list A) :
  (forall x, x ∈ l -> ~ P x) -> filter P l = [].
Proof.
  induction l as [|x l IH]; intros Hnone; [done|].
  rewrite filter_cons. rewrite decide_False by (apply Hnone; left).
  apply IH. intros y Hy. apply Hnone. by right.
Qed.

Lemma new_lookup API_KEYS key :
  key ∈ API_KEYS -> keyUsage (new API_KEYS) !! key = Some freshUsage.
Proof.
  unfold new; simpl.
  assert (H : forall m : gmap jsstring Usage,
             m !! key = Some freshUsage \/ key ∈ API_KEYS ->
             foldl (fun m key => <[key := freshUsage]> m) m API_KEYS !! key
             = Some freshUsage).
  { induction API_KEYS as [|k ks IH]; intros m [Hm|Hin]; simpl; auto.
    - by apply elem_of_nil in Hin.
    - apply IH. left. destruct (decide (k = key)) as [->|Hne].
      + apply lookup_insert_eq.
      + by rewrite lookup_insert_ne.
    - apply elem_of_cons in Hin as [->|Hin].
      + apply IH. left. apply lookup_insert_eq.
      + apply IH. by right. }
  intros Hin. apply H. by right.
Qed.

Lemma tracked_new API_KEYS : tracked (new API_KEYS).
Proof. intros key Hin. rewrite new_lookup; [eauto|exact Hin]. Qed.

Lemma tracked_setUsage key f rl : tracked rl -> tracked (setUsage key f rl).
Proof.
  intros Ht key' Hin. unfold setUsage; simpl.
  rewrite lookup_alter_is_Some. by apply Ht.
Qed.

(** ** Properties of the selection *)

(** The tests of the selection and its count of calls, read off a record
    as it stands. *)
Lemma windowCount_explicit now rl key usage :
  keyUsage rl !! key = Some usage ->
  windowCount now rl key
  = length (filter (fun time => (now - time < 60000)%Z) (requests usage)).
Proof. intros Hu. unfold windowCount. by rewrite Hu. Qed.

Lemma eligible_explicit now rl key usage :
  keyUsage rl !! key = Some usage ->
  eligible now rl key = true <->
  isActive usage = true /\ (consecutiveErrors usage < 3)%nat /\
  (length (filter (fun time => (now - time < 60000)%Z) (requests usage)) < 20)%nat /\
  1000 <= now - lastRequest usage.
Proof.
  intros Hu. unfold eligible. rewrite Hu. unfold canUseKey.
  rewrite !andb_true_iff, !bool_decide_eq_true. cbn [clean requests lastRequest
    consecutiveErrors]. unfold inWindow, timeWindow, maxConsecutiveErrors,
    maxRequestsPerKey, minInterval. tauto.
Qed.

(** C4.  [getAvailableKeys(n)] returns at most [n] keys, all of the pool;
    each returned key is active, has fewer than 3 consecutive errors, fewer
    than 20 recorded calls inside the trailing 60000 ms and was last used at
    least 1000 ms ago; and no key of the pool that meets these four tests
    and was left out has fewer calls inside the trailing 60000 ms than a
    returned one.  The calls inside the window are counted on the record as
    it stands: the recorded times [time] with [now - time < 60000]. *)
Theorem getAvailableKeys_sound (now : Z) (n : nat) (rl : RateLimiter) :
  let keys := (getAvailableKeys now n rl).1 in
  let calls (usage : Usage) :=
    length (filter (fun time => (now - time < 60000)%Z) (requests usage)) in
  let acceptable (usage : Usage) :=
    isActive usage = true /\ (consecutiveErrors usage < 3)%nat /\
    (calls usage < 20)%nat /\ 1000 <= now - lastRequest usage in
  (length keys <= n)%nat /\
  (forall key, key ∈ keys ->
     key ∈ keyPool rl /\
     exists usage, keyUsage rl !! key = Some usage /\ acceptable usage) /\
  (tracked rl ->
   forall key key' usage usage',
     key ∈ keys -> keyUsage rl !! key = Some usage ->
     key' ∈ keyPool rl -> keyUsage rl !! key' = Some usage' ->
     acceptable usage' -> key' ∉ keys ->
     (calls usage <= calls usage')%nat).
Proof.
  cbv zeta.
  destruct (getAvailableKeys_spec now n rl) as (rl' & Hget & _).
  rewrite Hget; simpl.
  destruct (sortKeys_perm now (keyPool rl) rl) as [Hperm _].
  set (sorted := (sortKeys now (keyPool rl) rl).1) in *.
  set (ok := filter (fun key => eligible now rl key = true) sorted).
  split_and!.
  - rewrite length_take. lia.
  - intros key Hin. apply subseteq_take in Hin.
    apply list_elem_of_filter in Hin as [He Hin]. split.
    + by rewrite <- Hperm.
    + destruct (keyUsage rl !! key) as [usage|] eqn:Hu.
      * exists usage. split; [done|]. by apply (eligible_explicit now rl key).
      * unfold eligible in He. by rewrite Hu in He.
  - intros Ht key key' usage usage' Hin Hu Hpool Hu' Hacc Hout.
    destruct (sortKeys_spec now rl Ht) as (r & rl1 & Hsort & _ & Hsorted & _).
    assert (Hr : sorted = r) by (unfold sorted; by rewrite Hsort).
    assert (Hok : StronglySorted (fewerCalls now rl) ok).
    { unfold ok. rewrite Hr. by apply StronglySorted_filter. }
    rewrite <- (take_drop n ok) in Hok.
    rewrite <- (windowCount_explicit now rl key usage Hu).
    rewrite <- (windowCount_explicit now rl key' usage' Hu').
    change (fewerCalls now rl key key').
    eapply StronglySorted_app_1_elem_of; [exact Hok|exact Hin|].
    assert (Hk' : key' ∈ ok).
    { apply list_elem_of_filter. split; [|by rewrite Hperm].
      by apply (eligible_explicit now rl key' usage'). }
    rewrite <- (take_drop n ok) in Hk'. apply elem_of_app in Hk' as [Hk'|Hk']; done.
Qed.

Lemma getAvailableKeys_sound_witness :
  tracked crowded /\
  (getAvailableKeys 70000 1 crowded).1 = [u "key-A"] /\
  keyUsage crowded !! (u "key-A") = Some (mkUsage [0; 1000; 65000] 65000 0 true) /\
  keyUsage crowded !! (u "key-B") = Some (mkUsage [20000; 30000] 30000 0 true) /\
  (length (filter (fun time => (70000 - time < 60000)%Z) [0; 1000; 65000]%Z)
   <= length (filter (fun time => (70000 - time < 60000)%Z) [20000; 30000]%Z))%nat.
Proof.
  assert (Ht : tracked crowded).
  { unfold crowded. do 5 apply tracked_setUsage. apply tracked_new. }
  assert (Ha : keyUsage crowded !! (u "key-A")
               = Some (mkUsage [0; 1000; 65000] 65000 0 true)) by (by vm_compute).
  assert (Hb : keyUsage crowded !! (u "key-B")
               = Some (mkUsage [20000; 30000] 30000 0 true)) by (by vm_compute).
  split; [exact Ht|]. split; [by vm_compute|]. split; [exact Ha|]. split; [exact Hb|].
  assert (Hin : u "key-A" ∈ (getAvailableKeys 70000 1 crowded).1)
    by (by apply (bool_decide_unpack _)).
  assert (Hpool : u "key-B" ∈ keyPool crowded) by (right; left).
  assert (Hout : u "key-B" ∉ (getAvailableKeys 70000 1 crowded).1)
    by (by apply (bool_decide_unpack _)).
  exact (proj2 (proj2 (getAvailableKeys_sound 70000 1 crowded)) Ht
           (u "key-A") (u "key-B") (mkUsage [0; 1000; 65000] 65000 0 true)
           (mkUsage [20000; 30000] 30000 0 true) Hin Ha Hpool Hb
           ltac:(split_and!; [done|simpl; lia|vm_compute; lia|simpl; lia]) Hout).
Defined.

Lemma getAvailableKeys_sameView now count rl :
  sameView now rl (getAvailableKeys now count rl).2.
Proof.
  destruct (getAvailableKeys_spec now count rl) as (rl' & Hget & Hs).
  by rewrite Hget.
Qed.

Lemma mapKeyStatus_sameView now keys : forall rl,
  sameView now rl (mapKeyStatus now keys rl).2.
Proof.
  induction keys as [|key rest IH]; intros rl; simpl; [apply sameView_refl|].
  unfold keyStatus.
  destruct (keyUsage rl !! key) as [usage|].
  - specialize (IH (setUsage key (clean now) rl)).
    destruct (mapKeyStatus now rest (setUsage key (clean now) rl)); simpl in *.
    eapply sameView_trans; [apply sameView_setUsage_clean|exact IH].
  - specialize (IH rl). by destruct (mapKeyStatus now rest rl).
Qed.

Lemma getStatus_sameView now API_KEYS rl :
  sameView now rl (getStatus now API_KEYS rl).2.
Proof.
  unfold getStatus. pose proof (mapKeyStatus_sameView now API_KEYS rl) as H.
  by destruct (mapKeyStatus now API_KEYS rl).
Qed.

(** A key returned by the selection passes [eligible]. *)
Lemma getAvailableKeys_eligible now count rl key :
  key ∈ (getAvailableKeys now count rl).1 -> eligible now rl key = true.
Proof.
  destruct (getAvailableKeys_spec now count rl) as (rl' & Hget & _).
  rewrite Hget; simpl. intros Hin. apply subseteq_take in Hin.
  by apply list_elem_of_filter in Hin as [He _].
Qed.

(** Every access keeps the pool's keys tracked, so the limiter is tracked
    at all times. *)
Lemma tracked_recordError now apiKey rl :
  tracked rl -> tracked (recordError now apiKey rl).
Proof.
  intros Ht key. unfold recordError.
  destruct (keyUsage rl !! apiKey) as [usage|] eqn:Hu; [|by apply Ht].
  case_bool_decide; simpl; intros Hin; apply lookup_insert_is_Some';
    right; by apply Ht.
Qed.

Lemma tracked_step now ev rl rl' :
  step now ev rl = Some rl' -> tracked rl -> tracked rl'.
Proof.
  destruct ev as [count|keys|k|k|k|i]; simpl; intros Hstep Ht.
  - injection Hstep as <-.
    eapply sameView_tracked; [apply getAvailableKeys_sameView|done].
  - injection Hstep as <-.
    eapply sameView_tracked; [apply getStatus_sameView|done].
  - injection Hstep as <-. by apply tracked_setUsage.
  - injection Hstep as <-. by apply tracked_recordError.
  - injection Hstep as <-. by apply tracked_setUsage.
  - destruct (pending rl !! i) as [timer|]; [|done].
    case_bool_decide; [|done]. injection Hstep as <-.
    by apply tracked_setUsage.
Qed.

Lemma tracked_run evs : forall rl rl',
  run evs rl = Some rl' -> tracked rl -> tracked rl'.
Proof.
  induction evs as [|[now ev] evs IH]; intros rl rl'; simpl.
  - by intros [= <-].
  - destruct (step now ev rl) as [rl1|] eqn:Hstep; [|done].
    intros Hrun Ht. eapply IH; [exact Hrun|]. by eapply tracked_step.
Qed.

Lemma suspendedUntil_sameView now deadline key rl rl' :
  sameView now rl rl' -> suspendedUntil deadline key rl ->
  suspendedUntil deadline key rl'.
Proof.
  intros (_ & Hp & Hv) [(usage & Hu & Hact) Htimers]. split.
  - specialize (Hv key). unfold view in Hv. rewrite Hu in Hv.
    destruct (keyUsage rl' !! key) as [usage'|]; [|done].
    exists usage'. split; [done|]. simpl in Hv. injection Hv as _ _ _ Hv.
    congruence.
  - by rewrite Hp.
Qed.

Lemma suspendedUntil_setUsage deadline key key' f rl :
  (forall usage, isActive usage = false -> key' = key -> isActive (f usage) = false) ->
  suspendedUntil deadline key rl -> suspendedUntil deadline key (setUsage key' f rl).
Proof.
  intros Hf [(usage & Hu & Hact) Htimers]. split; [|exact Htimers].
  unfold setUsage; simpl. destruct (decide (key' = key)) as [->|Hne].
  - exists (f usage). rewrite lookup_alter_eq, Hu. split; [done|]. by apply Hf.
  - exists usage. by rewrite lookup_alter_ne.
Qed.

Lemma suspendedUntil_step t0 key now ev rl rl' :
  t0 <= now < t0 + reactivateAfter -> ev <> EvSuccess key ->
  step now ev rl = Some rl' ->
  suspendedUntil (t0 + reactivateAfter) key rl ->
  suspendedUntil (t0 + reactivateAfter) key rl'.
Proof.
  intros Hnow Hev Hstep Hsus. destruct ev as [count|keys|k|k|k|i]; simpl in Hstep.
  - injection Hstep as <-.
    eapply suspendedUntil_sameView; [apply getAvailableKeys_sameView|done].
  - injection Hstep as <-.
    eapply suspendedUntil_sameView; [apply getStatus_sameView|done].
  - injection Hstep as <-. by apply suspendedUntil_setUsage.
  - injection Hstep as <-. unfold recordError.
    destruct Hsus as [(usage & Hu & Hact) Htimers].
    destruct (keyUsage rl !! k) as [usage'|] eqn:Hk; [|by split; eauto].
    case_bool_decide; split; simpl.
    + destruct (decide (k = key)) as [->|Hne].
      * eexists. by rewrite lookup_insert_eq.
      * exists usage. by rewrite lookup_insert_ne.
    + intros timer Hin Hkey. apply elem_of_app in Hin as [Hin|Hin]; [by apply Htimers|].
      apply list_elem_of_singleton in Hin as ->. simpl. lia.
    + destruct (decide (k = key)) as [->|Hne].
      * eexists. rewrite lookup_insert_eq. split; [done|]. simpl. congruence.
      * exists usage. by rewrite lookup_insert_ne.
    + exact Htimers.
  - injection Hstep as <-. apply suspendedUntil_setUsage; [|done].
    intros usage _ ->. done.
  - destruct (pending rl !! i) as [timer|] eqn:Hi; [|done].
    case_bool_decide as Hdue; [|done]. injection Hstep as <-.
    destruct Hsus as [(usage & Hu & Hact) Htimers].
    assert (Hne : usageOf timer <> key).
    { intros Hkey. assert (Hin : timer ∈ pending rl) by (eapply list_elem_of_lookup_2; eauto).
      specialize (Htimers timer Hin Hkey). lia. }
    split.
    + exists usage. unfold reactivate, setUsage; simpl. by rewrite lookup_alter_ne.
    + simpl. intros timer' Hin. apply Htimers.
      by eapply list_elem_of_delete_inv.
Qed.

Lemma suspendedUntil_run t0 key evs : forall rl rl',
  Forall (fun e => t0 <= e.1 < t0 + reactivateAfter /\ e.2 <> EvSuccess key) evs ->
  run evs rl = Some rl' ->
  suspendedUntil (t0 + reactivateAfter) key rl ->
  suspendedUntil (t0 + reactivateAfter) key rl'.
Proof.
  induction evs as [|[now ev] evs IH]; intros rl rl' Hall Hrun Hsus; simpl in Hrun.
  - by injection Hrun as <-.
  - apply Forall_cons in Hall as [[Hnow Hev] Hall]; simpl in *.
    destruct (step now ev rl) as [rl1|] eqn:Hstep; [|done].
    eapply IH; [exact Hall|exact Hrun|].
    eapply suspendedUntil_step; eauto.
Qed.

Lemma suspendedUntil_not_selected deadline key rl now count :
  suspendedUntil deadline key rl -> key ∉ (getAvailableKeys now count rl).1.
Proof.
  intros [(usage & Hu & Hact) _] Hin.
  apply getAvailableKeys_eligible in Hin. unfold eligible in Hin.
  rewrite Hu, Hact in Hin. done.
Qed.

(** C5, as stated, fails: a success recorded for a suspended key (the
    answer of a call that was already in flight) reinstates it at once.  Two
    seconds after the suspension the key is selected again. *)
Lemma recordSuccess_ends_suspension :
  (getAvailableKeys 2000 1 threeStrikes).1 = [] /\
  (getAvailableKeys 2000 1 (recordSuccess (u "key-A") threeStrikes)).1 = [u "key-A"] /\
  2000 < 0 + reactivateAfter.
Proof. split_and!; by vm_compute. Qed.

(** C5, amended.  When [recordError] brings a key's counter to the threshold
    at time [t0] and no older callback for the key is due earlier, the key is
    not selected at any time from then on, through every sequence of limiter
    accesses before [t0 + 300000] that records no success for it; the
    callback registered for it is due at [t0 + 300000]; and a callback for
    the key runs no earlier than it is due and leaves the key active with its
    counter at 0. *)
Theorem recordError_suspends (t0 : Z) (key : jsstring) (rl : RateLimiter)
    (usage : Usage) :
  keyUsage rl !! key = Some usage ->
  (3 <= S (consecutiveErrors usage))%nat ->
  (forall timer, timer ∈ pending rl -> usageOf timer = key ->
     t0 + 300000 <= dueAt timer) ->
  let rl1 := recordError t0 key rl in
  (forall now count, key ∉ (getAvailableKeys now count rl1).1) /\
  (forall evs rl2,
     Forall (fun e => t0 <= e.1 < t0 + 300000 /\ e.2 <> EvSuccess key) evs ->
     run evs rl1 = Some rl2 ->
     forall now count, key ∉ (getAvailableKeys now count rl2).1) /\
  mkTimer (t0 + 300000) key ∈ pending rl1 /\
  (forall now i rl2 rl3 timer,
     pending rl2 !! i = Some timer -> usageOf timer = key ->
     is_Some (keyUsage rl2 !! key) ->
     step now (EvTimer i) rl2 = Some rl3 ->
     dueAt timer <= now /\
     exists usage3, keyUsage rl3 !! key = Some usage3 /\
       isActive usage3 = true /\ consecutiveErrors usage3 = 0%nat).
Proof.
  intros Hu Hreach Htimers rl1.
  assert (Hsus : suspendedUntil (t0 + reactivateAfter) key rl1).
  { unfold rl1, recordError. rewrite Hu.
    rewrite bool_decide_eq_true_2 by exact Hreach. split; simpl.
    - eexists. by rewrite lookup_insert_eq.
    - intros timer Hin Hkey. apply elem_of_app in Hin as [Hin|Hin].
      + by apply Htimers.
      + apply list_elem_of_singleton in Hin as ->. simpl. lia. }
  split_and!.
  - intros now count. by eapply suspendedUntil_not_selected.
  - intros evs rl2 Hall Hrun now count.
    eapply suspendedUntil_not_selected.
    eapply suspendedUntil_run; [exact Hall|exact Hrun|exact Hsus].
  - unfold rl1, recordError. rewrite Hu.
    rewrite bool_decide_eq_true_2 by exact Hreach. simpl.
    apply elem_of_app. right. by apply list_elem_of_singleton.
  - intros now i rl2 rl3 timer Hi Hkey [usage2 Hu2] Hstep. simpl in Hstep.
    rewrite Hi in Hstep. case_bool_decide as Hdue; [|done].
    injection Hstep as <-. split; [done|].
    unfold reactivate, setUsage; simpl. rewrite Hkey, lookup_alter_eq, Hu2.
    by eexists.
Qed.

Lemma recordError_suspends_witness :
  keyUsage twoStrikes !! (u "key-A") = Some (mkUsage [] 0 2 true) /\
  ((u "key-A") ∉ (getAvailableKeys 5000 1 threeStrikes).1) /\
  mkTimer 300000 (u "key-A") ∈ pending threeStrikes.
Proof.
  assert (Hu : keyUsage twoStrikes !! (u "key-A") = Some (mkUsage [] 0 2 true))
    by (by vm_compute).
  assert (Hold : forall timer, timer ∈ pending twoStrikes ->
            usageOf timer = u "key-A" -> 0 + 300000 <= dueAt timer).
  { intros timer Hin. by apply elem_of_nil in Hin. }
  assert (Hreach : (3 <= S (consecutiveErrors (mkUsage [] 0 2 true)))%nat)
    by (simpl; lia).
  pose proof (recordError_suspends 0 (u "key-A") twoStrikes _ Hu Hreach Hold)
    as (Hnow & _ & Htimer & _).
  split; [exact Hu|]. split; [apply Hnow|exact Htimer].
Defined.

End LimiterFacts.

(** ** The generation service *)

Module GeminiFacts.

Import Limiter LimiterFacts JSON Js Gemini.




(** *** [makeRequest] without a usable key *)

Lemma getAvailableKeys_none now count rl :
  (forall key, key ∈ keyPool rl -> eligible now rl key = false) ->
  (getAvailableKeys now count rl).1 = [].
Proof.
  intros Hnone. destruct (getAvailableKeys_spec now count rl) as (rl' & Hget & _).
  rewrite Hget; simpl.
  destruct (sortKeys_perm now (keyPool rl) rl) as [Hperm _].
  replace (filter (fun key => eligible now rl key = true) (sortKeys now (keyPool rl) rl).1)
    with (@nil jsstring); [by rewrite take_nil|].
  symmetry. apply filter_none. intros key Hin.
  rewrite Hperm in Hin. by rewrite Hnone.
Qed.

(** C9, as stated, fails: the two conditions end in two different errors. *)
Lemma makeRequest_two_messages :
  (makeRequest offline [] (u "prompt") (u "r1") noKeys).1 = Some (Threw msgNoKeys) /\
  (makeRequest offline [u "key-A"] (u "prompt") (u "r1") busyKey).1
  = Some (Threw msgBusy) /\
  msgNoKeys <> msgBusy.
Proof. split_and!; by vm_compute. Qed.

(** C9, amended.  With no configured key [makeRequest] throws the
    configuration message and touches nothing; with configured keys none of
    which is acceptable it throws the busy message; in both cases no request
    is handed to the endpoint and no usage is recorded, and the two
    messages differ. *)
Theorem makeRequest_without_key
    (network : Z -> jsstring -> jsstring -> Z * Answer)
    (API_KEYS : list jsstring) (prompt requestId : jsstring) (w : World) :
  let r := makeRequest network API_KEYS prompt requestId w in
  (API_KEYS = [] -> r = (Some (Threw msgNoKeys), w)) /\
  (API_KEYS <> [] ->
   (forall key, key ∈ keyPool (limiter w) ->
      eligible (clock w) (limiter w) key = false) ->
   r.1 = Some (Threw msgBusy) /\ sent r.2 = sent w /\ clock r.2 = clock w /\
   sameView (clock w) (limiter w) (limiter r.2)) /\
  msgNoKeys <> msgBusy.
Proof.
  unfold makeRequest. cbv zeta. split_and!.
  - by intros ->.
  - intros Hkeys Hnone.
    rewrite bool_decide_eq_false_2 by (by destruct API_KEYS).
    pose proof (getAvailableKeys_none (clock w) 1 (limiter w) Hnone) as Hget.
    pose proof (getAvailableKeys_sameView (clock w) 1 (limiter w)) as Hs.
    destruct (getAvailableKeys (clock w) 1 (limiter w)) as [keys rl1]; simpl in *.
    subst keys. by split_and!.
  - by vm_compute.
Qed.

Lemma makeRequest_without_key_witness :
  [u "key-A"] <> [] /\
  (forall key, key ∈ keyPool (limiter busyKey) ->
     eligible (clock busyKey) (limiter busyKey) key = false) /\
  (makeRequest offline [u "key-A"] (u "prompt") (u "r1") busyKey).1
  = Some (Threw msgBusy).
Proof.
  assert (Hne : [u "key-A"] <> @nil jsstring) by done.
  assert (Hnone : forall key, key ∈ keyPool (limiter busyKey) ->
            eligible (clock busyKey) (limiter busyKey) key = false).
  { intros key Hin. apply list_elem_of_singleton in Hin as ->. by vm_compute. }
  split; [exact Hne|]. split; [exact Hnone|].
  exact (proj1 (proj1 (proj2 (makeRequest_without_key offline [u "key-A"]
                                (u "prompt") (u "r1") busyKey)) Hne Hnone)).
Defined.

Lemma ceilDiv_0 d : ceilDiv 0 d = 0%nat.
Proof.
  unfold ceilDiv. destruct d as [|d]; [done|].
  apply Nat.div_small. lia.
Qed.

Lemma ceilDiv_step n d :
  (0 < d)%nat -> (0 < n)%nat -> ceilDiv n d = S (ceilDiv (n - d) d).
Proof.
  intros Hd Hn. unfold ceilDiv. destruct (decide (d <= n)%nat) as [Hle|Hlt].
  - replace (n + d - 1)%nat with ((n - d + d - 1) + 1 * d)%nat by lia.
    rewrite Nat.div_add by lia. lia.
  - replace (n - d)%nat with 0%nat by lia.
    replace (n + d - 1)%nat with ((n - 1) + 1 * d)%nat by lia.
    rewrite Nat.div_add by lia.
    rewrite (Nat.div_small (n - 1) d) by lia.
    rewrite (Nat.div_small (0 + d - 1) d) by lia. done.
Qed.

Section Orchestrator.

Variable network : Z -> jsstring -> jsstring -> Z * Answer.

Lemma keyFor_is_Some availableKeys index :
  availableKeys <> [] -> is_Some (keyFor availableKeys index).
Proof.
  intros Hne. unfold keyFor. destruct availableKeys as [|k ks]; [done|].
  apply lookup_lt_is_Some. apply Nat.mod_upper_bound. simpl. lia.
Qed.

(** The calls of a round are handed to the endpoint in the order of the
    batch, one per item: the item at position [j] goes out with the key at
    position [index + j], counted round the selected keys, and its call ends
    as the endpoint has it for a request made when the round began. *)
Lemma startCalls_spec availableKeys batch : forall index w,
  responsive network -> availableKeys <> [] ->
  exists calls w1 new,
    startCalls network availableKeys index batch w = Some (calls, w1) /\
    sent w1 = sent w ++ new /\ new.*1 = id <$> batch /\
    clock w1 = clock w /\ length calls = length batch /\
    forall j item, batch !! j = Some item ->
      exists apiKey ms s,
        keyFor availableKeys (index + j) = Some apiKey /\
        new !! j = Some (id item, apiKey) /\
        awaitReply network (clock w) (prompt item) apiKey = Some (ms, s) /\
        calls !! j = Some (Some (mkInFlight ms apiKey s)).
Proof.
  induction batch as [|item rest IH]; intros index w Hall Hne.
  - exists [], w, []. rewrite app_nil_r. by split_and!.
  - cbn [startCalls]. unfold startCall.
    destruct (keyFor_is_Some availableKeys index Hne) as [apiKey Hkey]. rewrite Hkey.
    destruct (Hall (clock w) (prompt item) apiKey) as [[ms s] Hreply]. rewrite Hreply.
    set (w1 := {| limiter := recordRequest (clock w) apiKey (limiter w);
                  clock := clock w; sent := sent w ++ [(id item, apiKey)] |}).
    destruct (IH (S index) w1 Hall Hne)
      as (calls & w2 & new & -> & Hsent & Hids & Hclock & Hlen & Hcalls).
    exists (Some (mkInFlight ms apiKey s) :: calls), w2, ((id item, apiKey) :: new).
    split_and!.
    + done.
    + rewrite Hsent. subst w1. cbn [sent]. by rewrite <- app_assoc.
    + cbn. f_equal. exact Hids.
    + by rewrite Hclock.
    + cbn [length]. by rewrite Hlen.
    + intros [|j] item' Hj; cbn [lookup list_lookup] in *.
      * injection Hj as <-. exists apiKey, ms, s. by rewrite Nat.add_0_r.
      * destruct (Hcalls j item' Hj) as (apiKey' & ms' & s' & Hk & Hn & Hr & Hc).
        exists apiKey', ms', s'. split_and!; try done.
        by rewrite <- Nat.add_succ_comm.
Qed.

Lemma settleCalls_sent start calls : forall w,
  sent (foldl (settleCall start) w calls) = sent w.
Proof. induction calls as [|c calls IH]; intros w; simpl; [done|]. by rewrite IH. Qed.

Lemma resultOf_ids batch : forall calls,
  length calls = length batch ->
  resultId <$> zip_with resultOf batch calls = id <$> batch.
Proof.
  induction batch as [|item rest IH]; intros [|call calls] Hlen; simpl in *;
    try done.
  f_equal; [|apply IH; lia].
  unfold resultOf. destruct call as [c|]; [|done].
  by destruct (completionOf (settled c)).
Qed.

Lemma resultOf_lookup batch : forall calls j item call,
  batch !! j = Some item -> calls !! j = Some call ->
  zip_with resultOf batch calls !! j = Some (resultOf item call).
Proof.
  induction batch as [|item0 rest IH]; intros [|call0 calls] [|j] item call Hb Hc;
    simpl in *; try done.
  - by injection Hb as ->; injection Hc as ->.
  - by apply IH.
Qed.

(** One round, when every exchange with the endpoint ends. *)
Lemma dispatchBatch_spec availableKeys batch w :
  responsive network -> availableKeys <> [] ->
  exists results w1 new,
    dispatchBatch network availableKeys batch w = Some (results, w1) /\
    resultId <$> results = id <$> batch /\
    sent w1 = sent w ++ new /\ new.*1 = id <$> batch /\
    forall j item, batch !! j = Some item ->
      exists apiKey ms s,
        keyFor availableKeys j = Some apiKey /\
        new !! j = Some (id item, apiKey) /\
        awaitReply network (clock w) (prompt item) apiKey = Some (ms, s) /\
        results !! j = Some (resultOf item (Some (mkInFlight ms apiKey s))).
Proof.
  intros Hall Hne. unfold dispatchBatch.
  destruct (startCalls_spec availableKeys batch 0 w Hall Hne)
    as (calls & w1 & new & -> & Hsent & Hids & _ & Hlen & Hcalls).
  eexists _, _, new. split; [reflexivity|]. split_and!.
  - by apply resultOf_ids.
  - by rewrite settleCalls_sent.
  - done.
  - intros j item Hj.
    destruct (Hcalls j item Hj) as (apiKey & ms & s & Hk & Hn & Hr & Hc).
    exists apiKey, ms, s. split_and!; try done.
    by apply resultOf_lookup.
Qed.

(** With a positive batch size the loop ends, after [ceilDiv] of the
    remaining prompts rounds, and has dispatched each remaining prompt once. *)
Lemma batchLoop_spec availableKeys batchSize prompts :
  responsive network -> availableKeys <> [] -> (0 < batchSize)%nat ->
  forall fuel i rounds w,
    (length prompts - i <= fuel)%nat ->
    exists rounds' w' new,
      batchLoop network fuel availableKeys batchSize prompts i rounds w
      = Some (rounds ++ rounds', w') /\
      length rounds' = ceilDiv (length prompts - i) batchSize /\
      resultId <$> concat rounds' = id <$> drop i prompts /\
      sent w' = sent w ++ new /\ new.*1 = id <$> drop i prompts.
Proof.
  intros Hall Hne Hpos. induction fuel as [|fuel IH]; intros i rounds w Hfuel.
  - exists [], w, []. simpl.
    rewrite bool_decide_eq_false_2 by lia.
    replace (length prompts - i)%nat with 0%nat by lia.
    rewrite ceilDiv_0, !app_nil_r, drop_ge by lia. done.
  - simpl. case_bool_decide as Hi.
    + set (batch := take batchSize (drop i prompts)).
      destruct (dispatchBatch_spec availableKeys batch w Hall Hne)
        as (batchResults & w1 & new1 & -> & Hres & Hsent1 & Hids1 & _).
      set (w2 := if bool_decide (i + batchSize < length prompts)%nat
                 then advance 500 w1 else w1).
      assert (Hsent2 : sent w2 = sent w1) by (unfold w2; by case_bool_decide).
      destruct (IH (i + batchSize)%nat (rounds ++ [batchResults]) w2)
        as (rounds' & w' & new2 & Hloop & Hlen & Hres' & Hsent' & Hids'); [lia|].
      exists (batchResults :: rounds'), w', (new1 ++ new2). split_and!.
      * rewrite Hloop. by rewrite <- app_assoc.
      * simpl. rewrite Hlen. rewrite (ceilDiv_step (length prompts - i)) by lia.
        do 2 f_equal. lia.
      * simpl. rewrite fmap_app, Hres, Hres'. unfold batch.
        rewrite <- fmap_app. f_equal.
        rewrite <- drop_drop. apply take_drop.
      * rewrite Hsent', Hsent2, Hsent1. by rewrite app_assoc.
      * rewrite fmap_app, Hids1, Hids'. unfold batch.
        rewrite <- fmap_app. f_equal.
        rewrite <- drop_drop. apply take_drop.
    + exists [], w, [].
      replace (length prompts - i)%nat with 0%nat by lia.
      rewrite ceilDiv_0, !app_nil_r, drop_ge by lia. done.
Qed.

(** With no key to use the batch size is 0, [i] never moves, and the loop
    goes on for ever: no amount of fuel is enough. *)
Lemma batchLoop_stuck prompts fuel : forall i rounds w,
  (i < length prompts)%nat ->
  batchLoop network fuel [] 0 prompts i rounds w = None.
Proof.
  induction fuel as [|fuel IH]; intros i rounds w Hi; simpl.
  - by rewrite bool_decide_eq_true_2.
  - rewrite bool_decide_eq_true_2 by done.
    rewrite Nat.add_0_r. by apply IH.
Qed.

(** More fuel does not change a result. *)
Lemma batchLoop_mono availableKeys batchSize prompts fuel :
  forall fuel' i rounds w r,
    (fuel <= fuel')%nat ->
    batchLoop network fuel availableKeys batchSize prompts i rounds w = Some r ->
    batchLoop network fuel' availableKeys batchSize prompts i rounds w = Some r.
Proof.
  induction fuel as [|fuel IH]; intros fuel' i rounds w r Hle; simpl.
  - case_bool_decide as Hi; [done|]. intros [= <-].
    destruct fuel'; simpl; by rewrite bool_decide_eq_false_2.
  - case_bool_decide as Hi.
    + destruct fuel' as [|fuel']; [lia|]. simpl.
      rewrite (bool_decide_eq_true_2 _ Hi).
      destruct (dispatchBatch network availableKeys
                  (take batchSize (drop i prompts)) w) as [[batchResults w1]|];
        [|done].
      apply IH. lia.
    + intros [= <-]. destruct fuel'; simpl; by rewrite bool_decide_eq_false_2.
Qed.

Lemma makeParallelRequests_mono prompts w fuel fuel' r :
  (fuel <= fuel')%nat ->
  makeParallelRequests network fuel prompts w = Some r ->
  makeParallelRequests network fuel' prompts w = Some r.
Proof.
  unfold makeParallelRequests, parallelRounds. intros Hle.
  destruct (getAvailableKeys (clock w) (length prompts) (limiter w))
    as [availableKeys rl1].
  destruct (batchLoop network fuel _ _ _ _ _ _) as [[rounds w']|] eqn:Hloop; [|done].
  intros [= <-]. by rewrite (batchLoop_mono _ _ _ _ _ _ _ _ _ Hle Hloop).
Qed.

(** So a call that returns with some fuel either runs out of fuel or
    returns the same with any other. *)
Lemma makeParallelRequests_result prompts w fuel r :
  makeParallelRequests network fuel prompts w = Some r ->
  forall fuel', makeParallelRequests network fuel' prompts w = None \/
                makeParallelRequests network fuel' prompts w = Some r.
Proof.
  intros Hr fuel'.
  destruct (makeParallelRequests network fuel' prompts w) as [r'|] eqn:Hr'; [|by left].
  right. f_equal.
  pose proof (makeParallelRequests_mono prompts w fuel (fuel `max` fuel') r
                ltac:(lia) Hr) as H1.
  pose proof (makeParallelRequests_mono prompts w fuel' (fuel `max` fuel') r'
                ltac:(lia) Hr') as H2.
  congruence.
Qed.

Lemma parallelRounds_stuck prompts w fuel :
  prompts <> [] ->
  (forall key, key ∈ keyPool (limiter w) ->
     eligible (clock w) (limiter w) key = false) ->
  parallelRounds network fuel prompts w = None.
Proof.
  intros Hne Hnone. unfold parallelRounds.
  pose proof (getAvailableKeys_none (clock w) (length prompts) (limiter w) Hnone) as Hget.
  destruct (getAvailableKeys (clock w) (length prompts) (limiter w)) as [keys rl1].
  simpl in Hget. subst keys. simpl.
  apply batchLoop_stuck. destruct prompts; [done|simpl; lia].
Qed.

End Orchestrator.

Lemma getAvailableKeys_length w count :
  length (getAvailableKeys (clock w) count (limiter w)).1
  = (count `min` eligibleCount w)%nat.
Proof.
  destruct (getAvailableKeys_spec (clock w) count (limiter w)) as (rl' & Hget & _).
  rewrite Hget; simpl. rewrite length_take. unfold eligibleCount.
  destruct (sortKeys_perm (clock w) (keyPool (limiter w)) (limiter w)) as [Hperm _].
  by rewrite Hperm.
Qed.

Lemma eligibleCount_0 w :
  eligibleCount w = 0%nat ->
  forall key, key ∈ keyPool (limiter w) -> eligible (clock w) (limiter w) key = false.
Proof.
  unfold eligibleCount. intros Hnone key Hin.
  destruct (eligible (clock w) (limiter w) key) eqn:He; [|done].
  assert (Hk : key ∈ filter (fun key => eligible (clock w) (limiter w) key = true)
                      (keyPool (limiter w))) by (by apply list_elem_of_filter).
  apply nil_length_inv in Hnone. rewrite Hnone in Hk. by apply elem_of_nil in Hk.
Qed.

(** The endpoints of the examples answer every request in full. *)
Lemma responsive_samples :
  responsive offline /\ responsive forbidden /\ responsive picky /\
  forall text, responsive (answering text).
Proof.
  split_and!.
  - intros now prompt apiKey. by eexists.
  - intros now prompt apiKey. by eexists.
  - intros now prompt apiKey. unfold awaitReply, picky.
    case_bool_decide; by eexists.
  - intros text now prompt apiKey. by eexists.
Qed.

(** C1.  The code does not do what the claim says when no key is
    acceptable at selection time.  Then the batch size is
    [min(0, m) = 0], the loop index never advances and the call does not
    return, whatever the fuel: none of the [m] prompts is dispatched, where
    the claim has [m] dispatch attempts.  It is the only case in which the
    count fails while the endpoint answers: with at least one acceptable key
    and an endpoint whose exchanges all end, the call returns (fuel [m] is
    enough) after [ceil(m / min(k, e))] rounds, [k] the number of configured
    keys and [e] the number of acceptable ones; it hands exactly one request
    per prompt to the endpoint, in the order of the prompts, and returns one
    result per prompt in that order. *)
Theorem makeParallelRequests_rounds
    (network : Z -> jsstring -> jsstring -> Z * Answer)
    (prompts : list PromptItem) (w : World) :
  let k := length (keyPool (limiter w)) in
  let e := eligibleCount w in
  let m := length prompts in
  ((0 < m)%nat -> e = 0%nat ->
   forall fuel, makeParallelRequests network fuel prompts w = None) /\
  ((0 < e)%nat -> responsive network ->
   forall fuel, (m <= fuel)%nat ->
   exists rounds w' new,
     parallelRounds network fuel prompts w = Some (rounds, w') /\
     makeParallelRequests network fuel prompts w = Some (concat rounds, w') /\
     length rounds = ceilDiv m (k `min` e) /\
     sent w' = sent w ++ new /\ new.*1 = id <$> prompts /\ length new = m /\
     resultId <$> concat rounds = id <$> prompts).
Proof.
  cbv zeta. split.
  - intros Hm Hnone fuel. unfold makeParallelRequests.
    rewrite parallelRounds_stuck; [done| |by apply eligibleCount_0].
    intros ->. simpl in Hm. lia.
  - intros He Hall fuel Hfuel. unfold makeParallelRequests, parallelRounds.
    pose proof (getAvailableKeys_length w (length prompts)) as Hlen.
    destruct (getAvailableKeys (clock w) (length prompts) (limiter w))
      as [availableKeys rl1] eqn:Hget.
    simpl in Hlen.
    assert (Hke : (eligibleCount w <= length (keyPool (limiter w)))%nat)
      by apply length_filter.
    set (e := eligibleCount w) in *. set (k := length (keyPool (limiter w))) in *.
    destruct (decide (length prompts = 0)%nat) as [Hm0|Hm0].
    + apply nil_length_inv in Hm0. subst prompts.
      exists [], (withLimiter rl1 w), [].
      rewrite app_nil_r. destruct fuel; simpl; split_and!; try done;
        symmetry; apply ceilDiv_0.
    + set (m := length prompts) in *.
      destruct (batchLoop_spec network availableKeys
                  (length availableKeys `min` m) prompts) with
        (fuel := fuel) (i := 0%nat) (rounds := @nil (list RequestResult))
        (w := withLimiter rl1 w)
        as (rounds & w' & new & Hloop & Hrounds & Hres & Hsent & Hids).
      { exact Hall. }
      { intros ->. simpl in Hlen. lia. }
      { lia. }
      { fold m. lia. }
      rewrite Hloop. simpl in *. fold m in Hrounds. rewrite Nat.sub_0_r in Hrounds.
      exists rounds, w', new. split_and!; try done.
      * rewrite Hrounds, Hlen.
        replace (k `min` e)%nat with e by lia.
        destruct (decide (e <= m)%nat).
        -- by replace ((m `min` e) `min` m)%nat with e by lia.
        -- replace ((m `min` e) `min` m)%nat with m by lia.
           rewrite (ceilDiv_step m m), (ceilDiv_step m e) by lia.
           replace (m - m)%nat with 0%nat by lia.
           replace (m - e)%nat with 0%nat by lia. by rewrite !ceilDiv_0.
      * rewrite <- (length_fmap fst), Hids, length_fmap. done.
Qed.

Lemma makeParallelRequests_rounds_witness :
  (length (keyPool (limiter busyKey)) = 1%nat /\ eligibleCount busyKey = 0%nat /\
   forall fuel, makeParallelRequests offline fuel onePrompt busyKey = None) /\
  (length (keyPool (limiter twoKeysWorld)) = 2%nat /\
   eligibleCount twoKeysWorld = 2%nat /\ responsive picky /\
   exists rounds w',
     parallelRounds picky 3 threePrompts twoKeysWorld = Some (rounds, w') /\
     length rounds = 2%nat /\
     (sent w').*1 = [u "p-1"; u "p-2"; u "p-3"]).
Proof.
  assert (Hnone : eligibleCount busyKey = 0%nat) by (by vm_compute).
  assert (Hsome : eligibleCount twoKeysWorld = 2%nat) by (by vm_compute).
  assert (Hall : responsive picky) by apply responsive_samples.
  split.
  - split; [reflexivity|]. split; [exact Hnone|].
    apply (proj1 (makeParallelRequests_rounds offline onePrompt busyKey));
      [simpl; lia|exact Hnone].
  - split; [reflexivity|]. split; [exact Hsome|]. split; [exact Hall|].
    destruct (proj2 (makeParallelRequests_rounds picky threePrompts twoKeysWorld)
                ltac:(rewrite Hsome; lia) Hall 3%nat ltac:(simpl; lia))
      as (rounds & w' & new & Hrounds & _ & Hlen & Hsent & Hids & _).
    exists rounds, w'. split; [exact Hrounds|]. split.
    + rewrite Hlen, Hsome. by vm_compute.
    + rewrite Hsent. change (sent twoKeysWorld) with (@nil (jsstring * jsstring)).
      rewrite app_nil_l, Hids. reflexivity.
Defined.

(** C3.  The code does not do what the claim says when no key is
    acceptable: with no configured key and one prompt the batch size is 0,
    the loop index never advances, and the call does not return for any
    amount of fuel. *)
Theorem makeParallelRequests_never_returns
    (network : Z -> jsstring -> jsstring -> Z * Answer) (fuel : nat) :
  makeParallelRequests network fuel onePrompt noKeys = None.
Proof.
  unfold makeParallelRequests.
  rewrite parallelRounds_stuck; [done|done|].
  intros key Hin. by apply elem_of_nil in Hin.
Qed.


(** Trimming. *)

Lemma trimStart_head s c : head (trimStart s) = Some c -> isSpace c = false.
Proof.
  induction s as [|d s IH]; simpl; [done|].
  destruct (isSpace d) eqn:Hd; [exact IH|]. simpl. by intros [= <-].
Qed.

Lemma trimStart_last s d : last (trimStart s) = Some d -> last s = Some d.
Proof.
  induction s as [|c s IH]; simpl; [done|].
  destruct (isSpace c); [|done]. intros H. specialize (IH H).
  destruct s; [done|]. done.
Qed.

Lemma trimStart_id s :
  (forall c, head s = Some c -> isSpace c = false) -> trimStart s = s.
Proof. destruct s as [|c s]; [done|]. intros H. simpl. by rewrite H. Qed.

Lemma trimEnd_id s :
  (forall d, last s = Some d -> isSpace d = false) -> trimEnd s = s.
Proof.
  intros H. unfold trimEnd. rewrite trimStart_id; [apply reverse_involutive|].
  intros c Hc. apply H. by rewrite <- head_reverse.
Qed.

Lemma trim_id s :
  (forall c, head s = Some c -> isSpace c = false) ->
  (forall d, last s = Some d -> isSpace d = false) -> trim s = s.
Proof. intros Hh Hl. unfold trim. rewrite trimStart_id by done. by apply trimEnd_id. Qed.

Lemma trim_head s c : head (trim s) = Some c -> isSpace c = false.
Proof.
  unfold trim, trimEnd. rewrite head_reverse. intros H.
  apply trimStart_last in H. rewrite last_reverse in H.
  by apply trimStart_head in H.
Qed.

Lemma trim_last s d : last (trim s) = Some d -> isSpace d = false.
Proof.
  unfold trim, trimEnd. rewrite last_reverse. apply trimStart_head.
Qed.

Lemma trim_idemp s : trim (trim s) = trim s.
Proof. apply trim_id; [apply trim_head|apply trim_last]. Qed.

Lemma trimStart_elem_of s x : x ∈ trimStart s -> x ∈ s.
Proof.
  induction s as [|c s IH]; simpl; [done|].
  destruct (isSpace c); [|done]. intros H. right. by apply IH.
Qed.


(** Searching. *)

Lemma indexOf_lookup c s i : indexOf c s = Some i -> s !! i = Some c.
Proof.
  revert i. induction s as [|d s IH]; intros i; simpl; [done|].
  case_bool_decide as Hd; [by intros [= <-]; subst|].
  destruct (indexOf c s) as [j|]; simpl; [|done]. intros [= <-]. by apply IH.
Qed.

Lemma lastIndexOf_lookup c s i : lastIndexOf c s = Some i -> s !! i = Some c.
Proof.
  revert i. induction s as [|d s IH]; intros i; simpl; [done|].
  destruct (lastIndexOf c s) as [j|].
  - intros [= <-]. by apply IH.
  - case_bool_decide as Hd; [|done]. intros [= <-]. by subst.
Qed.


(** Taking the fences out. *)

Lemma removeAll_skip pattern s : forall skip,
  removeAll pattern skip s = removeAll pattern 0 (drop skip s).
Proof.
  induction s as [|c s IH]; intros [|skip]; simpl; done.
Qed.

Lemma removeAll_elem_of pattern s x : forall skip,
  x ∈ removeAll pattern skip s -> x ∈ s.
Proof.
  induction s as [|c s IH]; intros skip; simpl; [done|].
  destruct skip as [|skip].
  - destruct (isPrefix pattern (c :: s)).
    + intros H. right. by eapply IH.
    + intros H. apply elem_of_cons in H as [->|H]; [left|right; by eapply IH].
  - intros H. right. by eapply IH.
Qed.

Lemma isPrefix_fence pattern' s :
  isPrefix (fence ++ pattern') s = true -> fenceAt s = true.
Proof.
  unfold fenceAt, isPrefix. intros H. apply bool_decide_eq_true in H.
  apply bool_decide_eq_true. rewrite length_app in H.
  replace (length fence) with (length fence `min` (length fence + length pattern'))%nat
    at 1 by lia.
  rewrite <- take_take, H. by rewrite take_app_length.
Qed.

Lemma removeAll_fenceFree pattern' text tail :
  fenceFree text tail = true ->
  removeAll (fence ++ pattern') 0 (text ++ tail)
  = text ++ removeAll (fence ++ pattern') 0 tail.
Proof.
  induction text as [|c text IH]; [done|].
  cbn [fenceFree]. intros H. apply andb_true_iff in H as [Hc H].
  change ((c :: text) ++ tail) with (c :: (text ++ tail)) in *.
  cbn [removeAll].
  destruct (isPrefix (fence ++ pattern') (c :: text ++ tail)) eqn:Hp.
  - apply isPrefix_fence in Hp. by rewrite Hp in Hc.
  - simpl. f_equal. by apply IH.
Qed.

(** A text without three backticks in a row that does not end in a backtick
    has no fence starting inside it, whatever follows. *)
Lemma fenceFree_intro text tail :
  fenceFree text [] = true -> last text <> Some 96%N -> fenceFree text tail = true.
Proof.
  induction text as [|c text IH]; [done|].
  cbn [fenceFree]. intros H Hlast. apply andb_true_iff in H as [Hc H].
  apply andb_true_iff. split.
  - destruct text as [|d [|e text]].
    + unfold fenceAt, isPrefix. apply negb_true_iff, bool_decide_eq_false.
      intros Heq. simpl in Heq, Hlast. destruct tail as [|? [|? ?]]; simpl in Heq;
        try discriminate; injection Heq as -> _; done.
    + unfold fenceAt, isPrefix. apply negb_true_iff, bool_decide_eq_false.
      intros Heq. simpl in Heq, Hlast. destruct tail; simpl in Heq;
        try discriminate; injection Heq as _ -> _; done.
    + rewrite app_nil_r in Hc. exact Hc.
  - apply IH; [done|]. destruct text; [done|]. exact Hlast.
Qed.

Lemma removeAll_at_match pattern rest :
  pattern <> [] -> head rest <> Some 10%N ->
  removeAll pattern 0 (pattern ++ rest) = removeAll pattern 0 rest.
Proof.
  intros Hne Hrest. destruct pattern as [|c pattern]; [done|].
  change ((c :: pattern) ++ rest) with (c :: (pattern ++ rest)).
  cbn [removeAll].
  assert (Hp : isPrefix (c :: pattern) (c :: pattern ++ rest) = true).
  { apply bool_decide_eq_true.
    change (c :: pattern ++ rest) with ((c :: pattern) ++ rest).
    apply take_app_length. }
  rewrite Hp. rewrite bool_decide_eq_false_2.
  - rewrite removeAll_skip. simpl. rewrite Nat.sub_0_r.
    by rewrite drop_app_length.
  - change (c :: pattern ++ rest) with ((c :: pattern) ++ rest).
    rewrite lookup_app_r by lia. rewrite Nat.sub_diag.
    by destruct rest.
Qed.


Lemma removeAll_no_fence pattern' s :
  fenceFree s [] = true -> removeAll (fence ++ pattern') 0 s = s.
Proof.
  intros H. rewrite <- (app_nil_r s) at 1.
  rewrite removeAll_fenceFree by done. simpl. by rewrite app_nil_r.
Qed.


Lemma lastIndexOf_snoc c s : lastIndexOf c (s ++ [c]) = Some (length s).
Proof.
  induction s as [|d s IH]; simpl.
  - by rewrite bool_decide_eq_true_2.
  - by rewrite IH.
Qed.







(** The entry keeps the chapter, whatever became of its request. *)
Lemma detailedChapterOf_chapter batchResults c :
  chapter (detailedChapterOf batchResults c) = c.
Proof. unfold detailedChapterOf. by repeat case_match. Qed.

Lemma detailedChapterOf_chapters batchResults (batch : list Chapter) :
  chapter <$> (detailedChapterOf batchResults <$> batch) = batch.
Proof.
  induction batch as [|c batch IH]; [done|].
  rewrite !fmap_cons, detailedChapterOf_chapter. by f_equal.
Qed.

Section Course.

Variable network : Z -> jsstring -> jsstring -> Z * Answer.
Variable API_KEYS : list jsstring.

(** The prompt built for a chapter of a roadmap on a subject (a fixed
    template filled with the chapter's fields), and [toISOString] of a time. *)
Variable chapterPrompt : Chapter -> jsstring -> jsstring.
Variable toISOString : Z -> jsstring.

(** Whenever the loop ends, it has pushed one entry per chapter, in order. *)
Lemma courseLoop_chapters roadmap batchSize allChapters fuel :
  forall i detailedChapters w detailed' w',
    courseLoop network chapterPrompt fuel roadmap batchSize allChapters i detailedChapters w
    = Some (detailed', w') ->
    chapter <$> detailed' = (chapter <$> detailedChapters) ++ drop i allChapters.
Proof.
  induction fuel as [|fuel IH]; intros i detailedChapters w detailed' w'; simpl.
  - case_bool_decide; [done|]. intros [= <- <-].
    by rewrite drop_ge, app_nil_r by lia.
  - case_bool_decide.
    + destruct (makeParallelRequests network fuel _ w) as [[batchResults w1]|];
        [|done].
      intros Hloop. apply IH in Hloop. rewrite Hloop.
      rewrite fmap_app, <- app_assoc. f_equal.
      rewrite detailedChapterOf_chapters.
      rewrite <- drop_drop. apply take_drop.
    + intros [= <- <-]. by rewrite drop_ge, app_nil_r by lia.
Qed.

(** With a batch size of 0 the index never moves: the loop does not end. *)
Lemma courseLoop_stuck roadmap allChapters fuel : forall i detailedChapters w,
  (i < length allChapters)%nat ->
  courseLoop network chapterPrompt fuel roadmap 0 allChapters i detailedChapters w = None.
Proof.
  induction fuel as [|fuel IH]; intros i detailedChapters w Hi; simpl.
  - by rewrite bool_decide_eq_true_2.
  - rewrite bool_decide_eq_true_2 by done.
    destruct (makeParallelRequests network fuel _ w) as [[batchResults w1]|];
      [|done].
    rewrite Nat.add_0_r. by apply IH.
Qed.

Lemma generateDetailedCourse_stuck fuel roadmap w :
  default [] (chapters roadmap) <> [] ->
  activeKeys (getStatus (clock w) API_KEYS (limiter w)).1 = 0%nat ->
  generateDetailedCourse network API_KEYS chapterPrompt toISOString fuel roadmap w = None.
Proof.
  intros Hne Hactive. unfold generateDetailedCourse.
  destruct (getStatus (clock w) API_KEYS (limiter w)) as [status rl1].
  simpl in Hactive. rewrite Hactive. simpl.
  rewrite courseLoop_stuck; [done|].
  destruct (default [] (chapters roadmap)); [done|simpl; lia].
Qed.

Lemma courseLoop_hangs roadmap batchSize allChapters i w :
  Hangs network chapterPrompt roadmap batchSize allChapters i w ->
  forall fuel detailedChapters,
    courseLoop network chapterPrompt fuel roadmap batchSize allChapters i detailedChapters w = None.
Proof.
  induction 1 as [i w Hi Hstuck|i w fuel0 batchResults w1 Hi Hcall Hnext IH];
    intros fuel detailedChapters; destruct fuel as [|fuel]; simpl;
    rewrite (bool_decide_eq_true_2 _ Hi); try done.
  - by rewrite Hstuck.
  - destruct (makeParallelRequests_result network _ _ _ _ Hcall fuel) as [->| ->];
      [done|apply IH].
Qed.

End Course.

(** For a roadmap with one chapter and one configured key that is still
    inside its minimum interval, the batch size is 0 and
    [generateDetailedCourse] does not return, for any endpoint and any
    amount of fuel. *)
Lemma generateDetailedCourse_never_returns
    (network : Z -> jsstring -> jsstring -> Z * Answer)
    (chapterPrompt : Chapter -> jsstring -> jsstring)
    (toISOString : Z -> jsstring) (fuel : nat) :
  generateDetailedCourse network [u "key-A"] chapterPrompt toISOString fuel
    shortRoadmap busyKey = None.
Proof. apply generateDetailedCourse_stuck; [done|by vm_compute]. Qed.

(** One round of the loop on [longRoadmap] with one key: the call for the
    chapter at the current index returns with fuel 1, and its result and
    world are computed. *)
Ltac oneRound chapterPrompt :=
  match goal with
  | |- Hangs _ _ _ _ _ ?i ?w =>
      let H := fresh "Hcall" in
      destruct (makeParallelRequests forbidden 1
                  ((fun chapter => mkPrompt (chapterPrompt chapter (subject longRoadmap))
                                            (promptId chapter))
                     <$> take 1 (drop i (numbered <$> [1; 2; 3; 4]))) w)
        as [[batchResults w1]|] eqn:H;
      [apply (hangs_later forbidden chapterPrompt longRoadmap 1
                (numbered <$> [1; 2; 3; 4]) i w 1 batchResults w1);
       [simpl; lia|exact H|];
       vm_compute in H; injection H as <- <-
      |vm_compute in H; discriminate]
  end.

(** C7.  The code does not do what the claim says once the failures
    suspend the last usable key.  With one configured key and an endpoint
    that answers every request with status 403, the first three chapters of
    a four-chapter roadmap fail one after the other, the third failure
    suspends the key, and the call for the fourth chapter finds no key: its
    batch size is 0 and it never returns.  [generateDetailedCourse] returns
    for no amount of fuel, whatever the prompts; no course with [null]
    chapters is produced. *)
Theorem generateDetailedCourse_hangs_after_failures
    (chapterPrompt : Chapter -> jsstring -> jsstring)
    (toISOString : Z -> jsstring) (fuel : nat) :
  generateDetailedCourse forbidden [u "key-A"] chapterPrompt toISOString fuel
    longRoadmap oneKey = None.
Proof.
  unfold generateDetailedCourse.
  destruct (getStatus (clock oneKey) [u "key-A"] (limiter oneKey))
    as [status rl1] eqn:Hstatus.
  vm_compute in Hstatus. injection Hstatus as <- <-.
  cbn [activeKeys]. change (3 `min` 1)%nat with 1%nat.
  rewrite (courseLoop_hangs forbidden chapterPrompt longRoadmap 1); [done|].
  cbn [default chapters longRoadmap]. unfold Datatypes.id.
  oneRound chapterPrompt. oneRound chapterPrompt. oneRound chapterPrompt.
  apply hangs_here; [simpl; lia|]. intros fuel'.
  unfold makeParallelRequests. rewrite parallelRounds_stuck; [done|done|].
  intros key Hin. apply list_elem_of_singleton in Hin as ->. by vm_compute.
Qed.

End GeminiFacts.

(** ** Persistence with a local fallback *)

Module UserServiceFacts.

Import JSON Js UserService.






End UserServiceFacts.

(** ** The [roadmaps] table *)

Module StoreFacts.

Import JSON Store.

Lemma insert_inr session row db db' :
  insert session row db = inr db' ->
  db' = {| users := users db; roadmaps := roadmaps db ++ [row] |} /\
  referencesUser db row = true /\ ~ Exists (conflicts row) (roadmaps db).
Proof.
  unfold insert. destruct (insertPolicy session db row); simpl; [|done].
  case_bool_decide; [done|].
  destruct (referencesUser db row); simpl; [|done].
  case_bool_decide; [done|]. by intros [= <-].
Qed.

Lemma execute_users db stmt : users (execute db stmt) = users db.
Proof.
  unfold execute. destruct (insert stmt.1 stmt.2 db) as [v|db'] eqn:Hi; [done|].
  by apply insert_inr in Hi as (-> & _).
Qed.

Lemma execute_invariant db stmt :
  uniquePairs db /\ ownersExist db ->
  uniquePairs (execute db stmt) /\ ownersExist (execute db stmt).
Proof.
  intros [Huniq Hown]. unfold execute.
  destruct (insert stmt.1 stmt.2 db) as [v|db'] eqn:Hi; [done|].
  apply insert_inr in Hi as (-> & Hfk & Hfree). split.
  - unfold uniquePairs in *. simpl. rewrite omap_app. simpl.
    destruct (indexKey stmt.2) as [key|] eqn:Hkey; [|by rewrite app_nil_r].
    apply NoDup_app. split; [done|]. split; [|apply NoDup_singleton].
    intros key' Hin Hnew. apply list_elem_of_singleton in Hnew as ->.
    apply Hfree. apply list_elem_of_omap in Hin as (other & Hother & Hk).
    apply Exists_exists. exists other. split; [done|].
    unfold conflicts. by rewrite Hkey.
  - unfold ownersExist in *. simpl. apply Forall_app. split; [done|].
    by apply Forall_singleton.
Qed.

Lemma insertAll_invariant stmts : forall db,
  uniquePairs db /\ ownersExist db ->
  uniquePairs (insertAll stmts db) /\ ownersExist (insertAll stmts db).
Proof.
  induction stmts as [|stmt stmts IH]; intros db Hinv; [done|].
  simpl. apply IH. by apply execute_invariant.
Qed.

Lemma NoDup_omap_count {A K} `{EqDecision K} (f : A -> option K) (l : list A) key :
  NoDup (omap f l) -> (length (filter (fun x => f x = Some key) l) <= 1)%nat.
Proof.
  induction l as [|x l IH]; simpl; [lia|]. intros Hnd.
  rewrite filter_cons. destruct (f x) as [k|] eqn:Hx.
  - apply NoDup_cons in Hnd as [Hnotin Hnd]. specialize (IH Hnd).
    case_decide as Hk; [|done]. injection Hk as ->. simpl.
    assert (Hnone : filter (fun y => f y = Some key) l = []).
    { apply LimiterFacts.filter_none. intros y Hy Hfy. apply Hnotin.
      apply list_elem_of_omap. eauto. }
    rewrite Hnone. simpl. lia.
  - rewrite decide_False by done. by apply IH.
Qed.

(** C10.  After any sequence of [INSERT] statements on the table as the
    migration creates it, by any sessions, at most one row holds a given
    user and roadmap identifier; and an [INSERT] of a row whose user and
    roadmap identifier are those of a stored row fails: on the unique index
    when nothing else stops it (the policy passes and the [id] is new).  The
    statement itself decides; no caller has to look for the pair first. *)
Theorem roadmap_pairs_unique (users0 : list User) (stmts : list (Session * Roadmap)) :
  let db := insertAll stmts {| users := users0; roadmaps := [] |} in
  (forall owner rid,
     (length (filter (fun row => indexKey row = Some (owner, rid)) (roadmaps db))
      <= 1)%nat) /\
  (forall session row other,
     other ∈ roadmaps db -> is_Some (user_id row) ->
     user_id other = user_id row -> roadmap_id other = roadmap_id row ->
     (exists violation, insert session row db = inl violation) /\
     (insertPolicy session db row = true -> id row ∉ id <$> roadmaps db ->
      insert session row db = inl UniqueUserRoadmap)).
Proof.
  intros db.
  destruct (insertAll_invariant stmts {| users := users0; roadmaps := [] |})
    as [Huniq Hown].
  { split; [apply NoDup_nil_2|apply Forall_nil_2]. }
  fold db in Huniq, Hown. split.
  - intros owner rid. by apply NoDup_omap_count.
  - intros session row other Hin [owner Howner] Huser Hrid.
    assert (Hconf : Exists (conflicts row) (roadmaps db)).
    { apply Exists_exists. exists other. split; [done|].
      unfold conflicts, indexKey. rewrite Huser, Howner, Hrid. done. }
    assert (Hfk : referencesUser db row = true).
    { unfold ownersExist in Hown. rewrite Forall_forall in Hown.
      specialize (Hown other Hin). unfold referencesUser in *.
      by rewrite <- Huser. }
    split.
    + destruct (insert session row db) as [v|db'] eqn:Hi; [eauto|].
      apply insert_inr in Hi as (_ & _ & Hfree). done.
    + intros Hpolicy Hid. unfold insert. rewrite Hpolicy, Hfk. simpl.
      rewrite bool_decide_eq_false_2 by done.
      by rewrite bool_decide_eq_true_2.
Qed.

Lemma roadmap_pairs_unique_witness :
  pythonRoadmap 10 ∈ roadmaps afterFirstSave /\
  insertPolicy (Authenticated (u "clerk-ada")) afterFirstSave (pythonRoadmap 11) = true /\
  (11 ∉ id <$> roadmaps afterFirstSave) /\
  insert (Authenticated (u "clerk-ada")) (pythonRoadmap 11) afterFirstSave
  = inl UniqueUserRoadmap.
Proof.
  assert (Hin : pythonRoadmap 10 ∈ roadmaps afterFirstSave)
    by (vm_compute; left).
  assert (Hpolicy : insertPolicy (Authenticated (u "clerk-ada")) afterFirstSave
                      (pythonRoadmap 11) = true) by (by vm_compute).
  assert (Hid : 11 ∉ id <$> roadmaps afterFirstSave).
  { vm_compute. intros H. apply list_elem_of_singleton in H. done. }
  split; [exact Hin|]. split; [exact Hpolicy|]. split; [exact Hid|].
  exact (proj2 (proj2 (roadmap_pairs_unique [ada]
                  [(Authenticated (u "clerk-ada"), pythonRoadmap 10)])
                  (Authenticated (u "clerk-ada")) (pythonRoadmap 11) (pythonRoadmap 10)
                  Hin (ltac:(by eexists)) eq_refl eq_refl) Hpolicy Hid).
Defined.

End StoreFacts.

(** ** The limiter's quota and its observers *)

Module QuotaFacts.

Import Limiter LimiterFacts.

Lemma sameView_sym now rl rl' : sameView now rl rl' -> sameView now rl' rl.
Proof. intros (Hp & Ht & Hv). by split_and!. Qed.

Lemma inWindow_later now now' l :
  now <= now' -> inWindow now' (inWindow now l) = inWindow now' l.
Proof.
  intros Hle. unfold inWindow, timeWindow. induction l as [|t l IH]; [done|].
  rewrite !filter_cons. destruct (decide (now - t < 60000)) as [Ht|Ht].
  - rewrite filter_cons. case_decide; by rewrite IH.
  - rewrite decide_False by lia. exact IH.
Qed.

(** Records that agree on the window of [now] agree on every later one. *)
Lemma sameView_later now now' rl rl' :
  now <= now' -> sameView now rl rl' -> sameView now' rl rl'.
Proof.
  intros Hle (Hp & Ht & Hv). split_and!; try done. intros key.
  specialize (Hv key). unfold view in *.
  destruct (keyUsage rl' !! key) as [v'|], (keyUsage rl !! key) as [v|];
    simpl in *; try done.
  injection Hv as Hr Hl He Ha. f_equal. unfold clean. f_equal; try done.
  by rewrite <- (inWindow_later now now' (requests v')),
             <- (inWindow_later now now' (requests v)), Hr.
Qed.

Lemma compareKeys_fst now a b rl :
  (compareKeys now a b rl).1 =
  if bool_decide (is_Some (keyUsage rl !! a) /\ is_Some (keyUsage rl !! b))
  then Z.of_nat (windowCount now rl a) - Z.of_nat (windowCount now rl b)
  else 0.
Proof.
  case_bool_decide as H.
  - destruct H as [Ha Hb].
    destruct (compareKeys_spec now a b rl Ha Hb) as (rl' & -> & _). done.
  - unfold compareKeys.
    destruct (keyUsage rl !! a) eqn:Ha, (keyUsage rl !! b) eqn:Hb; try done.
    exfalso. apply H. split; eauto.
Qed.

Lemma compareKeys_fst_sameView now a b rl rl' :
  sameView now rl rl' -> (compareKeys now a b rl').1 = (compareKeys now a b rl).1.
Proof.
  intros Hs. rewrite !compareKeys_fst.
  rewrite !(sameView_windowCount now rl rl') by done.
  pose proof (sameView_is_Some now rl rl' a Hs).
  pose proof (sameView_is_Some now rl rl' b Hs).
  repeat case_bool_decide; try done; tauto.
Qed.

Lemma insertKey_fst_sameView now x sorted : forall rl rl',
  sameView now rl rl' -> (insertKey now x sorted rl').1 = (insertKey now x sorted rl).1.
Proof.
  induction sorted as [|y ys IH]; intros rl rl' Hs; simpl; [done|].
  pose proof (compareKeys_fst_sameView now y x rl rl' Hs) as Hc.
  pose proof (compareKeys_sameView now y x rl) as H1.
  pose proof (compareKeys_sameView now y x rl') as H2.
  destruct (compareKeys now y x rl) as [c rl1], (compareKeys now y x rl') as [c' rl1'].
  simpl in *. subst c'. case_bool_decide; [|done].
  assert (Hs1 : sameView now rl1 rl1').
  { eapply sameView_trans; [apply sameView_sym, H1|].
    eapply sameView_trans; [exact Hs|exact H2]. }
  specialize (IH rl1 rl1' Hs1).
  destruct (insertKey now x ys rl1), (insertKey now x ys rl1'); simpl in *.
  by rewrite IH.
Qed.

Lemma sortKeys_fst_sameView now keys rl rl' :
  sameView now rl rl' -> (sortKeys now keys rl').1 = (sortKeys now keys rl).1.
Proof.
  unfold sortKeys. generalize (@nil jsstring). revert rl rl'.
  induction keys as [|x keys IH]; intros rl rl' acc Hs; simpl; [done|].
  pose proof (insertKey_fst_sameView now x acc rl rl' Hs) as Hf.
  destruct (insertKey_perm now x acc rl) as [_ H1].
  destruct (insertKey_perm now x acc rl') as [_ H2].
  destruct (insertKey now x acc rl) as [r rl1], (insertKey now x acc rl') as [r' rl1'].
  simpl in *. subst r'. apply IH.
  eapply sameView_trans; [apply sameView_sym, H1|].
  eapply sameView_trans; [exact Hs|exact H2].
Qed.

(** The keys a selection returns depend on the records only through their
    cleaned form. *)
Lemma getAvailableKeys_fst_sameView now count rl rl' :
  sameView now rl rl' ->
  (getAvailableKeys now count rl').1 = (getAvailableKeys now count rl).1.
Proof.
  intros Hs.
  destruct (getAvailableKeys_spec now count rl) as (r1 & -> & _).
  destruct (getAvailableKeys_spec now count rl') as (r2 & -> & _). simpl.
  destruct Hs as (Hp & Ht & Hv). rewrite Hp.
  rewrite (sortKeys_fst_sameView now (keyPool rl) rl rl') by by split_and!.
  f_equal. apply list_filter_iff. intros key.
  by rewrite (sameView_eligible now rl rl' key) by by split_and!.
Qed.

(** One entry of [keyStatuses], read off the records. *)
Lemma keyStatus_fst now key rl :
  (keyStatus now key rl).1
  = mkKeyStatus (lastEight key) (windowCount now rl key) (eligible now rl key)
      (from_option consecutiveErrors 0%nat (keyUsage rl !! key)).
Proof.
  unfold keyStatus, windowCount, eligible.
  destruct (keyUsage rl !! key) as [usage|]; simpl; [|done].
  by rewrite andb_comm.
Qed.

Lemma keyStatus_sameView now key rl : sameView now rl (keyStatus now key rl).2.
Proof.
  unfold keyStatus. destruct (keyUsage rl !! key); simpl.
  - apply sameView_setUsage_clean.
  - apply sameView_refl.
Qed.

Lemma sameView_errors now rl rl' key :
  sameView now rl rl' ->
  from_option consecutiveErrors 0%nat (keyUsage rl' !! key)
  = from_option consecutiveErrors 0%nat (keyUsage rl !! key).
Proof.
  intros (_ & _ & Hv). specialize (Hv key). unfold view in Hv.
  destruct (keyUsage rl' !! key), (keyUsage rl !! key); simpl in *; try done.
  by injection Hv.
Qed.

Lemma mapKeyStatus_fst now keys : forall rl,
  (mapKeyStatus now keys rl).1 = (fun key => (keyStatus now key rl).1) <$> keys.
Proof.
  induction keys as [|key keys IH]; intros rl; simpl; [done|].
  pose proof (keyStatus_sameView now key rl) as Hs.
  destruct (keyStatus now key rl) as [s rl1] eqn:Hk. simpl in Hs.
  specialize (IH rl1). destruct (mapKeyStatus now keys rl1) as [ss rl2].
  simpl in *. f_equal. rewrite IH. apply list_fmap_ext. intros _ k _.
  rewrite !keyStatus_fst.
  by rewrite (sameView_windowCount now rl rl1), (sameView_eligible now rl rl1),
             (sameView_errors now rl rl1).
Qed.

Lemma foldl_remaining (statuses : list KeyStatus) : forall acc,
  foldl (fun sum k => (sum + (maxRequestsPerKey - ks_requests k))%nat) acc statuses
  = (acc + sum_list ((fun k => (maxRequestsPerKey - ks_requests k)%nat) <$> statuses))%nat.
Proof.
  induction statuses as [|s ss IH]; intros acc; [simpl; lia|].
  rewrite fmap_cons. cbn [foldl sum_list_with]. rewrite IH.
  change (id ?n) with n. lia.
Qed.

(** [getStatus] in terms of the records: which keys it counts as active and
    what it adds up as remaining. *)
Lemma getStatus_fst now API_KEYS rl :
  let active := length (filter (fun key => eligible now rl key = true) API_KEYS) in
  (getStatus now API_KEYS rl).1 =
  {| canMakeRequest := bool_decide (0 < active)%nat;
     waitTime := if bool_decide (0 < active)%nat then 0 else minInterval;
     requestsRemaining :=
       sum_list ((fun key => (maxRequestsPerKey - windowCount now rl key)%nat)
                 <$> API_KEYS);
     activeKeys := active;
     keyStatuses := (fun key => (keyStatus now key rl).1) <$> API_KEYS |}.
Proof.
  intros active. unfold getStatus.
  pose proof (mapKeyStatus_fst now API_KEYS rl) as Hm.
  destruct (mapKeyStatus now API_KEYS rl) as [statuses rl1]. simpl in *.
  assert (Ha : length (filter (fun k => ks_available k = true) statuses) = active).
  { subst statuses active. clear. induction API_KEYS as [|key keys IH]; [done|].
    rewrite fmap_cons, !filter_cons, keyStatus_fst. simpl.
    destruct (decide (eligible now rl key = true)); simpl; by rewrite IH. }
  rewrite Ha, foldl_remaining. f_equal; [|by subst].
  subst statuses. rewrite <- list_fmap_compose. simpl. f_equal.
  apply list_fmap_ext. intros _ key _. simpl. by rewrite keyStatus_fst.
Qed.

Lemma getStatus_fst_sameView now API_KEYS rl rl' :
  sameView now rl rl' -> (getStatus now API_KEYS rl').1 = (getStatus now API_KEYS rl).1.
Proof.
  intros Hs. rewrite !getStatus_fst. cbv zeta.
  assert (Hf : filter (fun key => eligible now rl' key = true) API_KEYS
               = filter (fun key => eligible now rl key = true) API_KEYS).
  { apply list_filter_iff. intros key. by rewrite (sameView_eligible now rl rl'). }
  rewrite Hf. f_equal.
  - f_equal. apply list_fmap_ext. intros _ key _.
    by rewrite (sameView_windowCount now rl rl').
  - apply list_fmap_ext. intros _ key _. rewrite !keyStatus_fst.
    by rewrite (sameView_windowCount now rl rl'), (sameView_eligible now rl rl'),
               (sameView_errors now rl rl').
Qed.

Lemma eligibleKeys_perm now rl :
  filter (fun key => eligible now rl key = true) (sortKeys now (keyPool rl) rl).1
  ≡ₚ filter (fun key => eligible now rl key = true) (keyPool rl).
Proof. destruct (sortKeys_perm now (keyPool rl) rl) as [Hp _]. by rewrite Hp. Qed.

Lemma getAvailableKeys_count now count rl :
  length (getAvailableKeys now count rl).1
  = (count `min` length (filter (fun key => eligible now rl key = true)
                                (keyPool rl)))%nat.
Proof.
  destruct (getAvailableKeys_spec now count rl) as (rl' & -> & _). simpl.
  rewrite length_take. by rewrite (eligibleKeys_perm now rl).
Qed.

Lemma getAvailableKeys_sublist now count rl :
  exists sorted,
    sorted ≡ₚ filter (fun key => eligible now rl key = true) (keyPool rl) /\
    (getAvailableKeys now count rl).1 = take count sorted.
Proof.
  destruct (getAvailableKeys_spec now count rl) as (rl' & -> & _). simpl.
  eexists. split; [apply eligibleKeys_perm|done].
Qed.

Lemma getAvailableKeys_NoDup now count rl :
  NoDup (keyPool rl) -> NoDup (getAvailableKeys now count rl).1.
Proof.
  intros Hnd. destruct (getAvailableKeys_sublist now count rl) as (sorted & Hp & ->).
  apply (sublist_NoDup _ sorted); [|apply sublist_take].
  rewrite Hp. by apply NoDup_filter.
Qed.

(** X1.  [getAvailableKeys(count)] returns as many keys as it can: [count] of
    them, or every key of the pool that passes its tests when these are
    fewer; each returned key is one of those, as often as the pool lists it,
    and a pool without repetition gives a result without repetition. *)
Theorem getAvailableKeys_complete (now : Z) (count : nat) (rl : RateLimiter) :
  let keys := (getAvailableKeys now count rl).1 in
  let candidates := filter (fun key => eligible now rl key = true) (keyPool rl) in
  length keys = (count `min` length candidates)%nat /\
  keys ⊆+ candidates /\
  ((length candidates <= count)%nat -> keys ≡ₚ candidates) /\
  (NoDup (keyPool rl) -> NoDup keys).
Proof.
  intros keys candidates. subst keys.
  destruct (getAvailableKeys_sublist now count rl) as (sorted & Hp & Hkeys).
  fold candidates in Hp. split_and!.
  - apply getAvailableKeys_count.
  - rewrite Hkeys, <- Hp. apply sublist_submseteq, sublist_take.
  - intros Hle. rewrite Hkeys, take_ge; [done|]. by rewrite Hp.
  - apply getAvailableKeys_NoDup.
Qed.

(** X2.  [getAvailableKeys] and [getStatus] only observe.  What they write
    (the cleaned [requests]) changes the outcome of no call made at the same
    time or later: the keys selected and the status reported are those of
    the limiter they were called on; the pool and the pending reactivations
    are left as they are. *)
Theorem observers_leave_no_trace (now now' : Z) (count : nat)
    (API_KEYS : list jsstring) (rl rl1 : RateLimiter) :
  now <= now' ->
  rl1 = (getAvailableKeys now count rl).2 \/ rl1 = (getStatus now API_KEYS rl).2 ->
  (forall count',
     (getAvailableKeys now' count' rl1).1 = (getAvailableKeys now' count' rl).1) /\
  (forall keys, (getStatus now' keys rl1).1 = (getStatus now' keys rl).1) /\
  keyPool rl1 = keyPool rl /\ pending rl1 = pending rl.
Proof.
  intros Hle Hrl1.
  assert (Hs : sameView now rl rl1).
  { destruct Hrl1 as [->| ->];
      [apply getAvailableKeys_sameView|apply getStatus_sameView]. }
  pose proof (sameView_later now now' rl rl1 Hle Hs) as Hs'.
  split_and!.
  - intros count'. by apply getAvailableKeys_fst_sameView.
  - intros keys. by apply getStatus_fst_sameView.
  - by destruct Hs as (? & _).
  - by destruct Hs as (_ & ? & _).
Qed.

Lemma observers_leave_no_trace_witness :
  5000 <= 70000 /\
  (getAvailableKeys 70000 2 (getStatus 5000 [u "key-A"; u "key-B"] twoKeys).2).1
  = (getAvailableKeys 70000 2 twoKeys).1.
Proof.
  split; [lia|].
  exact (proj1 (observers_leave_no_trace 5000 70000 1 [u "key-A"; u "key-B"] twoKeys
                  _ ltac:(lia) (or_intror eq_refl)) 2%nat).
Defined.

Lemma inWindow_snoc now requests time :
  inWindow now (requests ++ [time])
  = inWindow now requests ++ (if decide (now - time < timeWindow) then [time] else []).
Proof. unfold inWindow. rewrite filter_app. f_equal. Qed.

Lemma windowCount_recordRequest now now' key rl other :
  is_Some (keyUsage rl !! key) ->
  windowCount now' (recordRequest now key rl) other
  = if bool_decide (other = key /\ now' - now < 60000)
    then S (windowCount now' rl other) else windowCount now' rl other.
Proof.
  intros [usage Hu]. unfold windowCount, recordRequest, setUsage; simpl.
  destruct (decide (other = key)) as [->|Hne].
  - rewrite lookup_alter_eq, Hu. simpl. rewrite inWindow_snoc. unfold timeWindow.
    case_bool_decide as H.
    + rewrite decide_True by tauto. rewrite length_app. simpl. lia.
    + rewrite decide_False by tauto. by rewrite app_nil_r.
  - rewrite lookup_alter_ne by done. rewrite bool_decide_eq_false_2 by tauto. done.
Qed.

(** X3.  What [recordRequest] changes for the selection.  A key that has a
    record is not selected again before [minInterval] has passed; the
    request counts against the key's quota for the next [timeWindow]
    milliseconds and no longer; no other key is affected. *)
Theorem recordRequest_effect (now now' : Z) (key : jsstring) (rl : RateLimiter) :
  is_Some (keyUsage rl !! key) ->
  let rl1 := recordRequest now key rl in
  (now' - now < 1000 -> forall count, key ∉ (getAvailableKeys now' count rl1).1) /\
  (now' - now < 60000 -> windowCount now' rl1 key = S (windowCount now' rl key)) /\
  (60000 <= now' - now -> windowCount now' rl1 key = windowCount now' rl key) /\
  (forall other, other <> key ->
     windowCount now' rl1 other = windowCount now' rl other /\
     eligible now' rl1 other = eligible now' rl other).
Proof.
  intros [usage Hu] rl1. subst rl1. unfold recordRequest.
  split_and!.
  - intros Hsoon count Hin. apply getAvailableKeys_eligible in Hin.
    unfold eligible, setUsage in Hin; simpl in Hin.
    rewrite lookup_alter_eq, Hu in Hin. simpl in Hin.
    unfold canUseKey, minInterval in Hin; simpl in Hin.
    rewrite (bool_decide_eq_false_2 (1000 <= now' - now)) in Hin by lia.
    by rewrite andb_false_r, andb_false_l, andb_false_r in Hin.
  - intros Hin. fold (recordRequest now key rl).
    rewrite windowCount_recordRequest by eauto.
    by rewrite bool_decide_eq_true_2.
  - intros Hout. fold (recordRequest now key rl).
    rewrite windowCount_recordRequest by eauto.
    rewrite bool_decide_eq_false_2; [done|lia].
  - intros other Hne. unfold windowCount, eligible, setUsage; simpl.
    by rewrite lookup_alter_ne.
Qed.

Lemma recordRequest_effect_witness :
  is_Some (keyUsage (new [u "key-A"; u "key-B"]) !! (u "key-A")) /\
  ((u "key-A") ∉ (getAvailableKeys 500 2 twoKeys).1) /\
  windowCount 5000 twoKeys (u "key-A") = 1%nat /\
  windowCount 60000 twoKeys (u "key-A") = 0%nat.
Proof.
  assert (Hsome : is_Some (keyUsage (new [u "key-A"; u "key-B"]) !! (u "key-A")))
    by (by vm_compute; eexists).
  destruct (recordRequest_effect 0 500 (u "key-A") _ Hsome) as (Hsoon & _).
  destruct (recordRequest_effect 0 5000 (u "key-A") _ Hsome) as (_ & Hin & _).
  destruct (recordRequest_effect 0 60000 (u "key-A") _ Hsome) as (_ & _ & Hout & _).
  split; [exact Hsome|]. split; [apply Hsoon; lia|].
  split; [exact (Hin ltac:(lia))|exact (Hout ltac:(lia))].
Defined.

Lemma sum_list_bound {A} (f : A -> nat) (n : nat) (l : list A) :
  (forall x, f x <= n)%nat -> (sum_list (f <$> l) <= n * length l)%nat.
Proof.
  intros Hf. induction l as [|x l IH]; [simpl; lia|].
  rewrite fmap_cons. cbn [sum_list_with length]. rewrite Nat.mul_succ_r.
  specialize (Hf x). change (id (f x)) with (f x). lia.
Qed.

(** X4.  [getStatus] reports what [getAvailableKeys] would do.  The keys it
    reads are those the constructor put into the pool, so [activeKeys] is the
    number of keys a selection of the whole pool returns, and
    [canMakeRequest] holds exactly when a selection of one key returns one.
    [waitTime] is 0 in that case and [minInterval] otherwise; there are at
    most as many active keys as keys, and at most [maxRequestsPerKey]
    remaining requests for each. *)
Theorem getStatus_agrees_with_selection (now : Z) (API_KEYS : list jsstring)
    (rl : RateLimiter) :
  keyPool rl = API_KEYS ->
  let status := (getStatus now API_KEYS rl).1 in
  activeKeys status = length (getAvailableKeys now (length API_KEYS) rl).1 /\
  (canMakeRequest status = true <-> (getAvailableKeys now 1 rl).1 <> []) /\
  waitTime status = (if canMakeRequest status then 0 else 1000) /\
  (activeKeys status <= length API_KEYS)%nat /\
  (requestsRemaining status <= 20 * length API_KEYS)%nat /\
  length (keyStatuses status) = length API_KEYS.
Proof.
  intros Hpool status. subst status. rewrite getStatus_fst. cbv zeta.
  cbn [activeKeys canMakeRequest waitTime requestsRemaining keyStatuses].
  set (candidates := filter (fun key => eligible now rl key = true) API_KEYS).
  assert (Hlen : (length candidates <= length API_KEYS)%nat)
    by apply length_filter.
  pose proof (getAvailableKeys_count now (length API_KEYS) rl) as Hall.
  pose proof (getAvailableKeys_count now 1 rl) as Hone.
  rewrite Hpool in Hall, Hone. fold candidates in Hall, Hone.
  split_and!.
  - rewrite Hall. lia.
  - rewrite bool_decide_eq_true.
    destruct (getAvailableKeys now 1 rl).1 as [|k ks]; cbn [length] in Hone.
    + split; [lia|done].
    + split; [done|lia].
  - done.
  - exact Hlen.
  - apply (sum_list_bound _ 20). intros key. unfold maxRequestsPerKey. lia.
  - by rewrite length_fmap.
Qed.

Lemma getStatus_agrees_with_selection_witness :
  keyPool twoKeys = [u "key-A"; u "key-B"] /\
  activeKeys (getStatus 500 [u "key-A"; u "key-B"] twoKeys).1 = 0%nat /\
  (getAvailableKeys 500 2 twoKeys).1 = [].
Proof.
  destruct (getStatus_agrees_with_selection 500 [u "key-A"; u "key-B"] twoKeys eq_refl)
    as (Hactive & _).
  split; [reflexivity|]. split; [|by vm_compute].
  rewrite Hactive. by vm_compute.
Defined.

Lemma sum_list_one_less (g g' : jsstring -> nat) (key : jsstring) (keys : list jsstring) :
  NoDup keys -> key ∈ keys ->
  (forall other, other <> key -> g' other = g other) ->
  S (g' key) = g key ->
  S (sum_list (g' <$> keys)) = sum_list (g <$> keys).
Proof.
  intros Hnd Hin Hother Hkey. induction keys as [|k keys IH]; [by apply elem_of_nil in Hin|].
  apply NoDup_cons in Hnd as [Hnotin Hnd]. rewrite !fmap_cons.
  cbn [sum_list_with]. change (id ?n) with n.
  destruct (decide (k = key)) as [->|Hne].
  - assert (Hsame : g' <$> keys = g <$> keys).
    { apply list_fmap_ext. intros i other Hl. apply Hother.
      intros ->. apply Hnotin. by eapply list_elem_of_lookup_2. }
    rewrite Hsame. lia.
  - apply elem_of_cons in Hin as [->|Hin]; [done|].
    rewrite (Hother k Hne). specialize (IH Hnd Hin). lia.
Qed.

(** X5.  A recorded request takes one from [requestsRemaining].  For a key
    that is configured once and has a record, the status taken at the time
    of the request reports one request less than before, as long as the key
    had some left; a key at its limit is counted as 0 before and after. *)
Theorem recordRequest_uses_quota (now : Z) (API_KEYS : list jsstring)
    (key : jsstring) (rl : RateLimiter) :
  NoDup API_KEYS -> key ∈ API_KEYS -> is_Some (keyUsage rl !! key) ->
  let before := requestsRemaining (getStatus now API_KEYS rl).1 in
  let after := requestsRemaining (getStatus now API_KEYS (recordRequest now key rl)).1 in
  ((windowCount now rl key < 20)%nat -> S after = before) /\
  ((20 <= windowCount now rl key)%nat -> after = before).
Proof.
  intros Hnd Hin Hsome before after. subst before after.
  rewrite !getStatus_fst. cbv zeta. cbn [requestsRemaining]. split.
  - intros Hleft. apply (sum_list_one_less _ _ key); try done.
    + intros other Hne. rewrite windowCount_recordRequest by done.
      rewrite bool_decide_eq_false_2; [done|tauto].
    + rewrite windowCount_recordRequest by done.
      rewrite bool_decide_eq_true_2 by (split; [done|lia]).
      unfold maxRequestsPerKey. lia.
  - intros Hfull. f_equal. apply list_fmap_ext. intros _ other _.
    rewrite windowCount_recordRequest by done. unfold maxRequestsPerKey.
    case_bool_decide as H; [|done]. destruct H as [-> _]. lia.
Qed.

Lemma recordRequest_uses_quota_witness :
  NoDup [u "key-A"; u "key-B"] /\
  S (requestsRemaining (getStatus 0 [u "key-A"; u "key-B"] twoKeys).1)
  = requestsRemaining (getStatus 0 [u "key-A"; u "key-B"] (new [u "key-A"; u "key-B"])).1.
Proof.
  assert (Hnd : NoDup [u "key-A"; u "key-B"]).
  { apply (bool_decide_unpack _). by vm_compute. }
  split; [exact Hnd|].
  refine (proj1 (recordRequest_uses_quota 0 [u "key-A"; u "key-B"] (u "key-A")
                   (new [u "key-A"; u "key-B"]) Hnd _ _) _).
  - left.
  - by vm_compute; eexists.
  - vm_compute. lia.
Defined.

(** The comparator puts a key behind every key that has no more calls in
    the window than it has. *)
Lemma insertKey_last now x sorted : forall rl,
  Forall (fun y => (windowCount now rl y <= windowCount now rl x)%nat) sorted ->
  (insertKey now x sorted rl).1 = sorted ++ [x].
Proof.
  induction sorted as [|y ys IH]; intros rl Hle; simpl; [done|].
  apply Forall_cons in Hle as [Hy Hys].
  pose proof (compareKeys_fst now y x rl) as Hc.
  pose proof (compareKeys_sameView now y x rl) as Hs.
  destruct (compareKeys now y x rl) as [c rl1]. simpl in Hc, Hs.
  rewrite bool_decide_eq_true_2.
  - specialize (IH rl1). destruct (insertKey now x ys rl1) as [r rl2]. simpl in *.
    rewrite IH; [done|]. eapply Forall_impl; [exact Hys|]. intros z Hz. simpl in Hz.
    by rewrite !(sameView_windowCount now rl rl1).
  - subst c. case_bool_decide; lia.
Qed.

(** The sort is stable: a pool that is in order already stays as it is. *)
Lemma sortKeys_sorted now keys rl :
  StronglySorted (fewerCalls now rl) keys -> (sortKeys now keys rl).1 = keys.
Proof.
  intros Hsorted. unfold sortKeys.
  assert (H : forall rest acc rl1,
    sameView now rl rl1 -> StronglySorted (fewerCalls now rl) (acc ++ rest) ->
    (foldl (fun a x => insertKey now x a.1 a.2) (acc, rl1) rest).1 = acc ++ rest).
  { induction rest as [|x rest IH]; intros acc rl1 Hs Hso; simpl.
    - by rewrite app_nil_r.
    - pose proof (insertKey_last now x acc rl1) as Hlast.
      destruct (insertKey_perm now x acc rl1) as [_ Hs1].
      destruct (insertKey now x acc rl1) as [r rl2]. simpl in *.
      rewrite Hlast in *.
      + rewrite IH; [by rewrite <- app_assoc| |by rewrite <- app_assoc].
        by eapply sameView_trans.
      + apply Forall_forall. intros y Hy.
        rewrite !(sameView_windowCount now rl rl1) by done.
        change (fewerCalls now rl y x).
        eapply (StronglySorted_app_1_elem_of _ acc (x :: rest)); [done..|left]. }
  apply (H keys [] rl); [apply sameView_refl|done].
Qed.

Lemma new_lookup_cases API_KEYS key :
  keyUsage (new API_KEYS) !! key = Some freshUsage \/
  keyUsage (new API_KEYS) !! key = None.
Proof.
  unfold new; simpl.
  assert (H : forall m : gmap jsstring Usage,
             m !! key = Some freshUsage \/ m !! key = None ->
             foldl (fun m key => <[key := freshUsage]> m) m API_KEYS !! key
             = Some freshUsage \/
             foldl (fun m key => <[key := freshUsage]> m) m API_KEYS !! key = None).
  { induction API_KEYS as [|k ks IH]; intros m Hm; simpl; [done|].
    apply IH. destruct (decide (k = key)) as [->|Hne].
    - left. apply lookup_insert_eq.
    - by rewrite lookup_insert_ne. }
  apply H. right. apply lookup_empty.
Qed.

Lemma windowCount_new now API_KEYS key : windowCount now (new API_KEYS) key = 0%nat.
Proof.
  unfold windowCount. by destruct (new_lookup_cases API_KEYS key) as [-> | ->].
Qed.

Lemma eligible_new now API_KEYS key :
  1000 <= now -> key ∈ API_KEYS -> eligible now (new API_KEYS) key = true.
Proof.
  intros Hnow Hin. unfold eligible. rewrite new_lookup by done. simpl.
  unfold canUseKey, minInterval; simpl.
  rewrite (bool_decide_eq_true_2 (1000 <= now - 0)) by lia. done.
Qed.

Lemma filter_all {A} (P : A -> Prop) `{!forall x, Decision (P x)} (l : list A) :
  (forall x, x ∈ l -> P x) -> filter P l = l.
Proof.
  induction l as [|x l IH]; intros Hall; [done|].
  rewrite filter_cons, decide_True by (apply Hall; left).
  f_equal. apply IH. intros y Hy. apply Hall. by right.
Qed.

(** X6.  A limiter as the constructor leaves it serves the keys in the order
    they are configured: [getAvailableKeys(count)] returns the first [count]
    keys of [API_KEYS]; [getStatus] counts every key as active, with
    [maxRequestsPerKey] requests remaining for each.  The time has to be at
    least [minInterval], as [lastRequest] starts at 0. *)
Theorem new_limiter_serves_in_order (API_KEYS : list jsstring) (now : Z) (count : nat) :
  1000 <= now ->
  (getAvailableKeys now count (new API_KEYS)).1 = take count API_KEYS /\
  activeKeys (getStatus now API_KEYS (new API_KEYS)).1 = length API_KEYS /\
  requestsRemaining (getStatus now API_KEYS (new API_KEYS)).1
  = (20 * length API_KEYS)%nat /\
  canMakeRequest (getStatus now API_KEYS (new API_KEYS)).1
  = bool_decide (API_KEYS <> []).
Proof.
  intros Hnow.
  assert (Hall : filter (fun key => eligible now (new API_KEYS) key = true) API_KEYS
                 = API_KEYS).
  { apply filter_all. intros key Hin. by apply eligible_new. }
  split_and!.
  - destruct (getAvailableKeys_spec now count (new API_KEYS)) as (rl' & -> & _).
    simpl. rewrite sortKeys_sorted, Hall; [done|].
    assert (H : forall keys : list jsstring,
               StronglySorted (fewerCalls now (new API_KEYS)) keys).
    { induction keys as [|k ks IH]; constructor; [done|].
      apply Forall_forall. intros y _. unfold fewerCalls.
      by rewrite !windowCount_new. }
    apply H.
  - rewrite getStatus_fst. cbv zeta. cbn [activeKeys]. by rewrite Hall.
  - rewrite getStatus_fst. cbv zeta. cbn [requestsRemaining].
    assert (H : forall keys : list jsstring,
               sum_list ((fun key => (maxRequestsPerKey
                            - windowCount now (new API_KEYS) key)%nat) <$> keys)
               = (20 * length keys)%nat).
    { induction keys as [|k ks IH]; [done|].
      rewrite fmap_cons. cbn [sum_list_with length]. change (id ?n) with n.
      rewrite Nat.mul_succ_r, IH, windowCount_new. unfold maxRequestsPerKey. lia. }
    apply H.
  - rewrite getStatus_fst. cbv zeta. cbn [canMakeRequest]. rewrite Hall.
    by destruct API_KEYS.
Qed.

Lemma new_limiter_serves_in_order_witness :
  1000 <= 5000 /\
  (getAvailableKeys 5000 2 (new [u "key-A"; u "key-B"; u "key-C"])).1
  = [u "key-A"; u "key-B"].
Proof.
  split; [lia|].
  exact (proj1 (new_limiter_serves_in_order [u "key-A"; u "key-B"; u "key-C"] 5000 2
                  ltac:(lia))).
Defined.

End QuotaFacts.

(** ** The dispatcher and the keys it uses *)

Module DispatchFacts.

Import Limiter LimiterFacts QuotaFacts JSON Js Gemini GeminiFacts Results.

(** A call returns only text that is not blank, and only from an answer
    with a success status whose body parses. *)
Lemma extractText_Returned data text :
  extractText data = Returned text -> trim text <> [].
Proof.
  unfold extractText, orTypeError. intros H.
  repeat match type of H with
         | match ?x with _ => _ end = _ => destruct x eqn:?; try discriminate
         | (if ?b then _ else _) = _ => destruct b eqn:?; try discriminate
         end.
  injection H as <-. intros Hnil.
  match goal with Hb : bool_decide _ = false |- _ =>
    apply bool_decide_eq_false in Hb; apply Hb end.
  by rewrite Hnil.
Qed.

Lemma completionOf_Returned s text :
  completionOf s = Returned text ->
  trim text <> [] /\
  exists status body data,
    s = Got (Responds status (BodyText body)) /\ 200 <= status <= 299 /\
    parse body = Some data /\ extractText data = Returned text.
Proof.
  unfold completionOf. destruct s as [|[message|status body]]; try discriminate.
  unfold ok. case_bool_decide as Hok; simpl.
  - destruct body as [body|message]; [|discriminate].
    destruct (parse body) as [data|] eqn:Hparse; [|discriminate].
    intros Hx. split; [by eapply extractText_Returned|].
    by exists status, body, data.
  - by destruct body.
Qed.

Lemma resultOf_wellFormed item call : wellFormedResult (resultOf item call).
Proof.
  unfold resultOf, wellFormedResult. destruct call as [c|]; simpl; [|right; eauto].
  destruct (completionOf (settled c)) as [text|message] eqn:Hc; simpl.
  - left. split; [done|]. by apply completionOf_Returned in Hc as [? _].
  - right. eauto.
Qed.

Lemma zip_with_resultOf_wellFormed batch : forall calls,
  Forall wellFormedResult (zip_with resultOf batch calls).
Proof.
  induction batch as [|item rest IH]; intros [|call calls]; simpl; try constructor.
  - apply resultOf_wellFormed.
  - apply IH.
Qed.

Section Assignment.

Variable network : Z -> jsstring -> jsstring -> Z * Answer.

(** The entries of a round are well formed. *)
Lemma round_wellFormed (batch : list PromptItem) (results : list RequestResult) :
  resultId <$> results = id <$> batch ->
  (forall j item, batch !! j = Some item ->
     exists call, results !! j = Some (resultOf item call)) ->
  Forall wellFormedResult results.
Proof.
  intros Hids Hentries. apply Forall_lookup. intros j r Hr.
  assert (Hlen : length results = length batch).
  { by rewrite <- (length_fmap resultId), Hids, length_fmap. }
  pose proof (lookup_lt_Some _ _ _ Hr) as Hlt. rewrite Hlen in Hlt.
  apply lookup_lt_is_Some in Hlt as [item Hitem].
  destruct (Hentries j item Hitem) as (call & Hcall).
  rewrite Hr in Hcall. injection Hcall as ->. apply resultOf_wellFormed.
Qed.

(** The loop with a positive batch size, from a multiple of it: the prompt
    at position [p] goes out with the key at position [p mod batchSize],
    counted round the selected keys, and its entry is what its request
    completed with; the requests of the first round are made at the time the
    loop starts. *)
Lemma batchLoop_keys availableKeys batchSize prompts :
  responsive network -> availableKeys <> [] -> (0 < batchSize)%nat ->
  forall fuel i rounds w,
    (i mod batchSize = 0)%nat ->
    (length prompts - i <= fuel)%nat ->
    exists rounds' w' new,
      batchLoop network fuel availableKeys batchSize prompts i rounds w
      = Some (rounds ++ rounds', w') /\
      Forall wellFormedResult (concat rounds') /\
      resultId <$> concat rounds' = id <$> drop i prompts /\
      sent w' = sent w ++ new /\ length new = (length prompts - i)%nat /\
      forall p item, (i <= p)%nat -> prompts !! p = Some item ->
        exists apiKey start ms s,
          keyFor availableKeys (p mod batchSize) = Some apiKey /\
          new !! (p - i)%nat = Some (id item, apiKey) /\
          awaitReply network start (prompt item) apiKey = Some (ms, s) /\
          concat rounds' !! (p - i)%nat
          = Some (resultOf item (Some (mkInFlight ms apiKey s))) /\
          ((p < i + batchSize)%nat -> start = clock w).
Proof.
  intros Hall Hne Hpos. induction fuel as [|fuel IH]; intros i rounds w Hmul Hfuel.
  - exists [], w, []. simpl. rewrite bool_decide_eq_false_2 by lia.
    rewrite !app_nil_r, drop_ge by lia. split_and!; try done; [lia|].
    intros p item Hp Hl. apply lookup_lt_Some in Hl. lia.
  - simpl. case_bool_decide as Hi.
    + set (batch := take batchSize (drop i prompts)).
      destruct (dispatchBatch_spec network availableKeys batch w Hall Hne)
        as (batchResults & w1 & new1 & -> & Hres & Hsent1 & Hids1 & Hkeys1).
      assert (Hlen1 : length new1 = length batch).
      { by rewrite <- (length_fmap fst), Hids1, length_fmap. }
      assert (Hlenr : length batchResults = length batch).
      { by rewrite <- (length_fmap resultId), Hres, length_fmap. }
      assert (Hwf : Forall wellFormedResult batchResults).
      { apply (round_wellFormed batch); [done|]. intros j item Hj.
        destruct (Hkeys1 j item Hj) as (apiKey & ms & s & _ & _ & _ & Hr). eauto. }
      set (w2 := if bool_decide (i + batchSize < length prompts)%nat
                 then advance 500 w1 else w1).
      assert (Hsent2 : sent w2 = sent w1) by (unfold w2; by case_bool_decide).
      destruct (IH (i + batchSize)%nat (rounds ++ [batchResults]) w2)
        as (rounds' & w' & new2 & Hloop & Hwf' & Hres' & Hsent' & Hlen2 & Hkeys2).
      { rewrite <- Nat.Div0.add_mod_idemp_l, Hmul. simpl.
        apply Nat.Div0.mod_same. }
      { lia. }
      assert (Hbatch : length batch = (batchSize `min` (length prompts - i))%nat).
      { unfold batch. by rewrite length_take, length_drop. }
      exists (batchResults :: rounds'), w', (new1 ++ new2). split_and!.
      * rewrite Hloop. by rewrite <- app_assoc.
      * simpl. by apply Forall_app.
      * simpl. rewrite fmap_app, Hres, Hres'. unfold batch.
        rewrite <- fmap_app. f_equal.
        rewrite <- drop_drop. apply take_drop.
      * rewrite Hsent', Hsent2, Hsent1. by rewrite app_assoc.
      * rewrite length_app, Hlen1, Hlen2, Hbatch. lia.
      * intros p item Hp Hl. cbn [concat].
        destruct (decide (p < i + batchSize)%nat) as [Hin|Hout].
        -- assert (Hj : batch !! (p - i)%nat = Some item).
           { unfold batch. rewrite lookup_take_lt by lia. rewrite lookup_drop.
             by replace (i + (p - i))%nat with p by lia. }
           destruct (Hkeys1 _ _ Hj) as (apiKey & ms & s & Hk & Hn & Hreply & Hr).
           exists apiKey, (clock w), ms, s. split_and!.
           ++ replace (p mod batchSize)%nat with (p - i)%nat; [done|].
              replace p with ((p - i) + i)%nat at 2 by lia.
              rewrite <- Nat.Div0.add_mod_idemp_r, Hmul, Nat.add_0_r.
              symmetry. apply Nat.mod_small. lia.
           ++ rewrite lookup_app_l; [done|]. rewrite Hlen1, Hbatch.
              apply lookup_lt_Some in Hl. lia.
           ++ done.
           ++ rewrite lookup_app_l; [done|]. rewrite Hlenr, Hbatch.
              apply lookup_lt_Some in Hl. lia.
           ++ done.
        -- destruct (Hkeys2 p item)
             as (apiKey & start & ms & s & Hk & Hn & Hreply & Hr & _); [lia|done|].
           pose proof (lookup_lt_Some _ _ _ Hl) as Hlt.
           exists apiKey, start, ms, s. split_and!; try done.
           ++ rewrite lookup_app_r; rewrite Hlen1, Hbatch; [|lia].
              by replace (p - i - batchSize `min` (length prompts - i))%nat
                with (p - (i + batchSize))%nat by lia.
           ++ rewrite lookup_app_r; rewrite Hlenr, Hbatch; [|lia].
              by replace (p - i - batchSize `min` (length prompts - i))%nat
                with (p - (i + batchSize))%nat by lia.
    + exists [], w, []. rewrite !app_nil_r, drop_ge by lia.
      split_and!; try done; [simpl; lia|].
      intros p item Hp Hl. apply lookup_lt_Some in Hl. lia.
Qed.

End Assignment.

Lemma getAvailableKeys_pool now count rl key :
  key ∈ (getAvailableKeys now count rl).1 -> key ∈ keyPool rl.
Proof.
  destruct (getAvailableKeys_sublist now count rl) as (sorted & Hp & ->).
  intros Hin. apply (subseteq_take count) in Hin. rewrite Hp in Hin.
  by apply list_elem_of_filter in Hin as [_ ?].
Qed.

(** The run of [makeParallelRequests] with at least one selected key and an
    endpoint whose exchanges all end. *)
Lemma makeParallelRequests_run
    (network : Z -> jsstring -> jsstring -> Z * Answer)
    (prompts : list PromptItem) (w : World) (fuel : nat) :
  let availableKeys := (getAvailableKeys (clock w) (length prompts) (limiter w)).1 in
  responsive network -> availableKeys <> [] -> (length prompts <= fuel)%nat ->
  exists results w' new,
    makeParallelRequests network fuel prompts w = Some (results, w') /\
    Forall wellFormedResult results /\
    resultId <$> results = id <$> prompts /\
    sent w' = sent w ++ new /\ length new = length prompts /\
    forall p item, prompts !! p = Some item ->
      exists apiKey start ms s,
        availableKeys !! (p mod length availableKeys)%nat = Some apiKey /\
        new !! p = Some (id item, apiKey) /\
        awaitReply network start (prompt item) apiKey = Some (ms, s) /\
        results !! p = Some (resultOf item (Some (mkInFlight ms apiKey s))) /\
        ((p < length availableKeys)%nat -> start = clock w).
Proof.
  intros availableKeys Hall Hne Hfuel. subst availableKeys.
  unfold makeParallelRequests, parallelRounds.
  pose proof (getAvailableKeys_count (clock w) (length prompts) (limiter w)) as Hlen.
  destruct (getAvailableKeys (clock w) (length prompts) (limiter w))
    as [availableKeys rl1]. simpl in *.
  assert (Hb : (length availableKeys `min` length prompts)%nat = length availableKeys)
    by lia.
  rewrite Hb.
  assert (Hpos : (0 < length availableKeys)%nat).
  { destruct availableKeys; [done|simpl; lia]. }
  destruct (batchLoop_keys network availableKeys (length availableKeys) prompts
              Hall Hne Hpos fuel 0%nat [] (withLimiter rl1 w))
    as (rounds & w' & new & Hloop & Hwf & Hres & Hsent & Hnew & Hkeys).
  { apply Nat.Div0.mod_0_l. }
  { lia. }
  rewrite Hloop. simpl in *. rewrite Nat.sub_0_r in Hnew.
  exists (concat rounds), w', new. split_and!; try done.
  intros p item Hl.
  destruct (Hkeys p item) as (apiKey & start & ms & s & Hk & Hn & Hreply & Hr & Hfirst);
    [lia|done|].
  exists apiKey, start, ms, s. rewrite Nat.sub_0_r in Hn, Hr. split_and!; try done.
  unfold keyFor in Hk. destruct availableKeys; [done|].
  by rewrite Nat.Div0.mod_mod in Hk.
Qed.

(** X7.  [makeParallelRequests] hands the prompts to the selected keys in
    turn.  With at least one key selected and an endpoint whose exchanges
    all end, the call returns, and the prompt at position [p] went out with
    the selected key at position [p mod b], where [b] is the number of
    selected keys; each of these keys is in the pool and passed the tests of
    the selection when the call began.  When the pool lists no key twice,
    two prompts of one round go out with different keys. *)
Theorem makeParallelRequests_round_robin
    (network : Z -> jsstring -> jsstring -> Z * Answer)
    (prompts : list PromptItem) (w : World) (fuel : nat) :
  let availableKeys := (getAvailableKeys (clock w) (length prompts) (limiter w)).1 in
  let b := length availableKeys in
  responsive network -> availableKeys <> [] -> (length prompts <= fuel)%nat ->
  exists results w' new,
    makeParallelRequests network fuel prompts w = Some (results, w') /\
    sent w' = sent w ++ new /\ length new = length prompts /\
    (forall p item, prompts !! p = Some item ->
       exists apiKey,
         availableKeys !! (p mod b)%nat = Some apiKey /\
         new !! p = Some (id item, apiKey) /\
         apiKey ∈ keyPool (limiter w) /\
         eligible (clock w) (limiter w) apiKey = true) /\
    (NoDup (keyPool (limiter w)) ->
     forall p p' entry entry',
       p <> p' -> (p / b = p' / b)%nat ->
       new !! p = Some entry -> new !! p' = Some entry' -> entry.2 <> entry'.2).
Proof.
  intros availableKeys b Hall Hne Hfuel.
  destruct (makeParallelRequests_run network prompts w fuel Hall Hne Hfuel)
    as (results & w' & new & Hrun & _ & _ & Hsent & Hlen & Hkeys).
  fold availableKeys in Hkeys. fold b in Hkeys.
  exists results, w', new. split_and!; try done.
  - intros p item Hl.
    destruct (Hkeys p item Hl) as (apiKey & start & ms & s & Hk & Hn & _).
    exists apiKey. split_and!; try done.
    + eapply getAvailableKeys_pool. eapply list_elem_of_lookup_2. exact Hk.
    + eapply getAvailableKeys_eligible. eapply list_elem_of_lookup_2. exact Hk.
  - intros Hnd p p' entry entry' Hne' Hround Hp Hp' Heq.
    assert (Hkp : forall q e, new !! q = Some e ->
                    availableKeys !! (q mod b)%nat = Some e.2).
    { intros q e Hq. pose proof (lookup_lt_Some _ _ _ Hq) as Hlt.
      rewrite Hlen in Hlt. apply lookup_lt_is_Some in Hlt as [item Hitem].
      destruct (Hkeys q item Hitem) as (apiKey & start & ms & s & Hk & Hn & _).
      rewrite Hq in Hn. injection Hn as ->. done. }
    pose proof (Hkp p entry Hp) as H1. pose proof (Hkp p' entry' Hp') as H2.
    rewrite Heq in H1.
    pose proof (NoDup_lookup _ _ _ _
                  (getAvailableKeys_NoDup (clock w) (length prompts) (limiter w) Hnd)
                  H1 H2) as Hmod.
    apply Hne'. rewrite (Nat.div_mod_eq p b), (Nat.div_mod_eq p' b). lia.
Qed.

Lemma makeParallelRequests_round_robin_witness :
  responsive picky /\
  (getAvailableKeys (clock twoKeysWorld) (length threePrompts)
     (limiter twoKeysWorld)).1 = [u "key-B"; u "key-A"] /\
  NoDup (keyPool (limiter twoKeysWorld)) /\
  exists results w' first second third,
    makeParallelRequests picky 3 threePrompts twoKeysWorld = Some (results, w') /\
    sent w' = [first; second; third] /\
    first = (u "p-1", u "key-B") /\ second = (u "p-2", u "key-A") /\
    third = (u "p-3", u "key-B") /\ first.2 <> second.2.
Proof.
  assert (Hall : responsive picky) by apply responsive_samples.
  assert (Hkeys : (getAvailableKeys (clock twoKeysWorld) (length threePrompts)
                     (limiter twoKeysWorld)).1 = [u "key-B"; u "key-A"])
    by (by vm_compute).
  assert (Hnd : NoDup (keyPool (limiter twoKeysWorld))).
  { apply (bool_decide_unpack _). by vm_compute. }
  split; [exact Hall|]. split; [exact Hkeys|]. split; [exact Hnd|].
  destruct (makeParallelRequests_round_robin picky threePrompts twoKeysWorld 3 Hall
              ltac:(by rewrite Hkeys) ltac:(simpl; lia))
    as (results & w' & new & Hrun & Hsent & Hlen & _ & Hdistinct).
  change (sent twoKeysWorld) with (@nil (jsstring * jsstring)) in Hsent.
  rewrite app_nil_l in Hsent.
  assert (Hnew : new = [(u "p-1", u "key-B"); (u "p-2", u "key-A");
                        (u "p-3", u "key-B")]).
  { rewrite <- Hsent. vm_compute in Hrun. by injection Hrun as <- <-. }
  exists results, w', (u "p-1", u "key-B"), (u "p-2", u "key-A"), (u "p-3", u "key-B").
  split; [exact Hrun|]. split; [by rewrite Hsent|].
  split; [reflexivity|]. split; [reflexivity|]. split; [reflexivity|].
  apply (Hdistinct Hnd 0%nat 1%nat); [done|by rewrite Hkeys|by rewrite Hnew..].
Defined.

(** X8.  [makeParallelRequests] reports a failure in the entry of its prompt.
    With at least one key selected and an endpoint whose exchanges all end,
    the call returns one entry for each prompt, in the order of the prompts
    and under the prompt's [id].  The entry of a prompt holds what the
    request made for that prompt, with the key it was sent with, completed
    with: the text it returned and no error, or the message of the error it
    threw and the empty text; so a text is never blank.  The requests of the
    first round are made at the time of the call. *)
Theorem makeParallelRequests_reports_failures
    (network : Z -> jsstring -> jsstring -> Z * Answer)
    (prompts : list PromptItem) (w : World) (fuel : nat) :
  let availableKeys := (getAvailableKeys (clock w) (length prompts) (limiter w)).1 in
  responsive network -> availableKeys <> [] -> (length prompts <= fuel)%nat ->
  exists results w' new,
    makeParallelRequests network fuel prompts w = Some (results, w') /\
    sent w' = sent w ++ new /\
    resultId <$> results = id <$> prompts /\
    Forall wellFormedResult results /\
    forall p item, prompts !! p = Some item ->
      exists apiKey start ms s,
        new !! p = Some (id item, apiKey) /\
        awaitReply network start (prompt item) apiKey = Some (ms, s) /\
        results !! p
        = Some (match completionOf s with
                | Returned text => mkResult (id item) text None
                | Threw message => mkResult (id item) [] (Some message)
                end) /\
        ((p < length availableKeys)%nat -> start = clock w).
Proof.
  intros availableKeys Hall Hne Hfuel.
  destruct (makeParallelRequests_run network prompts w fuel Hall Hne Hfuel)
    as (results & w' & new & Hrun & Hwf & Hres & Hsent & _ & Hkeys).
  exists results, w', new. split_and!; try done.
  intros p item Hl.
  destruct (Hkeys p item Hl) as (apiKey & start & ms & s & _ & Hn & Hreply & Hr & Hfirst).
  exists apiKey, start, ms, s. split_and!; try done.
Qed.

Lemma makeParallelRequests_reports_failures_witness :
  responsive picky /\
  (getAvailableKeys (clock twoKeysWorld) (length threePrompts)
     (limiter twoKeysWorld)).1 <> [] /\
  exists w',
    makeParallelRequests picky 3 threePrompts twoKeysWorld
    = Some ([mkResult (u "p-1") (u "fine") None;
             mkResult (u "p-2") [] (Some (u "HTTP 403: forbidden"));
             mkResult (u "p-3") (u "fine") None], w').
Proof.
  assert (Hall : responsive picky) by apply responsive_samples.
  assert (Hne : (getAvailableKeys (clock twoKeysWorld) (length threePrompts)
                   (limiter twoKeysWorld)).1 <> []) by (by vm_compute).
  split; [exact Hall|]. split; [exact Hne|].
  destruct (makeParallelRequests_reports_failures picky threePrompts twoKeysWorld 3
              Hall Hne ltac:(simpl; lia)) as (results & w' & new & Hrun & _).
  exists w'. rewrite Hrun. vm_compute in Hrun. by injection Hrun as <- <-.
Defined.

Lemma getAvailableKeys_head_least now count rl key :
  tracked rl -> head (getAvailableKeys now count rl).1 = Some key ->
  forall other, other ∈ keyPool rl -> eligible now rl other = true ->
    (windowCount now rl key <= windowCount now rl other)%nat.
Proof.
  intros Ht Hhead other Hpool Hel.
  destruct (getAvailableKeys_spec now count rl) as (rl' & Hget & _).
  rewrite Hget in Hhead. simpl in Hhead.
  destruct (sortKeys_spec now rl Ht) as (sorted & rl1 & Hsort & Hperm & Hsorted & _).
  rewrite Hsort in Hhead. simpl in Hhead.
  pose proof (StronglySorted_filter _ (fun key => eligible now rl key = true) _ Hsorted)
    as Hfs.
  assert (Hin : other ∈ filter (fun key => eligible now rl key = true) sorted).
  { apply list_elem_of_filter. split; [done|]. by rewrite Hperm. }
  destruct (filter (fun key => eligible now rl key = true) sorted) as [|k ks];
    [by destruct count|].
  destruct count; [done|]. simpl in Hhead. injection Hhead as ->.
  apply elem_of_cons in Hin as [->|Hin]; [done|].
  apply StronglySorted_cons in Hfs as [Hall _].
  rewrite Forall_forall in Hall. by apply Hall.
Qed.

(** [makeRequest] when a key can be used: the selection returns one key,
    and the call goes on as [makeRequestWithKey] with it. *)
Lemma makeRequest_selected
    (network : Z -> jsstring -> jsstring -> Z * Answer)
    (API_KEYS : list jsstring) (prompt requestId : jsstring) (w : World) :
  API_KEYS <> [] ->
  (exists key, key ∈ keyPool (limiter w) /\ eligible (clock w) (limiter w) key = true) ->
  exists apiKey,
    (getAvailableKeys (clock w) 1 (limiter w)).1 = [apiKey] /\
    makeRequest network API_KEYS prompt requestId w
    = makeRequestWithKey network prompt apiKey requestId
        (withLimiter (recordRequest (clock w) apiKey
                        (getAvailableKeys (clock w) 1 (limiter w)).2) w).
Proof.
  intros Hkeys (key & Hpool & Hel). unfold makeRequest.
  rewrite bool_decide_eq_false_2 by (by destruct API_KEYS).
  pose proof (getAvailableKeys_count (clock w) 1 (limiter w)) as Hcount.
  destruct (getAvailableKeys (clock w) 1 (limiter w)) as [availableKeys rl1].
  cbn [fst snd] in *.
  assert (Hsome : (0 < length (filter (fun key => eligible (clock w) (limiter w) key = true)
                                 (keyPool (limiter w))))%nat).
  { assert (Hin : key ∈ filter (fun key => eligible (clock w) (limiter w) key = true)
                             (keyPool (limiter w)))
      by (by apply list_elem_of_filter).
    destruct (filter _ (keyPool (limiter w))); [by apply elem_of_nil in Hin|simpl; lia]. }
  destruct availableKeys as [|apiKey [|other rest]]; cbn [length] in Hcount; try lia.
  by exists apiKey.
Qed.

(** X9.  [makeRequest] sends with the key the selection puts first.  When
    keys are configured and one of the pool passes the tests of the
    selection, exactly one request goes out; its key is of the pool, passed
    those tests and, of the keys that did, has the fewest calls in the
    window: of the times recorded for it, the fewest are less than 60000 ms
    old.  The call completes as that request does, at the time the body
    of the answer has been read, which nothing bounds; it does not complete
    when that read does not.  A text it returns is not blank. *)
Theorem makeRequest_uses_least_used_key
    (network : Z -> jsstring -> jsstring -> Z * Answer)
    (API_KEYS : list jsstring) (prompt requestId : jsstring) (w : World) :
  API_KEYS <> [] ->
  (exists key, key ∈ keyPool (limiter w) /\ eligible (clock w) (limiter w) key = true) ->
  let r := makeRequest network API_KEYS prompt requestId w in
  exists apiKey,
    sent r.2 = sent w ++ [(requestId, apiKey)] /\
    apiKey ∈ keyPool (limiter w) /\
    eligible (clock w) (limiter w) apiKey = true /\
    (tracked (limiter w) ->
     forall other usage usage',
       keyUsage (limiter w) !! apiKey = Some usage ->
       other ∈ keyPool (limiter w) ->
       keyUsage (limiter w) !! other = Some usage' ->
       eligible (clock w) (limiter w) other = true ->
       (length (filter (fun time => (clock w - time < 60000)%Z) (requests usage))
        <= length (filter (fun time => (clock w - time < 60000)%Z)
                     (requests usage')))%nat) /\
    match awaitReply network (clock w) prompt apiKey with
    | Some (ms, s) => r.1 = Some (completionOf s) /\ clock r.2 = clock w + ms
    | None => r.1 = None
    end /\
    (forall text, r.1 = Some (Returned text) -> trim text <> []).
Proof.
  intros Hkeys Hel r. subst r.
  destruct (makeRequest_selected network API_KEYS prompt requestId w Hkeys Hel)
    as (apiKey & Hsel & ->).
  assert (Hin : apiKey ∈ (getAvailableKeys (clock w) 1 (limiter w)).1)
    by (rewrite Hsel; left).
  exists apiKey. unfold makeRequestWithKey. cbn [clock withLimiter].
  destruct (awaitReply network (clock w) prompt apiKey) as [[ms s]|]; simpl.
  - split_and!; try done.
    + by eapply getAvailableKeys_pool.
    + by eapply getAvailableKeys_eligible.
    + intros Ht other usage usage' Hu Hpool Hu' Hother.
      rewrite <- (windowCount_explicit (clock w) (limiter w) apiKey usage Hu),
        <- (windowCount_explicit (clock w) (limiter w) other usage' Hu').
      apply (getAvailableKeys_head_least (clock w) 1); [done| |done|done].
      by rewrite Hsel.
    + intros text [= Hc]. by apply completionOf_Returned in Hc as [? _].
  - split_and!; try done.
    + by eapply getAvailableKeys_pool.
    + by eapply getAvailableKeys_eligible.
    + intros Ht other usage usage' Hu Hpool Hu' Hother.
      rewrite <- (windowCount_explicit (clock w) (limiter w) apiKey usage Hu),
        <- (windowCount_explicit (clock w) (limiter w) other usage' Hu').
      apply (getAvailableKeys_head_least (clock w) 1); [done| |done|done].
      by rewrite Hsel.
Qed.

Lemma makeRequest_uses_least_used_key_witness :
  [u "key-A"; u "key-B"] <> [] /\
  (exists key, key ∈ keyPool (limiter crowdedWorld) /\
     eligible (clock crowdedWorld) (limiter crowdedWorld) key = true) /\
  tracked (limiter crowdedWorld) /\
  keyUsage (limiter crowdedWorld) !! u "key-A"
  = Some (mkUsage [0; 1000; 65000] 65000 0 true) /\
  keyUsage (limiter crowdedWorld) !! u "key-B"
  = Some (mkUsage [20000; 30000] 30000 0 true) /\
  eligible (clock crowdedWorld) (limiter crowdedWorld) (u "key-B") = true /\
  sent (makeRequest (answering (u "fine")) [u "key-A"; u "key-B"] (u "prompt")
          (u "r1") crowdedWorld).2 = [(u "r1", u "key-A")] /\
  (length (filter (fun time => (70000 - time < 60000)%Z) [0; 1000; 65000]%Z)
   <= length (filter (fun time => (70000 - time < 60000)%Z) [20000; 30000]%Z))%nat.
Proof.
  assert (Hkeys : [u "key-A"; u "key-B"] <> []) by done.
  assert (Hel : exists key, key ∈ keyPool (limiter crowdedWorld) /\
                  eligible (clock crowdedWorld) (limiter crowdedWorld) key = true).
  { exists (u "key-B"). split; [right; left|by vm_compute]. }
  assert (Ht : tracked (limiter crowdedWorld)).
  { unfold crowdedWorld, crowded. cbn [limiter]. unfold recordRequest.
    repeat apply tracked_setUsage. apply tracked_new. }
  assert (Ha : keyUsage (limiter crowdedWorld) !! u "key-A"
               = Some (mkUsage [0; 1000; 65000] 65000 0 true)) by (by vm_compute).
  assert (Hb : keyUsage (limiter crowdedWorld) !! u "key-B"
               = Some (mkUsage [20000; 30000] 30000 0 true)) by (by vm_compute).
  assert (Hother : eligible (clock crowdedWorld) (limiter crowdedWorld) (u "key-B") = true)
    by (by vm_compute).
  split; [exact Hkeys|]. split; [exact Hel|]. split; [exact Ht|]. split; [exact Ha|].
  split; [exact Hb|]. split; [exact Hother|].
  destruct (makeRequest_uses_least_used_key (answering (u "fine")) [u "key-A"; u "key-B"]
              (u "prompt") (u "r1") crowdedWorld Hkeys Hel)
    as (apiKey & Hsent & _ & _ & Hleast & _).
  assert (Hone : sent (makeRequest (answering (u "fine")) [u "key-A"; u "key-B"]
                         (u "prompt") (u "r1") crowdedWorld).2
                 = [(u "r1", u "key-A")]) by (by vm_compute).
  split; [exact Hone|].
  rewrite Hone in Hsent. change (sent crowdedWorld) with (@nil (jsstring * jsstring))
    in Hsent. rewrite app_nil_l in Hsent. injection Hsent as <-.
  exact (Hleast Ht (u "key-B") (mkUsage [0; 1000; 65000] 65000 0 true)
           (mkUsage [20000; 30000] 30000 0 true) Ha ltac:(right; left) Hb Hother).
Defined.

Lemma foldl_reactivate_pending timers : forall rl,
  pending (foldl (fun rl timer => reactivate (usageOf timer) rl) rl timers) = pending rl /\
  keyPool (foldl (fun rl timer => reactivate (usageOf timer) rl) rl timers) = keyPool rl.
Proof.
  induction timers as [|timer timers IH]; intros rl; simpl; [done|].
  destruct (IH (reactivate (usageOf timer) rl)) as [-> ->]. done.
Qed.

Lemma foldl_reactivate_lookup timers key : forall rl,
  keyUsage (foldl (fun rl timer => reactivate (usageOf timer) rl) rl timers) !! key
  = if bool_decide (key ∈ usageOf <$> timers)
    then (fun usage => mkUsage (requests usage) (lastRequest usage) 0 true)
           <$> keyUsage rl !! key
    else keyUsage rl !! key.
Proof.
  induction timers as [|timer timers IH]; intros rl; [done|].
  cbn [foldl]. rewrite fmap_cons.
  - rewrite IH. unfold reactivate, setUsage; simpl.
    destruct (decide (usageOf timer = key)) as [->|Hne].
    + rewrite lookup_alter_eq.
      rewrite (bool_decide_eq_true_2 (key ∈ key :: _)) by left.
      case_bool_decide; destruct (keyUsage rl !! key); done.
    + rewrite lookup_alter_ne by done.
      case_bool_decide as Hin.
      * rewrite bool_decide_eq_true_2; [done|]. by right.
      * rewrite bool_decide_eq_false_2; [done|].
        intros H. apply elem_of_cons in H as [H|H]; [done|by apply Hin].
Qed.

(** X10.  A suspension ends.  When the clock has passed the time the callback
    of [recordError] was set for, the callback has run: the key's record is
    active again with no consecutive errors, its timestamps untouched, and
    no callback that is due is left pending.  From then on the selection
    accepts the key as soon as its quota and its minimum interval allow. *)
Theorem suspension_ends (t0 now : Z) (key : jsstring) (rl : RateLimiter)
    (usage : Usage) :
  keyUsage rl !! key = Some usage ->
  (3 <= S (consecutiveErrors usage))%nat ->
  t0 + 300000 <= now ->
  let rl2 := runDue now (recordError t0 key rl) in
  keyUsage rl2 !! key
  = Some (mkUsage (requests usage) (lastRequest usage) 0 true) /\
  (forall timer, timer ∈ pending rl2 -> now < dueAt timer) /\
  keyPool rl2 = keyPool rl /\
  (eligible now rl2 key = true <->
   (windowCount now rl key < 20)%nat /\ 1000 <= now - lastRequest usage).
Proof.
  intros Hu Hthird Hlate rl2.
  assert (Hrec : recordError t0 key rl =
    {| keyUsage := <[key := mkUsage (requests usage) (lastRequest usage)
                              (S (consecutiveErrors usage)) false]> (keyUsage rl);
       keyPool := keyPool rl;
       pending := pending rl ++ [mkTimer (t0 + reactivateAfter) key] |}).
  { unfold recordError. rewrite Hu. unfold maxConsecutiveErrors.
    by rewrite bool_decide_eq_true_2 by lia. }
  assert (Hlookup : keyUsage rl2 !! key
                    = Some (mkUsage (requests usage) (lastRequest usage) 0 true)).
  { unfold rl2, runDue. rewrite foldl_reactivate_lookup. rewrite Hrec. simpl.
    rewrite lookup_insert_eq. rewrite bool_decide_eq_true_2; [done|].
    apply list_elem_of_fmap. exists (mkTimer (t0 + reactivateAfter) key).
    split; [done|]. apply list_elem_of_filter. simpl. unfold reactivateAfter.
    split; [lia|]. apply elem_of_app. right. left. }
  split_and!.
  - exact Hlookup.
  - intros timer Hin. unfold rl2, runDue in Hin.
    rewrite (proj1 (foldl_reactivate_pending _ _)) in Hin. simpl in Hin.
    apply list_elem_of_filter in Hin as [Hdue _]. lia.
  - unfold rl2, runDue. rewrite (proj2 (foldl_reactivate_pending _ _)). simpl.
    by rewrite Hrec.
  - unfold eligible, windowCount. rewrite Hlookup, Hu. simpl.
    unfold canUseKey, maxRequestsPerKey, minInterval, maxConsecutiveErrors. simpl.
    rewrite !andb_true_iff, !bool_decide_eq_true. tauto.
Qed.

Lemma suspension_ends_witness :
  keyUsage twoStrikes !! (u "key-A") = Some (mkUsage [] 0 2 true) /\
  (getAvailableKeys 299999 1 threeStrikes).1 = [] /\
  eligible 300000 (runDue 300000 threeStrikes) (u "key-A") = true.
Proof.
  assert (Hu : keyUsage twoStrikes !! (u "key-A") = Some (mkUsage [] 0 2 true))
    by (by vm_compute).
  split; [exact Hu|]. split; [by vm_compute|].
  destruct (suspension_ends 0 300000 (u "key-A") twoStrikes _ Hu ltac:(simpl; lia)
              ltac:(lia)) as (_ & _ & _ & Hel).
  apply Hel. split; [vm_compute; lia|simpl; lia].
Defined.

(** What one [recordError] does to a tracked key. *)
Lemma recordError_lookup now key rl usage :
  keyUsage rl !! key = Some usage ->
  let suspended := bool_decide (3 <= S (consecutiveErrors usage))%nat in
  keyUsage (recordError now key rl) !! key
  = Some (mkUsage (requests usage) (lastRequest usage) (S (consecutiveErrors usage))
            (if suspended then false else isActive usage)) /\
  pending (recordError now key rl)
  = (if suspended then pending rl ++ [mkTimer (now + 300000) key] else pending rl).
Proof.
  intros Hu suspended. subst suspended. unfold recordError. rewrite Hu.
  unfold maxConsecutiveErrors, reactivateAfter.
  case_bool_decide; simpl; by rewrite lookup_insert_eq.
Qed.

(** X11.  Only errors in a row suspend a key.  After a success the count
    starts again, whatever it was: two more errors leave the key active and
    set no callback; the third one in a row suspends the key, sets one
    callback for five minutes later, and from then on no selection returns
    the key while the record stays as it is. *)
Theorem errors_count_in_a_row (t1 t2 t3 : Z) (key : jsstring) (rl : RateLimiter)
    (usage : Usage) :
  keyUsage rl !! key = Some usage ->
  let rl2 := recordError t2 key (recordError t1 key (recordSuccess key rl)) in
  let rl3 := recordError t3 key rl2 in
  keyUsage rl2 !! key = Some (mkUsage (requests usage) (lastRequest usage) 2 true) /\
  pending rl2 = pending rl /\
  keyUsage rl3 !! key = Some (mkUsage (requests usage) (lastRequest usage) 3 false) /\
  pending rl3 = pending rl ++ [mkTimer (t3 + 300000) key] /\
  forall now count, key ∉ (getAvailableKeys now count rl3).1.
Proof.
  intros Hu rl2 rl3.
  assert (H0 : keyUsage (recordSuccess key rl) !! key
               = Some (mkUsage (requests usage) (lastRequest usage) 0 true)).
  { unfold recordSuccess, setUsage. simpl. by rewrite lookup_alter_eq, Hu. }
  destruct (recordError_lookup t1 key _ _ H0) as [H1 P1]. simpl in H1, P1.
  destruct (recordError_lookup t2 key _ _ H1) as [H2 P2]. simpl in H2, P2.
  destruct (recordError_lookup t3 key _ _ H2) as [H3 P3]. simpl in H3, P3.
  fold rl2 in H2, P2, H3, P3. fold rl3 in H3, P3.
  split_and!.
  - exact H2.
  - by rewrite P2, P1.
  - exact H3.
  - by rewrite P3, P2, P1.
  - intros now count Hin. apply getAvailableKeys_eligible in Hin.
    unfold eligible in Hin. rewrite H3 in Hin. done.
Qed.

Lemma errors_count_in_a_row_witness :
  keyUsage threeStrikes !! (u "key-A") = Some (mkUsage [] 0 3 false) /\
  keyUsage (recordError 30 (u "key-A") (recordError 20 (u "key-A")
              (recordSuccess (u "key-A") threeStrikes))) !! (u "key-A")
  = Some (mkUsage [] 0 2 true).
Proof.
  assert (Hu : keyUsage threeStrikes !! (u "key-A") = Some (mkUsage [] 0 3 false))
    by (by vm_compute).
  split; [exact Hu|].
  exact (proj1 (errors_count_in_a_row 20 30 40 (u "key-A") threeStrikes _ Hu)).
Defined.

End DispatchFacts.

(** ** More on [cleanJsonResponse] *)

Module CleaningFacts.

Import JSON Js Gemini GeminiFacts.

(** The text between the first opening brace and the last closing brace. *)
Lemma cleanJsonResponse_between response first last :
  indexOf 123 (unfenced response) = Some first ->
  lastIndexOf 125 (unfenced response) = Some last ->
  (first < last)%nat ->
  cleanJsonResponse response = substring first (last + 1) (unfenced response).
Proof.
  intros Hf Hl Hlt. unfold cleanJsonResponse. fold (unfenced response).
  cbv zeta. rewrite Hf, Hl. rewrite bool_decide_eq_true_2 by done.
  apply indexOf_lookup in Hf. apply lastIndexOf_lookup in Hl.
  pose proof (lookup_lt_Some _ _ _ Hl) as Hlen.
  unfold substring. apply trim_id.
  - intros c Hc. rewrite head_lookup in Hc.
    rewrite lookup_take_lt in Hc by lia.
    rewrite lookup_drop, Nat.add_0_r, Hf in Hc. by injection Hc as <-.
  - intros d Hd. rewrite last_lookup in Hd.
    rewrite length_take, length_drop in Hd.
    rewrite lookup_take_lt in Hd by lia.
    rewrite lookup_drop in Hd.
    replace (first + pred ((last + 1 - first)
                           `min` (length (unfenced response) - first)))%nat
      with last in Hd by lia.
    rewrite Hl in Hd. by injection Hd as <-.
Qed.

Lemma cleanJsonResponse_otherwise response :
  (forall first last,
     indexOf 123 (unfenced response) = Some first ->
     lastIndexOf 125 (unfenced response) = Some last -> ~ (first < last)%nat) ->
  cleanJsonResponse response = unfenced response.
Proof.
  intros Hno. unfold cleanJsonResponse. fold (unfenced response). cbv zeta.
  destruct (indexOf 123 (unfenced response)) as [first|] eqn:Hf;
    [destruct (lastIndexOf 125 (unfenced response)) as [last|] eqn:Hl|];
    try (unfold unfenced; apply trim_idemp).
  rewrite bool_decide_eq_false_2 by (by apply Hno).
  unfold unfenced; apply trim_idemp.
Qed.

(** *** A match of a fence does not reach over a character that is not part
    of the pattern. *)

Lemma isPrefix_app_barrier pattern pre c rest :
  c ∉ pattern ->
  isPrefix pattern (pre ++ c :: rest) = isPrefix pattern pre.
Proof.
  intros Hc. unfold isPrefix. apply bool_decide_ext.
  destruct (decide (length pattern <= length pre)%nat) as [Hle|Hgt].
  - by rewrite take_app_le.
  - split; intros H.
    + exfalso. apply Hc. rewrite <- H.
      apply (list_elem_of_lookup_2 _ (length pre)).
      rewrite lookup_take_lt by lia. rewrite lookup_app_r by lia.
      by rewrite Nat.sub_diag.
    + exfalso. apply (f_equal length) in H. rewrite length_take in H. lia.
Qed.

Lemma removeAll_app_barrier pattern c rest :
  pattern <> [] -> c ∉ pattern -> c <> 10%N ->
  forall n pre, (length pre <= n)%nat ->
    removeAll pattern 0 (pre ++ c :: rest)
    = removeAll pattern 0 pre ++ removeAll pattern 0 (c :: rest).
Proof.
  intros Hne Hc Hnl. induction n as [|n IH]; intros pre Hn.
  - destruct pre; [done|simpl in Hn; lia].
  - destruct pre as [|d pre]; [done|].
    change ((d :: pre) ++ c :: rest) with (d :: (pre ++ c :: rest)).
    cbn [removeAll].
    change (d :: pre ++ c :: rest) with ((d :: pre) ++ c :: rest).
    rewrite isPrefix_app_barrier by done.
    destruct (isPrefix pattern (d :: pre)) eqn:Hp.
    + apply bool_decide_eq_true in Hp.
      assert (Hlen : (length pattern <= length (d :: pre))%nat).
      { apply (f_equal length) in Hp. rewrite length_take in Hp. lia. }
      assert (Hnl' : ((d :: pre) ++ c :: rest) !! length pattern = Some 10%N
                     <-> (d :: pre) !! length pattern = Some 10%N).
      { destruct (decide (length pattern < length (d :: pre))%nat).
        - by rewrite lookup_app_l.
        - rewrite lookup_app_r by lia.
          replace (length pattern - length (d :: pre))%nat with 0%nat by lia.
          rewrite (lookup_ge_None_2 (d :: pre)) by lia. simpl.
          split; [by intros [= ?]|done]. }
      rewrite (bool_decide_ext _ _ Hnl').
      set (matched := if bool_decide ((d :: pre) !! length pattern = Some 10%N)
                      then S (length pattern) else length pattern).
      assert (Hm : (matched - 1 <= length pre)%nat).
      { unfold matched. case_bool_decide as Hx; [|simpl in Hlen; lia].
        apply lookup_lt_Some in Hx. simpl in Hx. lia. }
      rewrite !(removeAll_skip pattern _ (matched - 1)).
      rewrite drop_app_le by done.
      apply IH. rewrite length_drop. simpl in Hn. lia.
    + simpl. f_equal. apply IH. simpl in Hn. lia.
Qed.

Lemma trimStart_app_barrier a c rest :
  isSpace c = false -> trimStart (a ++ c :: rest) = trimStart a ++ c :: rest.
Proof.
  intros Hc. induction a as [|d a IH]; simpl; [by rewrite Hc|].
  by destruct (isSpace d).
Qed.

Lemma trimEnd_app_barrier a c rest :
  isSpace c = false -> trimEnd (a ++ c :: rest) = a ++ c :: trimEnd rest.
Proof.
  intros Hc. unfold trimEnd.
  rewrite reverse_app, reverse_cons, <- app_assoc. simpl.
  rewrite trimStart_app_barrier by done.
  rewrite reverse_app, reverse_cons, reverse_involutive.
  by rewrite <- app_assoc.
Qed.

Lemma indexOf_app c a rest :
  c ∉ a -> indexOf c (a ++ c :: rest) = Some (length a).
Proof.
  induction a as [|d a IH]; intros Hc; simpl.
  - by rewrite bool_decide_eq_true_2.
  - rewrite bool_decide_eq_false_2 by (intros ->; apply Hc; left).
    rewrite IH; [done|]. intros H. apply Hc. by right.
Qed.

Lemma lastIndexOf_None c s : c ∉ s -> lastIndexOf c s = None.
Proof.
  induction s as [|d s IH]; intros Hc; simpl; [done|].
  rewrite IH by (intros H; apply Hc; by right).
  rewrite bool_decide_eq_false_2; [done|]. intros ->. apply Hc. left.
Qed.

Lemma lastIndexOf_app c a rest :
  c ∉ rest -> lastIndexOf c (a ++ c :: rest) = Some (length a).
Proof.
  intros Hc. induction a as [|d a IH]; simpl.
  - rewrite lastIndexOf_None by done. by rewrite bool_decide_eq_true_2.
  - by rewrite IH.
Qed.

Lemma fenceFree_objectText body tail :
  fenceFree (objectText body) [] = true -> fenceFree (objectText body) tail = true.
Proof.
  intros H. apply fenceFree_intro; [done|].
  unfold objectText. rewrite last_cons, last_snoc. done.
Qed.

(** Taking a fence out of a text around an object that holds none. *)
Lemma removeAll_around_object pattern' pre body post :
  123%N ∉ fence ++ pattern' ->
  fenceFree (objectText body) [] = true ->
  removeAll (fence ++ pattern') 0 (pre ++ objectText body ++ post)
  = removeAll (fence ++ pattern') 0 pre ++ objectText body
    ++ removeAll (fence ++ pattern') 0 post.
Proof.
  intros Hpat Hfree.
  change (pre ++ objectText body ++ post)
    with (pre ++ 123%N :: ((body ++ [125%N]) ++ post)).
  assert (Hne : fence ++ pattern' <> []) by (by vm_compute).
  rewrite (removeAll_app_barrier _ _ _ Hne Hpat ltac:(done) (length pre)) by done.
  f_equal.
  change (123%N :: (body ++ [125%N]) ++ post) with (objectText body ++ post).
  by rewrite removeAll_fenceFree by (by apply fenceFree_objectText).
Qed.

(** The text around an object that holds no fence is dropped. *)
Lemma unfenced_around (pre body post : jsstring) :
  fenceFree (objectText body) [] = true ->
  unfenced (pre ++ objectText body ++ post)
  = trimStart (removeAll fence 0 (removeAll fenceJson 0 pre)) ++ objectText body
    ++ trimEnd (removeAll fence 0 (removeAll fenceJson 0 post)).
Proof.
  intros Hfree.
  set (pre' := removeAll fence 0 (removeAll fenceJson 0 pre)).
  set (post' := removeAll fence 0 (removeAll fenceJson 0 post)).
  unfold unfenced. change fenceJson with (fence ++ u "json").
  rewrite removeAll_around_object; [|by apply (bool_decide_unpack _)|done].
  change (removeAll fence 0) with (removeAll (fence ++ []) 0).
  rewrite removeAll_around_object; [|by apply (bool_decide_unpack _)|done].
  change (fence ++ []) with fence. change (fence ++ u "json") with fenceJson.
  fold pre' post'. unfold trim, objectText.
  change (pre' ++ (123%N :: body ++ [125%N]) ++ post')
    with (pre' ++ 123%N :: (body ++ [125%N]) ++ post').
  rewrite trimStart_app_barrier by done.
  replace (trimStart pre' ++ 123%N :: (body ++ [125%N]) ++ post')
    with ((trimStart pre' ++ 123%N :: body) ++ 125%N :: post')
    by (by rewrite <- !app_assoc).
  rewrite trimEnd_app_barrier by done.
  rewrite <- !app_assoc. simpl. by rewrite <- !app_assoc.
Qed.

Lemma cleanJsonResponse_around (pre body post : jsstring) :
  fenceFree (objectText body) [] = true ->
  123%N ∉ pre -> 125%N ∉ post ->
  cleanJsonResponse (pre ++ objectText body ++ post) = objectText body.
Proof.
  intros Hfree Hpre Hpost.
  set (pre' := removeAll fence 0 (removeAll fenceJson 0 pre)).
  set (post' := removeAll fence 0 (removeAll fenceJson 0 post)).
  pose proof (unfenced_around pre body post Hfree) as Hun. fold pre' post' in Hun.
  assert (Hpre' : 123%N ∉ trimStart pre').
  { intros H. apply Hpre. apply trimStart_elem_of in H.
    apply removeAll_elem_of in H. by apply removeAll_elem_of in H. }
  assert (Hpost' : 125%N ∉ trimEnd post').
  { intros H. apply Hpost. unfold trimEnd in H. rewrite elem_of_reverse in H.
    apply trimStart_elem_of in H. rewrite elem_of_reverse in H.
    apply removeAll_elem_of in H. by apply removeAll_elem_of in H. }
  rewrite (cleanJsonResponse_between _ (length (trimStart pre'))
             (length (trimStart pre' ++ 123%N :: body))).
  - rewrite Hun. unfold substring. rewrite drop_app_length.
    apply take_app_length'. unfold objectText.
    rewrite length_app, !length_cons, length_app. simpl. lia.
  - rewrite Hun. unfold objectText. simpl. by apply indexOf_app.
  - rewrite Hun. unfold objectText.
    replace (trimStart pre' ++ (123%N :: body ++ [125%N]) ++ trimEnd post')
      with ((trimStart pre' ++ 123%N :: body) ++ 125%N :: trimEnd post')
      by (rewrite <- !app_assoc; simpl; by rewrite <- !app_assoc).
    by apply lastIndexOf_app.
  - rewrite length_app. simpl. lia.
Qed.

(** X12.  [cleanJsonResponse] finds the object in the text around it.  A
    response that holds one object text without three backticks in a row,
    after text without an opening brace and before text without a closing
    brace (fences, a language tag, prose, blank lines), is cleaned to exactly
    that object text, and so parses as the object does; the object text on
    its own comes back as it is. *)
Theorem cleanJsonResponse_extracts_object (pre body post : jsstring) :
  fenceFree (objectText body) [] = true ->
  123%N ∉ pre -> 125%N ∉ post ->
  cleanJsonResponse (pre ++ objectText body ++ post) = objectText body /\
  parse (cleanJsonResponse (pre ++ objectText body ++ post))
  = parse (objectText body) /\
  cleanJsonResponse (objectText body) = objectText body.
Proof.
  intros Hfree Hpre Hpost.
  pose proof (cleanJsonResponse_around pre body post Hfree Hpre Hpost) as Hclean.
  split; [exact Hclean|]. split; [by rewrite Hclean|].
  pose proof (cleanJsonResponse_around [] body [] Hfree) as Hbare.
  rewrite app_nil_r in Hbare. apply Hbare; apply not_elem_of_nil.
Qed.

Lemma cleanJsonResponse_extracts_object_witness :
  fenceFree (objectText (u "")) [] = true /\
  (123%N ∉ u "Here is the roadmap: ```json") /\
  (125%N ∉ u "``` I hope it helps.") /\
  cleanJsonResponse
    (u "Here is the roadmap: ```json" ++ objectText (u "") ++ u "``` I hope it helps.")
  = objectText (u "").
Proof.
  assert (Hfree : fenceFree (objectText (u "")) [] = true) by (by vm_compute).
  assert (Hpre : 123%N ∉ u "Here is the roadmap: ```json")
    by (by apply (bool_decide_unpack _)).
  assert (Hpost : 125%N ∉ u "``` I hope it helps.")
    by (by apply (bool_decide_unpack _)).
  split; [exact Hfree|]. split; [exact Hpre|]. split; [exact Hpost|].
  exact (proj1 (cleanJsonResponse_extracts_object _ _ _ Hfree Hpre Hpost)).
Defined.

(** *** The result holds no fence *)

Lemma isPrefix_app pattern s tail :
  isPrefix pattern s = true -> isPrefix pattern (s ++ tail) = true.
Proof.
  unfold isPrefix. rewrite !bool_decide_eq_true. intros H.
  assert (length pattern <= length s)%nat.
  { apply (f_equal length) in H. rewrite length_take in H. lia. }
  by rewrite take_app_le.
Qed.

Lemma fenceFree_prefix x y : fenceFree (x ++ y) [] = true -> fenceFree x [] = true.
Proof.
  induction x as [|c x IH]; [done|].
  change ((c :: x) ++ y) with (c :: (x ++ y)). cbn [fenceFree].
  rewrite !andb_true_iff, !negb_true_iff. intros [Hc H]. split; [|by apply IH].
  destruct (fenceAt ((c :: x) ++ [])) eqn:Hf; [|done].
  rewrite <- Hc. unfold fenceAt in *. rewrite !app_nil_r in *.
  change (c :: x ++ y) with ((c :: x) ++ y). symmetry. by apply isPrefix_app.
Qed.

Lemma fenceFree_suffix x y : fenceFree (x ++ y) [] = true -> fenceFree y [] = true.
Proof.
  induction x as [|c x IH]; [done|].
  change ((c :: x) ++ y) with (c :: (x ++ y)). cbn [fenceFree].
  rewrite andb_true_iff. intros [_ H]. by apply IH.
Qed.

Lemma trimStart_suffix s : exists a, s = a ++ trimStart s.
Proof.
  induction s as [|c s [a IH]]; [by exists []|]. simpl.
  destruct (isSpace c); [|by exists []].
  exists (c :: a). simpl. by rewrite <- IH.
Qed.

Lemma trimEnd_prefix s : exists b, s = trimEnd s ++ b.
Proof.
  unfold trimEnd. destruct (trimStart_suffix (reverse s)) as [a Ha].
  exists (reverse a). rewrite <- reverse_app, <- Ha. by rewrite reverse_involutive.
Qed.

Lemma fenceFree_trim s : fenceFree s [] = true -> fenceFree (trim s) [] = true.
Proof.
  intros H. unfold trim.
  destruct (trimStart_suffix s) as [a Ha]. rewrite Ha in H.
  apply fenceFree_suffix in H.
  destruct (trimEnd_prefix (trimStart s)) as [b Hb]. rewrite Hb in H.
  by apply fenceFree_prefix in H.
Qed.

Lemma fenceFree_substring from to s :
  fenceFree s [] = true -> fenceFree (substring from to s) [] = true.
Proof.
  intros H. unfold substring.
  rewrite <- (take_drop from s) in H. apply fenceFree_suffix in H.
  rewrite <- (take_drop (to - from) (drop from s)) in H.
  by apply fenceFree_prefix in H.
Qed.

(** After a character that is not a backtick the text goes on as it did. *)
Lemma removeAll_fence_head s c rest :
  removeAll fence 0 s = c :: rest ->
  isPrefix fence s = false -> exists t, s = c :: t /\ rest = removeAll fence 0 t.
Proof.
  destruct s as [|d t]; [done|]. cbn [removeAll]. intros H Hp.
  rewrite Hp in H. injection H as -> <-. by exists t.
Qed.

Lemma removeAll_fence_free : forall n s,
  (length s <= n)%nat -> fenceFree (removeAll fence 0 s) [] = true.
Proof.
  induction n as [|n IH]; intros s Hn.
  - destruct s; [done|simpl in Hn; lia].
  - destruct s as [|c s]; [done|]. cbn [removeAll].
    destruct (isPrefix fence (c :: s)) eqn:Hp.
    + rewrite removeAll_skip. apply IH. rewrite length_drop. simpl in Hn. lia.
    + cbn [fenceFree]. rewrite andb_true_iff. split; [|apply IH; simpl in Hn; lia].
      apply negb_true_iff. rewrite app_nil_r.
      destruct (fenceAt (c :: removeAll fence 0 s)) eqn:Hf; [|done].
      exfalso. unfold fenceAt, isPrefix in Hf, Hp.
      apply bool_decide_eq_true in Hf. apply bool_decide_eq_false in Hp.
      apply Hp. clear Hp IH Hn.
      remember (removeAll fence 0 s) as out eqn:Hout. symmetry in Hout.
      change (take (length fence) (c :: out)) with (c :: take 2 out) in Hf.
      change (take (length fence) (c :: s)) with (c :: take 2 s).
      change fence with [96; 96; 96]%N in Hf |- *.
      destruct out as [|d1 [|d2 out]]; simpl in Hf; try discriminate.
      injection Hf as -> -> ->.
      destruct (isPrefix fence s) eqn:Hp1.
      { apply bool_decide_eq_true in Hp1. change fence with [96; 96; 96]%N in Hp1.
        destruct s as [|e1 [|e2 [|e3 s]]]; try discriminate.
        by simplify_eq/=. }
      apply removeAll_fence_head in Hout as (t & -> & Hout); [|done].
      symmetry in Hout.
      destruct (isPrefix fence t) eqn:Hp2.
      { apply bool_decide_eq_true in Hp2. change fence with [96; 96; 96]%N in Hp2.
        destruct t as [|e1 [|e2 [|e3 t]]]; try discriminate.
        by simplify_eq/=. }
      apply removeAll_fence_head in Hout as (t' & -> & _); [|done]. done.
Qed.

(** X13.  The result of [cleanJsonResponse] is in normal form: it holds no
    three backticks in a row, it neither starts nor ends with white
    space, and cleaning it again changes nothing. *)
Theorem cleanJsonResponse_normal_form (response : jsstring) :
  let cleaned := cleanJsonResponse response in
  fenceFree cleaned [] = true /\
  trim cleaned = cleaned /\
  cleanJsonResponse cleaned = cleaned.
Proof.
  intros cleaned.
  assert (Hun : fenceFree (unfenced response) [] = true).
  { unfold unfenced. apply fenceFree_trim. by eapply removeAll_fence_free. }
  assert (Htrim : trim cleaned = cleaned).
  { unfold cleaned, cleanJsonResponse. cbv zeta. apply trim_idemp. }
  assert (Hfree : fenceFree cleaned [] = true).
  { unfold cleaned, cleanJsonResponse. cbv zeta. fold (unfenced response).
    apply fenceFree_trim. repeat case_match; try done.
    by apply fenceFree_substring. }
  assert (Hsame : unfenced cleaned = cleaned).
  { unfold unfenced. change fenceJson with (fence ++ u "json").
    rewrite removeAll_no_fence by done.
    change (removeAll fence 0) with (removeAll (fence ++ []) 0).
    by rewrite removeAll_no_fence. }
  split; [exact Hfree|]. split; [exact Htrim|].
  destruct (indexOf 123 (unfenced response)) as [first|] eqn:Hf.
  - destruct (lastIndexOf 125 (unfenced response)) as [last|] eqn:Hl.
    + destruct (decide (first < last)%nat) as [Hlt|Hge].
      * assert (Hc : cleaned = substring first (last + 1) (unfenced response))
          by (by apply cleanJsonResponse_between).
        apply indexOf_lookup in Hf. apply lastIndexOf_lookup in Hl.
        pose proof (lookup_lt_Some _ _ _ Hl) as Hlen.
        assert (Hlenc : length cleaned = (last + 1 - first)%nat).
        { rewrite Hc. unfold substring. rewrite length_take, length_drop. lia. }
        assert (Hshape : exists body, cleaned = objectText body).
        { destruct cleaned as [|c0 rest] eqn:Hcl; [simpl in Hlenc; lia|].
          assert (Hc0 : c0 = 123%N).
          { assert (H0 : (c0 :: rest) !! 0%nat = Some 123%N).
            { rewrite Hc. unfold substring. rewrite lookup_take_lt by lia.
              by rewrite lookup_drop, Nat.add_0_r. }
            by injection H0. }
          destruct (rest) as [|c1 rest1] using rev_ind; [simpl in Hlenc; lia|].
          assert (Hc1 : c1 = 125%N).
          { assert (H1 : (c0 :: rest1 ++ [c1]) !! (last - first)%nat = Some 125%N).
            { rewrite Hc. unfold substring. rewrite lookup_take_lt by lia.
              rewrite lookup_drop. by replace (first + (last - first))%nat with last by lia. }
            rewrite length_cons, length_app in Hlenc. simpl in Hlenc.
            replace (last - first)%nat with (S (length rest1)) in H1 by lia.
            simpl in H1. rewrite lookup_app_r in H1 by lia.
            rewrite Nat.sub_diag in H1. by injection H1. }
          exists rest1. by rewrite Hc0, Hc1. }
        destruct Hshape as [body Hbody].
        rewrite (cleanJsonResponse_between _ 0%nat (length (123%N :: body))).
        -- rewrite Hsame, Hbody. unfold substring. rewrite drop_0.
           apply take_ge. unfold objectText.
           rewrite !length_cons, length_app. simpl. lia.
        -- rewrite Hsame, Hbody. by unfold objectText.
        -- rewrite Hsame, Hbody. unfold objectText.
           change (123%N :: body ++ [125%N]) with ((123%N :: body) ++ [125%N]).
           apply lastIndexOf_snoc.
        -- simpl. lia.
      * assert (Hc : cleaned = unfenced response).
        { apply cleanJsonResponse_otherwise. intros f l Hf' Hl'.
          rewrite Hf in Hf'. rewrite Hl in Hl'. by injection Hf' as <-; injection Hl' as <-. }
        rewrite cleanJsonResponse_otherwise; [done|]. intros f l Hf' Hl'.
        rewrite Hsame, Hc, Hf in Hf'. rewrite Hsame, Hc, Hl in Hl'.
        by injection Hf' as <-; injection Hl' as <-.
    + assert (Hc : cleaned = unfenced response).
      { apply cleanJsonResponse_otherwise. intros f l _ Hl'. by rewrite Hl in Hl'. }
      rewrite cleanJsonResponse_otherwise; [done|].
      intros f l _ Hl'. by rewrite Hsame, Hc, Hl in Hl'.
  - assert (Hc : cleaned = unfenced response).
    { apply cleanJsonResponse_otherwise. intros f l Hf'. by rewrite Hf in Hf'. }
    rewrite cleanJsonResponse_otherwise; [done|].
    intros f l Hf'. by rewrite Hsame, Hc, Hf in Hf'.
Qed.

End CleaningFacts.

(** ** Writing a value and reading it back *)

Module RoundTripFacts.

Import JSON Js Storable.

Local Open Scope N_scope.

(** Induction on a value, with the hypothesis for every element of an
    array and every member of an object. *)
Lemma json_induction (P : json -> Prop) :
  P JNull -> (forall b, P (JBool b)) -> (forall literal, P (JNumber literal)) ->
  (forall s, P (JString s)) ->
  (forall items, Forall P items -> P (JArray items)) ->
  (forall fields, Forall (fun kv => P kv.2) fields -> P (JObject fields)) ->
  forall j, P j.
Proof.
  intros Hnull Hbool Hnumber Hstring Harray Hobject.
  fix IH 1. intros [|b|literal|s|items|fields].
  - exact Hnull.
  - apply Hbool.
  - apply Hnumber.
  - apply Hstring.
  - apply Harray.
    exact ((fix all (items : list json) : Forall P items :=
              match items with
              | [] => Forall_nil_2 P
              | x :: rest => Forall_cons_2 P x rest (IH x) (all rest)
              end) items).
  - apply Hobject.
    exact ((fix all (fields : list (jsstring * json))
              : Forall (fun kv => P kv.2) fields :=
              match fields with
              | [] => Forall_nil_2 _
              | kv :: rest => Forall_cons_2 _ kv rest (IH kv.2) (all rest)
              end) fields).
Qed.

(** *** Strings *)

Lemma hexValue_hexDigit n : n < 16 -> hexValue (hexDigit n) = Some n.
Proof.
  intros Hn. unfold hexValue, hexDigit, isDigit.
  destruct (n <? 10) eqn:H10.
  - apply N.ltb_lt in H10.
    rewrite (proj2 (N.leb_le 48 (48 + n))) by lia.
    rewrite (proj2 (N.leb_le (48 + n) 57)) by lia. simpl. f_equal. lia.
  - apply N.ltb_ge in H10.
    rewrite (proj2 (N.leb_gt (87 + n) 57)) by lia. rewrite andb_false_r.
    rewrite (proj2 (N.leb_le 97 (87 + n))) by lia.
    rewrite (proj2 (N.leb_le (87 + n) 102)) by lia. simpl. f_equal. lia.
Qed.

Lemma hex_digits c :
  c < 65536 ->
  ((c / 4096 mod 16 * 16 + c / 256 mod 16) * 16 + c / 16 mod 16) * 16 + c mod 16 = c.
Proof.
  intros Hc.
  assert (E1 : c / 16 / 16 = c / 256) by (by rewrite N.Div0.div_div).
  assert (E2 : c / 256 / 16 = c / 4096) by (by rewrite N.Div0.div_div).
  pose proof (N.div_mod c 16 ltac:(done)) as H0.
  pose proof (N.div_mod (c / 16) 16 ltac:(done)) as H1.
  pose proof (N.div_mod (c / 256) 16 ltac:(done)) as H2.
  rewrite E1 in H1. rewrite E2 in H2.
  assert (H3 : c / 4096 mod 16 = c / 4096).
  { apply N.mod_small. apply N.Div0.div_lt_upper_bound. lia. }
  rewrite H3. lia.
Qed.

Lemma parseChars_escapeUnit c t :
  c < 65536 ->
  parseChars (escapeUnit c ++ t)
  = match parseChars t with
    | Some (cs, r) => Some (c :: cs, r)
    | None => None
    end.
Proof.
  intros Hc. unfold escapeUnit.
  change (parseChars ([92; 117; hexDigit (c / 4096 mod 16); hexDigit (c / 256 mod 16);
                       hexDigit (c / 16 mod 16); hexDigit (c mod 16)] ++ t))
    with (match hexValue (hexDigit (c / 4096 mod 16)),
                hexValue (hexDigit (c / 256 mod 16)),
                hexValue (hexDigit (c / 16 mod 16)),
                hexValue (hexDigit (c mod 16)) with
          | Some a, Some b, Some c', Some d =>
              match parseChars t with
              | Some (cs, r) => Some (((a * 16 + b) * 16 + c') * 16 + d :: cs, r)
              | None => None
              end
          | _, _, _, _ => None
          end).
  rewrite !hexValue_hexDigit by (by apply N.mod_lt).
  by rewrite hex_digits.
Qed.

Lemma parseChars_plain c t :
  c <> 34 -> 32 <= c -> c <> 92 ->
  parseChars (c :: t)
  = match parseChars t with
    | Some (cs, r) => Some (c :: cs, r)
    | None => None
    end.
Proof.
  intros H34 H32 H92. cbn [parseChars].
  rewrite (proj2 (N.eqb_neq c 34)) by done.
  rewrite (proj2 (N.ltb_ge c 32)) by done.
  by rewrite (proj2 (N.eqb_neq c 92)) by done.
Qed.

Lemma wfString_cons c s : wfString (c :: s) = true -> c < 65536 /\ wfString s = true.
Proof.
  unfold wfString. simpl. rewrite andb_true_iff, N.ltb_lt. done.
Qed.

(** A quoted string is read back as the string. *)
Lemma parseChars_quoteChars rest : forall n s,
  (length s <= n)%nat -> wfString s = true ->
  parseChars (quoteChars s ++ 34 :: rest) = Some (s, rest).
Proof.
  induction n as [|n IH]; intros s Hn Hwf.
  { destruct s; [done|simpl in Hn; lia]. }
  destruct s as [|c s]; [done|].
  apply wfString_cons in Hwf as [Hc Hwf]. cbn [quoteChars].
  assert (Hs : parseChars (quoteChars s ++ 34 :: rest) = Some (s, rest)).
  { apply IH; [simpl in Hn; lia|done]. }
  assert (Hescape : parseChars ((escapeUnit c ++ quoteChars s) ++ 34 :: rest)
                    = Some (c :: s, rest)).
  { rewrite <- app_assoc, parseChars_escapeUnit by done. by rewrite Hs. }
  unfold isHighSurrogate, isLowSurrogate.
  destruct ((55296 <=? c) && (c <=? 56319)) eqn:Hhigh.
  - apply andb_true_iff in Hhigh as [H1 H2]. apply N.leb_le in H1, H2.
    destruct s as [|d s']; [by rewrite parseChars_escapeUnit|].
    destruct ((56320 <=? d) && (d <=? 57343)) eqn:Hlow; [|exact Hescape].
    apply andb_true_iff in Hlow as [H3 H4]. apply N.leb_le in H3, H4.
    apply wfString_cons in Hwf as [Hd Hwf'].
    change ((c :: d :: quoteChars s') ++ 34 :: rest)
      with (c :: d :: (quoteChars s' ++ 34 :: rest)).
    rewrite !parseChars_plain by lia.
    rewrite IH; [done|simpl in Hn; lia|done].
  - destruct ((56320 <=? c) && (c <=? 57343)) eqn:Hlow; [exact Hescape|].
    destruct (c =? 34) eqn:H34; [apply N.eqb_eq in H34 as ->; simpl; by rewrite Hs|].
    destruct (c =? 92) eqn:H92; [apply N.eqb_eq in H92 as ->; simpl; by rewrite Hs|].
    destruct (c =? 8) eqn:H8; [apply N.eqb_eq in H8 as ->; simpl; by rewrite Hs|].
    destruct (c =? 12) eqn:H12; [apply N.eqb_eq in H12 as ->; simpl; by rewrite Hs|].
    destruct (c =? 10) eqn:H10; [apply N.eqb_eq in H10 as ->; simpl; by rewrite Hs|].
    destruct (c =? 13) eqn:H13; [apply N.eqb_eq in H13 as ->; simpl; by rewrite Hs|].
    destruct (c =? 9) eqn:H9; [apply N.eqb_eq in H9 as ->; simpl; by rewrite Hs|].
    destruct (c <? 32) eqn:H32; [exact Hescape|].
    apply N.eqb_neq in H34, H92. apply N.ltb_ge in H32.
    change ((c :: quoteChars s) ++ 34 :: rest) with (c :: (quoteChars s ++ 34 :: rest)).
    rewrite parseChars_plain by done. by rewrite Hs.
Qed.

Lemma parseChars_quote s rest :
  wfString s = true -> parseChars (quoteChars s ++ [34] ++ rest) = Some (s, rest).
Proof. intros Hwf. by apply (parseChars_quoteChars rest (length s)). Qed.

(** *** Numbers *)

Lemma delimited_cases rest :
  delimited rest = true ->
  rest = [] \/ exists c r, rest = c :: r /\ (c = 44 \/ c = 93 \/ c = 125).
Proof.
  destruct rest as [|c r]; [by left|]. simpl.
  rewrite !orb_true_iff, !N.eqb_eq. intros H. right. exists c, r. tauto.
Qed.

Lemma spanDigits_app ds rest :
  forallb isDigit ds = true -> delimited rest = true ->
  spanDigits (ds ++ rest) = (ds, rest).
Proof.
  intros Hds Hrest. induction ds as [|d ds IH]; simpl.
  - apply delimited_cases in Hrest as [->|(c & r & -> & [->|[->| ->]])]; done.
  - simpl in Hds. apply andb_true_iff in Hds as [Hd Hds].
    rewrite Hd, IH by done. done.
Qed.

Lemma plainDigits_spec ds :
  plainDigits ds = true ->
  forallb isDigit ds = true /\
  exists d rest, ds = d :: rest /\ ((d =? 48) && negb (bool_decide (rest = [])) = false).
Proof.
  unfold plainDigits. destruct ds as [|d [|e rest]]; [done| |].
  - intros Hd. split; [simpl; by rewrite Hd|].
    exists d, []. split; [done|]. by rewrite andb_false_r.
  - rewrite !andb_true_iff, negb_true_iff. intros [[[Hd H48] Hrest] _].
    split; [cbn [forallb]; by rewrite Hd|].
    exists d, (e :: rest). split; [done|]. by rewrite H48.
Qed.

Lemma parseNumber_canonical literal rest :
  canonicalNumber literal = true -> delimited rest = true ->
  parseNumber (literal ++ rest) = Some (literal, rest).
Proof.
  unfold canonicalNumber. destruct literal as [|c ds]; [done|].
  intros Hlit Hrest. unfold parseNumber.
  change ((c :: ds) ++ rest) with (c :: (ds ++ rest)).
  destruct (c =? 45) eqn:Hc.
  - apply N.eqb_eq in Hc as ->. apply andb_true_iff in Hlit as [Hds _].
    apply plainDigits_spec in Hds as (Hall & d & ds' & -> & Hzero).
    change (45 =? 45) with true. cbv beta iota.
    rewrite spanDigits_app by done. rewrite Hzero.
    apply delimited_cases in Hrest as [->|(c & r & -> & [->|[->| ->]])];
      simpl; by rewrite app_nil_r.
  - apply plainDigits_spec in Hlit as (Hall & d & ds' & Heq & Hzero).
    injection Heq as <- <-.
    rewrite Hc. cbv beta iota.
    change (c :: ds ++ rest) with ((c :: ds) ++ rest).
    rewrite spanDigits_app by done. cbv beta iota. rewrite Hzero.
    apply delimited_cases in Hrest as [->|(c' & r & -> & [->|[->| ->]])];
      simpl; by rewrite app_nil_r.
Qed.

(** *** Values *)

Lemma isPrefix_head p ps c l : c <> p -> isPrefix (p :: ps) (c :: l) = false.
Proof.
  intros Hne. unfold isPrefix. apply bool_decide_eq_false. simpl.
  intros Heq. by injection Heq.
Qed.

(** The first character of a number. *)
Lemma canonicalNumber_head literal :
  canonicalNumber literal = true ->
  exists c t, literal = c :: t /\ (c = 45 \/ (48 <= c /\ c <= 57)).
Proof.
  unfold canonicalNumber. destruct literal as [|c t]; [done|]. intros H.
  exists c, t. split; [done|].
  destruct (c =? 45) eqn:Hc; [left; by apply N.eqb_eq|right].
  apply plainDigits_spec in H as (Hall & _). simpl in Hall.
  apply andb_true_iff in Hall as [Hd _]. unfold isDigit in Hd.
  apply andb_true_iff in Hd as [H1 H2]. by apply N.leb_le in H1, H2.
Qed.

(** A text written by [JSON.stringify] starts with a character that is
    neither white space nor a closing bracket or brace. *)
Lemma stringify_head j :
  wfJson j = true ->
  exists c t, stringify j = c :: t /\ isWs c = false /\
    (c =? 93) = false /\ (c =? 125) = false.
Proof.
  destruct j as [|[|]|literal|s|items|fields]; intros Hwf;
    try (eexists _, _; split; [reflexivity|by vm_compute]).
  simpl in Hwf. apply canonicalNumber_head in Hwf as (c & t & -> & Hc).
  exists c, t. split; [done|]. unfold isWs.
  rewrite !(proj2 (N.eqb_neq c _)) by lia. done.
Qed.

Lemma skipWs_stringify j rest :
  wfJson j = true -> skipWs (stringify j ++ rest) = stringify j ++ rest.
Proof.
  intros Hwf. destruct (stringify_head j Hwf) as (c & t & -> & Hws & _).
  simpl. by rewrite Hws.
Qed.

Lemma readsBack_elements (items : list json) :
  Forall readsBack items -> forallb wfJson items = true -> items <> [] ->
  forall acc fuel rest,
    (length (elementsText items) + 2 <= fuel)%nat ->
    parseFrom fuel (MElements acc) (elementsText items ++ 93 :: rest)
    = Some (JArray (acc ++ items), rest).
Proof.
  induction items as [|x items IH]; [done|].
  intros Hall Hwf _ acc fuel rest Hfuel.
  apply Forall_cons in Hall as [Hx Hall].
  cbn [forallb] in Hwf. apply andb_true_iff in Hwf as [Hwfx Hwf].
  destruct fuel as [|fuel]; [lia|]. cbn [parseFrom].
  destruct items as [|y more].
  - change (elementsText [x]) with (stringify x) in *.
    rewrite (Hx Hwfx fuel (93 :: rest)) by (done || lia).
    reflexivity.
  - change (elementsText (x :: y :: more))
      with (stringify x ++ [44] ++ elementsText (y :: more)) in *.
    rewrite !length_app in Hfuel. cbn [length] in Hfuel.
    rewrite <- !app_assoc.
    rewrite (Hx Hwfx fuel ([44] ++ elementsText (y :: more) ++ 93 :: rest))
      by (done || lia).
    change (skipWs ([44] ++ elementsText (y :: more) ++ 93 :: rest))
      with (44 :: (elementsText (y :: more) ++ 93 :: rest)).
    cbv beta iota. change (44 =? 44) with true. cbv beta iota.
    rewrite (IH Hall Hwf ltac:(done) (acc ++ [x]) fuel rest) by lia.
    by rewrite <- app_assoc.
Qed.

Lemma wfKey_wfString k : wfKey k = true -> wfString k = true.
Proof. unfold wfKey. by intros [? _]%andb_true_iff. Qed.

Lemma readsBack_members (fields : list (jsstring * json)) :
  Forall (fun kv => readsBack kv.2) fields ->
  forallb (fun kv => wfKey kv.1 && wfJson kv.2) fields = true -> fields <> [] ->
  forall acc fuel rest,
    (length (membersText fields) + 2 <= fuel)%nat ->
    parseFrom fuel (MMembers acc) (membersText fields ++ 125 :: rest)
    = Some (JObject (acc ++ fields), rest).
Proof.
  induction fields as [|[k v] fields IH]; [done|].
  intros Hall Hwf _ acc fuel rest Hfuel.
  apply Forall_cons in Hall as [Hv Hall]. simpl in Hv.
  cbn [forallb] in Hwf. apply andb_true_iff in Hwf as [Hwfkv Hwf].
  apply andb_true_iff in Hwfkv as [Hwfk Hwfv]. simpl in Hwfk, Hwfv.
  apply wfKey_wfString in Hwfk.
  destruct fuel as [|fuel]; [lia|]. cbn [parseFrom].
  destruct fields as [|[k' v'] more].
  - change (membersText [(k, v)]) with (quote k ++ [58] ++ stringify v) in *.
    rewrite !length_app in Hfuel. cbn [length] in Hfuel.
    unfold quote. rewrite <- !app_assoc.
    change (skipWs ([34] ++ quoteChars k ++ [34] ++ [58] ++ stringify v ++ 125 :: rest))
      with (34 :: (quoteChars k ++ [34] ++ [58] ++ stringify v ++ 125 :: rest)).
    cbv beta iota. change (34 =? 34) with true. cbv beta iota.
    rewrite parseChars_quote by done.
    change (skipWs ([58] ++ stringify v ++ 125 :: rest))
      with (58 :: (stringify v ++ 125 :: rest)).
    cbv beta iota. change (58 =? 58) with true. cbv beta iota.
    rewrite (Hv Hwfv fuel (125 :: rest)) by (done || lia).
    reflexivity.
  - change (membersText ((k, v) :: (k', v') :: more))
      with (quote k ++ [58] ++ stringify v ++ [44] ++ membersText ((k', v') :: more))
      in *.
    rewrite !length_app in Hfuel. cbn [length] in Hfuel.
    unfold quote. rewrite <- !app_assoc.
    change (skipWs ([34] ++ quoteChars k ++ [34] ++ [58] ++ stringify v ++ [44]
                    ++ membersText ((k', v') :: more) ++ 125 :: rest))
      with (34 :: (quoteChars k ++ [34] ++ [58] ++ stringify v ++ [44]
                   ++ membersText ((k', v') :: more) ++ 125 :: rest)).
    cbv beta iota. change (34 =? 34) with true. cbv beta iota.
    rewrite parseChars_quote by done.
    change (skipWs ([58] ++ stringify v ++ [44]
                    ++ membersText ((k', v') :: more) ++ 125 :: rest))
      with (58 :: (stringify v ++ [44]
                   ++ membersText ((k', v') :: more) ++ 125 :: rest)).
    cbv beta iota. change (58 =? 58) with true. cbv beta iota.
    rewrite (Hv Hwfv fuel ([44] ++ membersText ((k', v') :: more) ++ 125 :: rest))
      by (done || lia).
    change (skipWs ([44] ++ membersText ((k', v') :: more) ++ 125 :: rest))
      with (44 :: (membersText ((k', v') :: more) ++ 125 :: rest)).
    cbv beta iota. change (44 =? 44) with true. cbv beta iota.
    rewrite (IH Hall Hwf ltac:(done) (acc ++ [(k, v)]) fuel rest) by lia.
    by rewrite <- app_assoc.
Qed.

Lemma elementsText_head x items :
  wfJson x = true ->
  exists c t, elementsText (x :: items) = c :: t /\ isWs c = false /\
    (c =? 93) = false.
Proof.
  intros Hwf. destruct (stringify_head x Hwf) as (c & t & Hs & Hws & H93 & _).
  destruct items as [|y more].
  - exists c, t. by rewrite <- Hs.
  - exists c, (t ++ [44] ++ elementsText (y :: more)).
    change (elementsText (x :: y :: more))
      with (stringify x ++ [44] ++ elementsText (y :: more)).
    by rewrite Hs.
Qed.

Lemma length_elementsText_pos x items :
  wfJson x = true -> (0 < length (elementsText (x :: items)))%nat.
Proof.
  intros Hwf. destruct (elementsText_head x items Hwf) as (c & t & -> & _).
  simpl. lia.
Qed.

(** Every storable value is read back. *)
Lemma readsBack_all j : readsBack j.
Proof.
  induction j as [|b|literal|s|items IH|fields IH] using json_induction;
    intros Hwf fuel rest Hrest Hfuel;
    (destruct fuel as [|fuel]; [lia|]).
  - by vm_compute.
  - destruct b; by vm_compute.
  - simpl in Hwf. pose proof (canonicalNumber_head _ Hwf) as (c & t & Hlit & Hc).
    pose proof (skipWs_stringify (JNumber literal) rest Hwf) as Hskip.
    cbn [parseFrom stringify] in *. rewrite Hskip. subst literal.
    change ((c :: t) ++ rest) with (c :: (t ++ rest)). cbv beta iota.
    rewrite !(proj2 (N.eqb_neq c _)) by lia.
    rewrite !isPrefix_head by lia.
    change (c :: t ++ rest) with ((c :: t) ++ rest).
    by rewrite parseNumber_canonical.
  - simpl in Hwf. cbn [parseFrom stringify]. unfold quote. rewrite <- !app_assoc.
    change (skipWs ([34] ++ quoteChars s ++ [34] ++ rest))
      with (34 :: (quoteChars s ++ [34] ++ rest)).
    cbv beta iota. change (34 =? 123) with false. change (34 =? 91) with false.
    change (34 =? 34) with true. cbv beta iota.
    by rewrite parseChars_quote.
  - simpl in Hwf. change (stringify (JArray items)) with ([91] ++ elementsText items ++ [93]) in *.
    rewrite !length_app in Hfuel. cbn [length] in Hfuel.
    rewrite <- !app_assoc. cbn [parseFrom].
    change (skipWs ([91] ++ elementsText items ++ [93] ++ rest))
      with (91 :: (elementsText items ++ [93] ++ rest)).
    cbv beta iota. change (91 =? 123) with false. change (91 =? 91) with true.
    cbv beta iota.
    destruct items as [|x items]; [reflexivity|].
    cbn [forallb] in Hwf. pose proof Hwf as Hwf'.
    apply andb_true_iff in Hwf' as [Hwfx _].
    destruct (elementsText_head x items Hwfx) as (c & t & Hhead & Hws & H93).
    rewrite Hhead at 1.
    change (skipWs ((c :: t) ++ [93] ++ rest))
      with (if isWs c then skipWs (t ++ [93] ++ rest) else c :: (t ++ [93] ++ rest)).
    rewrite Hws. cbv beta iota. rewrite H93.
    change ([93] ++ rest) with (93 :: rest).
    by rewrite (readsBack_elements (x :: items) IH Hwf ltac:(done) [] fuel rest) by lia.
  - simpl in Hwf. apply andb_true_iff in Hwf as [Hwf _].
    change (stringify (JObject fields)) with ([123] ++ membersText fields ++ [125]) in *.
    rewrite !length_app in Hfuel. cbn [length] in Hfuel.
    rewrite <- !app_assoc. cbn [parseFrom].
    change (skipWs ([123] ++ membersText fields ++ [125] ++ rest))
      with (123 :: (membersText fields ++ [125] ++ rest)).
    cbv beta iota. change (123 =? 123) with true. cbv beta iota.
    destruct fields as [|[k v] fields]; [reflexivity|].
    assert (Hhead : exists t, membersText ((k, v) :: fields) = 34 :: t).
    { destruct fields as [|[k' v'] more]; eexists; reflexivity. }
    destruct Hhead as [t Hhead]. rewrite Hhead at 1.
    change (skipWs ((34 :: t) ++ [125] ++ rest)) with (34 :: (t ++ [125] ++ rest)).
    cbv beta iota. change (34 =? 125) with false. cbv beta iota.
    change ([125] ++ rest) with (125 :: rest).
    by rewrite (readsBack_members ((k, v) :: fields) IH Hwf ltac:(done) [] fuel rest)
      by lia.
Qed.

(** [JSON.parse(JSON.stringify(value))] is the value. *)
Lemma parse_stringify j : wfJson j = true -> parse (stringify j) = Some j.
Proof.
  intros Hwf. unfold parse.
  rewrite <- (app_nil_r (stringify j)) at 2.
  rewrite (readsBack_all j Hwf _ [] eq_refl) by lia. done.
Qed.

Lemma stringify_nonempty j : wfJson j = true -> stringify j <> [].
Proof. intros Hwf. by destruct (stringify_head j Hwf) as (c & t & -> & _). Qed.

End RoundTripFacts.

(** ** The generators *)

Module GenerationFacts.

Import Limiter LimiterFacts QuotaFacts JSON Js Gemini GeminiFacts DispatchFacts
  CleaningFacts Generation.

Section Generators.

Variable network : Z -> jsstring -> jsstring -> Z * Answer.
Variable API_KEYS : list jsstring.
Variable structurePrompt : jsstring -> jsstring -> jsstring.
Variable coursePrompt : jsstring -> jsstring -> jsstring -> jsstring.
Variable quizPrompt : jsstring -> jsstring -> jsstring -> jsstring.

(** Without a key to use [makeRequest] throws and leaves the requests sent
    as they are. *)
Lemma makeRequest_no_key prompt requestId w :
  API_KEYS = [] \/
  (forall key, key ∈ keyPool (limiter w) -> eligible (clock w) (limiter w) key = false) ->
  exists message w',
    makeRequest network API_KEYS prompt requestId w = (Some (Threw message), w') /\
    message = (if bool_decide (API_KEYS = []) then msgNoKeys else msgBusy) /\
    sent w' = sent w /\ clock w' = clock w.
Proof.
  intros Hno. unfold makeRequest. destruct (decide (API_KEYS = [])) as [->|Hne].
  - exists msgNoKeys, w. by rewrite !bool_decide_eq_true_2.
  - destruct Hno as [?|Hno]; [done|].
    rewrite bool_decide_eq_false_2 by (by destruct API_KEYS).
    pose proof (getAvailableKeys_none (clock w) 1 (limiter w) Hno) as Hnone.
    destruct (getAvailableKeys (clock w) 1 (limiter w)) as [availableKeys rl1].
    simpl in Hnone. subst availableKeys.
    exists msgBusy, (withLimiter rl1 w). by rewrite bool_decide_eq_false_2.
Qed.

(** X14.  What [generateRoadmap] ends with.  Stored learning preferences that
    do not parse end the call with the parser's error, before anything is
    sent and after the first progress report only.  Otherwise the call
    leaves the world as its one [makeRequest] does and either returns the
    parsed roadmap or throws one fixed message, whatever went wrong, or does
    not end, when its request does not; the last progress report is made
    exactly when a roadmap is returned and [onProgress] was passed. *)
Theorem generateRoadmap_outcomes (subject difficulty : jsstring) (onProgress : bool)
    (st : UserService.Storage) (w : World) :
  let r := generateRoadmap network API_KEYS structurePrompt subject difficulty
             onProgress st w in
  let q := makeRequest network API_KEYS (structurePrompt subject difficulty)
             (u "roadmap-structure") w in
  (parse (storedPreferences st) = None ->
   r = (Some (Threw syntaxErrorMessage), if onProgress then [initializing] else [], w)) /\
  (is_Some (parse (storedPreferences st)) ->
   r.2 = q.2 /\
   (r.1.1 = Some (Threw msgRoadmapFailed) \/
    (exists response data,
       q.1 = Some (Returned response) /\
       parse (cleanJsonResponse response) = Some data /\
       r.1.1 = Some (Returned data)) \/
    (q.1 = None /\ r.1.1 = None)) /\
   (succeeded ∈ r.1.2 <->
    onProgress = true /\ exists data, r.1.1 = Some (Returned data)) /\
   ((exists message, q.1 = Some (Threw message)) ->
    r.1.1 = Some (Threw msgRoadmapFailed)) /\
   (q.1 = None -> r.1.1 = None)).
Proof.
  intros r q. subst r q. unfold generateRoadmap. split.
  - by intros ->.
  - intros [preferences ->].
    assert (Hnot : forall l : list Report,
              l = [] \/ l = [initializing; generating] -> succeeded ∉ l).
    { intros l [->| ->] H; [by apply elem_of_nil in H|].
      unfold succeeded, initializing, generating in H.
      apply elem_of_cons in H as [H|H]; [discriminate H|].
      apply elem_of_cons in H as [H|H]; [discriminate H|].
      by apply elem_of_nil in H. }
    destruct (makeRequest network API_KEYS (structurePrompt subject difficulty)
                (u "roadmap-structure") w) as [[[response|message]|] w1]; simpl.
    + destruct (parse (cleanJsonResponse response)) as [data|] eqn:Hparse; simpl.
      * split; [done|]. split; [right; left; by exists response, data|].
        split; [|split; [by intros [? ?]|done]].
        destruct onProgress; simpl.
        -- split; [eauto|]. intros _. rewrite !elem_of_cons. tauto.
        -- split; [by intros ?%elem_of_nil|by intros [? _]].
      * split; [done|]. split; [by left|].
        split; [|split; [by intros [? ?]|done]].
        split; [|by intros [_ [? ?]]].
        intros H. exfalso. revert H. apply Hnot. destruct onProgress; auto.
    + split; [done|]. split; [by left|]. split; [|done].
      split; [|by intros [_ [? ?]]].
      intros H. exfalso. revert H. apply Hnot. destruct onProgress; auto.
    + split; [done|]. split; [by right; right|].
      split; [|split; [by intros [? ?]|done]].
      split; [|by intros [_ [? ?]]].
      intros H. exfalso. revert H. apply Hnot. destruct onProgress; auto.
Qed.

(** X15.  The generators without a key to use.  When no key is configured, or
    none of the pool passes the tests of the selection, no request is sent.
    [generateCourseContent] and [generateQuiz] throw the dispatcher's
    message, which tells the two cases apart; [generateRoadmap] throws its
    one fixed message (given stored preferences that parse). *)
Theorem generators_without_key (chapterTitle subject difficulty random : jsstring)
    (onProgress : bool) (st : UserService.Storage) (w : World) :
  API_KEYS = [] \/
  (forall key, key ∈ keyPool (limiter w) -> eligible (clock w) (limiter w) key = false) ->
  let message := if bool_decide (API_KEYS = []) then msgNoKeys else msgBusy in
  let course := generateCourseContent network API_KEYS coursePrompt
                  chapterTitle subject difficulty random w in
  let quiz := generateQuiz network API_KEYS quizPrompt
                chapterTitle subject difficulty random w in
  let roadmap := generateRoadmap network API_KEYS structurePrompt subject difficulty
                   onProgress st w in
  (course.1 = Some (Threw message) /\ sent course.2 = sent w) /\
  (quiz.1 = Some (Threw message) /\ sent quiz.2 = sent w) /\
  (is_Some (parse (storedPreferences st)) ->
   roadmap.1.1 = Some (Threw msgRoadmapFailed) /\ sent roadmap.2 = sent w) /\
  msgNoKeys <> msgBusy /\ msgRoadmapFailed <> msgNoKeys /\ msgRoadmapFailed <> msgBusy.
Proof.
  intros Hno message course quiz roadmap.
  subst course quiz roadmap. unfold generateCourseContent, generateQuiz, requestJson.
  split; [|split; [|split]].
  - destruct (makeRequest_no_key (coursePrompt chapterTitle subject difficulty)
                (u "course-" ++ random) w Hno) as (m & w' & -> & -> & Hsent & _).
    done.
  - destruct (makeRequest_no_key (quizPrompt chapterTitle subject difficulty)
                (u "quiz-" ++ random) w Hno) as (m & w' & -> & -> & Hsent & _).
    done.
  - intros [preferences Hp]. unfold generateRoadmap. rewrite Hp.
    destruct (makeRequest_no_key (structurePrompt subject difficulty)
                (u "roadmap-structure") w Hno) as (m & w' & -> & _ & Hsent & _).
    done.
  - split_and!; by vm_compute.
Qed.

(** [requestJson] when a key can be used and the reply holds one object. *)
Lemma requestJson_object prompt requestId w pre body post :
  API_KEYS <> [] ->
  (exists key, key ∈ keyPool (limiter w) /\ eligible (clock w) (limiter w) key = true) ->
  (forall apiKey,
     exists ms s,
       awaitReply network (clock w) prompt apiKey = Some (ms, s) /\
       completionOf s = Returned (pre ++ objectText body ++ post)) ->
  fenceFree (objectText body) [] = true -> 123%N ∉ pre -> 125%N ∉ post ->
  exists apiKey w',
    makeRequest network API_KEYS prompt requestId w
    = (Some (Returned (pre ++ objectText body ++ post)), w') /\
    parse (cleanJsonResponse (pre ++ objectText body ++ post))
    = parse (objectText body) /\
    sent w' = sent w ++ [(requestId, apiKey)] /\
    apiKey ∈ keyPool (limiter w) /\ eligible (clock w) (limiter w) apiKey = true.
Proof.
  intros Hkeys Hel Hreply Hfree Hpre Hpost.
  destruct (makeRequest_selected network API_KEYS prompt requestId w Hkeys Hel)
    as (apiKey & Hsel & ->).
  assert (Hin : apiKey ∈ (getAvailableKeys (clock w) 1 (limiter w)).1)
    by (rewrite Hsel; left).
  pose proof (cleanJsonResponse_around pre body post Hfree Hpre Hpost) as Hclean.
  destruct (Hreply apiKey) as (ms & s & Hawait & Hcompletion).
  unfold makeRequestWithKey. cbn [clock limiter sent withLimiter].
  rewrite Hawait. unfold settle. rewrite Hcompletion. eexists apiKey, _.
  split; [reflexivity|]. split; [by rewrite Hclean|]. split; [done|].
  split; [by eapply getAvailableKeys_pool|by eapply getAvailableKeys_eligible].
Qed.

(** X16.  A reply that holds one object gives that object.  When a key can be
    used and the endpoint answers with a text that holds one object text
    (without three backticks in a row, after text without an opening brace,
    before text without a closing brace), each generator sends one request
    under its own request id and returns the object as parsed;
    [generateRoadmap] makes its three progress reports in order. *)
Theorem generators_return_the_object
    (chapterTitle subject difficulty random pre body post : jsstring) (data : json)
    (st : UserService.Storage) (w : World) :
  API_KEYS <> [] ->
  (exists key, key ∈ keyPool (limiter w) /\ eligible (clock w) (limiter w) key = true) ->
  (forall prompt apiKey,
     exists ms s,
       awaitReply network (clock w) prompt apiKey = Some (ms, s) /\
       completionOf s = Returned (pre ++ objectText body ++ post)) ->
  fenceFree (objectText body) [] = true -> 123%N ∉ pre -> 125%N ∉ post ->
  parse (objectText body) = Some data ->
  is_Some (parse (storedPreferences st)) ->
  (exists apiKey w',
     generateRoadmap network API_KEYS structurePrompt subject difficulty true st w
     = (Some (Returned data), [initializing; generating; succeeded], w') /\
     sent w' = sent w ++ [(u "roadmap-structure", apiKey)]) /\
  (exists apiKey w',
     generateCourseContent network API_KEYS coursePrompt chapterTitle subject
       difficulty random w = (Some (Returned data), w') /\
     sent w' = sent w ++ [(u "course-" ++ random, apiKey)]) /\
  (exists apiKey w',
     generateQuiz network API_KEYS quizPrompt chapterTitle subject difficulty random w
     = (Some (Returned data), w') /\
     sent w' = sent w ++ [(u "quiz-" ++ random, apiKey)]).
Proof.
  intros Hkeys Hel Hreply Hfree Hpre Hpost Hdata [preferences Hprefs].
  split; [|split].
  - destruct (requestJson_object (structurePrompt subject difficulty)
                (u "roadmap-structure") w pre body post Hkeys Hel (Hreply _)
                Hfree Hpre Hpost) as (apiKey & w' & Hreq & Hparse & Hsent & _).
    exists apiKey, w'. unfold generateRoadmap.
    by rewrite Hprefs, Hreq, Hparse, Hdata.
  - destruct (requestJson_object (coursePrompt chapterTitle subject difficulty)
                (u "course-" ++ random) w pre body post Hkeys Hel (Hreply _)
                Hfree Hpre Hpost) as (apiKey & w' & Hreq & Hparse & Hsent & _).
    exists apiKey, w'. unfold generateCourseContent, requestJson.
    by rewrite Hreq, Hparse, Hdata.
  - destruct (requestJson_object (quizPrompt chapterTitle subject difficulty)
                (u "quiz-" ++ random) w pre body post Hkeys Hel (Hreply _)
                Hfree Hpre Hpost) as (apiKey & w' & Hreq & Hparse & Hsent & _).
    exists apiKey, w'. unfold generateQuiz, requestJson.
    by rewrite Hreq, Hparse, Hdata.
Qed.

End Generators.

Lemma generators_without_key_witness :
  (forall key, key ∈ keyPool (limiter busyKey) ->
     eligible (clock busyKey) (limiter busyKey) key = false) /\
  (generateCourseContent offline [u "key-A"] (fun _ _ _ => u "prompt")
     (u "Loops") (u "Python") (u "beginner") (u "abc123xyz") busyKey).1
  = Some (Threw msgBusy).
Proof.
  assert (Hno : forall key, key ∈ keyPool (limiter busyKey) ->
            eligible (clock busyKey) (limiter busyKey) key = false).
  { intros key Hin. apply list_elem_of_singleton in Hin as ->. by vm_compute. }
  split; [exact Hno|].
  exact (proj1 (proj1 (generators_without_key offline [u "key-A"]
                  (fun _ _ => u "prompt") (fun _ _ _ => u "prompt")
                  (fun _ _ _ => u "prompt") (u "Loops") (u "Python") (u "beginner")
                  (u "abc123xyz") false ∅ busyKey (or_intror Hno)))).
Defined.

Lemma generators_return_the_object_witness :
  (exists key, key ∈ keyPool (limiter oneKey) /\
     eligible (clock oneKey) (limiter oneKey) key = true) /\
  (forall prompt apiKey,
     exists ms s,
       awaitReply (answering (fenced (objectText (u "")))) (clock oneKey) prompt apiKey
       = Some (ms, s) /\
       completionOf s
       = Returned (u "```json" ++ [10%N] ++ objectText (u "") ++ [10%N] ++ u "```")) /\
  exists w',
    generateRoadmap (answering (fenced (objectText (u "")))) [u "key-A"]
      (fun _ _ => u "prompt") (u "Python") (u "beginner") true ∅ oneKey
    = (Some (Returned (JObject [])), [initializing; generating; succeeded], w').
Proof.
  assert (Hel : exists key, key ∈ keyPool (limiter oneKey) /\
                  eligible (clock oneKey) (limiter oneKey) key = true).
  { exists (u "key-A"). split; [left|by vm_compute]. }
  assert (Hreply : forall prompt apiKey,
     exists ms s,
       awaitReply (answering (fenced (objectText (u "")))) (clock oneKey) prompt apiKey
       = Some (ms, s) /\
       completionOf s
       = Returned ((u "```json" ++ [10%N]) ++ objectText (u "") ++ ([10%N] ++ u "```"))).
  { intros prompt apiKey. eexists _, _. split; [reflexivity|by vm_compute]. }
  split; [exact Hel|]. split; [exact Hreply|].
  destruct (generators_return_the_object (answering (fenced (objectText (u ""))))
              [u "key-A"] (fun _ _ => u "prompt") (fun _ _ _ => u "prompt")
              (fun _ _ _ => u "prompt") (u "Loops") (u "Python") (u "beginner")
              (u "abc123xyz") (u "```json" ++ [10%N]) (u "") ([10%N] ++ u "```")
              (JObject []) ∅ oneKey ltac:(done) Hel Hreply ltac:(by vm_compute)
              ltac:(by apply (bool_decide_unpack _))
              ltac:(by apply (bool_decide_unpack _))
              ltac:(by vm_compute) ltac:(by vm_compute; eexists))
    as ((apiKey & w' & Hroadmap & _) & _).
  by exists w'.
Defined.


(** *** The detailed course in one batch *)

Section Course.

Variable network : Z -> jsstring -> jsstring -> Z * Answer.
Variable API_KEYS : list jsstring.
Variable chapterPrompt : Chapter -> jsstring -> jsstring.
Variable toISOString : Z -> jsstring.

Lemma courseLoop_done fuel roadmap batchSize allChapters i detailedChapters w :
  (length allChapters <= i)%nat ->
  courseLoop network chapterPrompt fuel roadmap batchSize allChapters i
    detailedChapters w = Some (detailedChapters, w).
Proof.
  intros Hi. destruct fuel; simpl; by rewrite bool_decide_eq_false_2 by lia.
Qed.

Lemma sent_ids (new : list (jsstring * jsstring)) (prompts : list PromptItem) :
  length new = length prompts ->
  (forall p item, prompts !! p = Some item ->
     exists apiKey, new !! p = Some (id item, apiKey)) ->
  new.*1 = id <$> prompts.
Proof.
  intros Hlen Hnew. apply list_eq. intros p. rewrite !list_lookup_fmap.
  destruct (prompts !! p) as [item|] eqn:Hp.
  - destruct (Hnew p item Hp) as (apiKey & ->). done.
  - apply lookup_ge_None in Hp. rewrite <- Hlen in Hp.
    apply lookup_ge_None in Hp. by rewrite Hp.
Qed.

(** X17.  A roadmap that fits into one batch is completed.  When the
    exchanges with the endpoint all end and the roadmap has no more chapters
    than the batch size ([min(3, activeKeys)], taken from the status at the
    start), [generateDetailedCourse] returns: it sends one request for each
    chapter, under the chapter's prompt id and in the order of the chapters,
    and the course holds one entry for each chapter, in that order, with
    [quiz] set to [null]; a roadmap without chapters gives a course without
    entries and sends nothing. *)
Theorem generateDetailedCourse_one_batch (roadmap : Roadmap) (w : World) (fuel : nat) :
  responsive network ->
  keyPool (limiter w) = API_KEYS ->
  let allChapters := default [] (chapters roadmap) in
  let active := activeKeys (getStatus (clock w) API_KEYS (limiter w)).1 in
  (length allChapters <= 3 `min` active)%nat ->
  (length allChapters < fuel)%nat ->
  exists course w' new,
    generateDetailedCourse network API_KEYS chapterPrompt toISOString fuel roadmap w
    = Some (course, w') /\
    chapter <$> courseChapters course = allChapters /\
    Forall (fun entry => quiz entry = JNull) (courseChapters course) /\
    courseId course = u "detailed_" ++ roadmapId roadmap /\
    courseRoadmapId course = roadmapId roadmap /\
    generatedAt course = toISOString (clock w') /\
    sent w' = sent w ++ new /\ new.*1 = promptId <$> allChapters.
Proof.
  intros Hall Hpool allChapters active Hfit Hfuel. unfold generateDetailedCourse.
  fold allChapters.
  pose proof (getStatus_fst (clock w) API_KEYS (limiter w)) as Hstatus.
  pose proof (getStatus_sameView (clock w) API_KEYS (limiter w)) as Hview.
  subst active.
  destruct (getStatus (clock w) API_KEYS (limiter w)) as [status rl1].
  cbn [fst snd] in *. cbv zeta in Hstatus. subst status. cbn [activeKeys] in *.
  set (batchSize := (3 `min` length (filter (fun key =>
         eligible (clock w) (limiter w) key = true) API_KEYS))%nat) in *.
  destruct (decide (allChapters = [])) as [Hnil|Hsome].
  - rewrite Hnil. rewrite courseLoop_done by (simpl; lia).
    eexists _, _, []. cbn [courseChapters courseId courseRoadmapId generatedAt].
    rewrite app_nil_r. by split_and!.
  - destruct fuel as [|fuel]; [lia|]. cbn [courseLoop].
    assert (Hlen : (0 < length allChapters)%nat).
    { destruct allChapters; [done|simpl; lia]. }
    rewrite bool_decide_eq_true_2 by done.
    rewrite drop_0, take_ge by lia.
    set (prompts := (fun chapter => mkPrompt (chapterPrompt chapter (subject roadmap))
                                             (promptId chapter)) <$> allChapters).
    assert (Hprompts : length prompts = length allChapters)
      by (unfold prompts; by rewrite length_fmap).
    destruct (makeParallelRequests_run network prompts (withLimiter rl1 w) fuel Hall)
      as (results & w1 & new & Hrun & _ & _ & Hsent & Hnew & Hkeys).
    { cbn [clock limiter withLimiter].
      rewrite (getAvailableKeys_fst_sameView _ _ _ _ Hview).
      pose proof (getAvailableKeys_count (clock w) (length prompts) (limiter w)) as Hc.
      rewrite Hpool in Hc.
      destruct ((getAvailableKeys (clock w) (length prompts) (limiter w)).1);
        [cbn [length] in Hc; lia|done]. }
    { lia. }
    rewrite Hrun. rewrite bool_decide_eq_false_2 by lia.
    rewrite courseLoop_done by lia.
    eexists _, _, new. cbn [courseChapters courseId courseRoadmapId generatedAt].
    split_and!; try done; cbn [courseChapters].
    + by rewrite app_nil_l, detailedChapterOf_chapters.
    + rewrite app_nil_l. apply Forall_fmap, Forall_forall. intros c _.
      unfold detailedChapterOf. simpl. by repeat case_match.
    + assert (Hids : new.*1 = id <$> prompts).
      { apply sent_ids; [done|]. intros p item Hp.
        destruct (Hkeys p item Hp) as (apiKey & start & ms & s & _ & Hn & _). eauto. }
      rewrite Hids. unfold prompts. rewrite <- list_fmap_compose. done.
Qed.

End Course.

Lemma generateDetailedCourse_one_batch_witness :
  responsive (answering (u "{}")) /\
  keyPool (limiter twoKeysWorld) = [u "key-A"; u "key-B"] /\
  (length (default [] (chapters pairRoadmap))
   <= 3 `min` activeKeys (getStatus (clock twoKeysWorld) [u "key-A"; u "key-B"]
                            (limiter twoKeysWorld)).1)%nat /\
  exists course w' new,
    generateDetailedCourse (answering (u "{}")) [u "key-A"; u "key-B"]
      (fun _ _ => u "prompt") (fun _ => u "2025-01-01T00:00:00.000Z") 3
      pairRoadmap twoKeysWorld
    = Some (course, w') /\
    chapter <$> courseChapters course = [numbered 1; numbered 2] /\
    sent w' = new /\ new.*1 = [u "chapter-1"; u "chapter-2"].
Proof.
  assert (Hall : responsive (answering (u "{}"))) by apply responsive_samples.
  assert (Hfit : (length (default [] (chapters pairRoadmap))
     <= 3 `min` activeKeys (getStatus (clock twoKeysWorld) [u "key-A"; u "key-B"]
                              (limiter twoKeysWorld)).1)%nat).
  { vm_compute. lia. }
  split; [exact Hall|]. split; [done|]. split; [exact Hfit|].
  destruct (generateDetailedCourse_one_batch (answering (u "{}")) [u "key-A"; u "key-B"]
              (fun _ _ => u "prompt") (fun _ => u "2025-01-01T00:00:00.000Z")
              pairRoadmap twoKeysWorld 3 Hall eq_refl Hfit ltac:(simpl; lia))
    as (course & w' & new & Hrun & Hchapters & _ & _ & _ & _ & Hsent & Hnew).
  exists course, w', new. split_and!; done.
Defined.

(** *** The configured keys *)

Lemma apiKeysOf_elem_of env key :
  key ∈ apiKeysOf env <->
  Some key ∈ env /\ key <> [] /\ take (length placeholder) key <> placeholder.
Proof.
  unfold apiKeysOf. rewrite list_elem_of_filter, list_elem_of_omap. split.
  - intros (Hreal & value & Hin & Hvalue).
    destruct value as [[|c rest]|]; try done. injection Hvalue as <-. done.
  - intros (Hin & Hne & Hreal). split; [done|]. exists (Some key). split; [done|].
    by destruct key.
Qed.

(** X18.  Which configured values become keys.  A value of the environment is
    a key exactly when it is set, is not empty and does not start with the
    placeholder [your_gemini_api_key]; the keys keep the order of the
    configuration.  An environment that holds nothing else than unset, empty
    and placeholder values leaves the service without keys, and every
    request throws the message of [makeRequest] for that case, with nothing
    sent and the world as it was. *)
Theorem apiKeysOf_keeps_real_keys (env : list (option jsstring)) :
  (forall key, key ∈ apiKeysOf env <->
     Some key ∈ env /\ key <> [] /\ take (length placeholder) key <> placeholder) /\
  apiKeysOf env `sublist_of` omap (fun value => value) env /\
  ((forall value, Some value ∈ env ->
      value = [] \/ take (length placeholder) value = placeholder) ->
   apiKeysOf env = [] /\
   forall network prompt requestId w,
     makeRequest network (apiKeysOf env) prompt requestId w
     = (Some (Threw (u "No valid Gemini API keys configured. Please add your actual API keys to the .env file.")),
        w)).
Proof.
  split; [apply apiKeysOf_elem_of|]. split.
  - unfold apiKeysOf. etrans; [apply sublist_filter|].
    induction env as [|[[|c value]|] env IH]; simpl; try done.
    + by apply sublist_cons.
    + by apply sublist_skip.
  - intros Hnone.
    assert (Hnil : apiKeysOf env = []).
    { destruct (apiKeysOf env) as [|key keys] eqn:Hkeys; [done|].
      assert (Hin : key ∈ apiKeysOf env) by (rewrite Hkeys; left).
      apply apiKeysOf_elem_of in Hin as (Hin & Hne & Hreal).
      by destruct (Hnone key Hin). }
    split; [done|]. intros network prompt requestId w. rewrite Hnil.
    unfold makeRequest. by rewrite bool_decide_eq_true_2.
Qed.

End GenerationFacts.

(** ** What the local fallback stores can be read back *)

Module StorageFacts.

Import JSON Js UserService Storable RoundTripFacts.

Lemma getTruthy_insert (key text : jsstring) (st : Storage) :
  text <> [] -> getTruthy key (<[key := text]> st) = Some text.
Proof.
  intros Hne. unfold getTruthy. rewrite lookup_insert_eq. by destruct text.
Qed.




(** *** Objects as the fallback merges them *)

Lemma setField_keys name v fields :
  forall k, k ∈ (setField name v fields).*1 <-> k = name \/ k ∈ fields.*1.
Proof.
  induction fields as [|[k0 x] fields IH]; intros k; simpl.
  - rewrite list_elem_of_singleton, elem_of_nil. tauto.
  - destruct (decide (k0 = name)) as [->|Hk].
    + rewrite bool_decide_eq_true_2 by done. simpl. rewrite !elem_of_cons. tauto.
    + rewrite bool_decide_eq_false_2 by done. simpl. rewrite !elem_of_cons, IH.
      tauto.
Qed.

Lemma setField_NoDup name v fields :
  NoDup fields.*1 -> NoDup (setField name v fields).*1.
Proof.
  induction fields as [|[k0 x] fields IH]; simpl; intros Hnd.
  - apply NoDup_singleton.
  - apply NoDup_cons in Hnd as [Hnotin Hnd].
    destruct (decide (k0 = name)) as [->|Hk].
    + rewrite bool_decide_eq_true_2 by done. simpl. by apply NoDup_cons.
    + rewrite bool_decide_eq_false_2 by done. simpl. apply NoDup_cons.
      split; [|by apply IH]. rewrite setField_keys. intros [->|?]; done.
Qed.

Lemma assign_NoDup source : forall target,
  NoDup target.*1 -> NoDup (assign target source).*1.
Proof.
  unfold assign. induction source as [|[k v] source IH]; intros target Hnd; simpl;
    [done|].
  apply IH. by apply setField_NoDup.
Qed.

Lemma lookupField_None name fields :
  name ∉ fields.*1 -> lookupField name fields = Undefined.
Proof.
  induction fields as [|[k x] fields IH]; simpl; [done|].
  rewrite not_elem_of_cons. intros [Hne Hnotin].
  rewrite IH by done. by rewrite bool_decide_eq_false_2.
Qed.

Lemma lookupField_setField name v fields name' :
  NoDup fields.*1 ->
  lookupField name' (setField name v fields)
  = if bool_decide (name = name') then Val v else lookupField name' fields.
Proof.
  induction fields as [|[k x] fields IH]; simpl; intros Hnd.
  - done.
  - apply NoDup_cons in Hnd as [Hnotin Hnd].
    destruct (decide (k = name)) as [->|Hk].
    + rewrite (bool_decide_eq_true_2 (name = name)) by done. simpl.
      destruct (decide (name = name')) as [<-|Hn].
      * rewrite !(bool_decide_eq_true_2 (name = name)) by done.
        by rewrite lookupField_None.
      * rewrite !(bool_decide_eq_false_2 (name = name')) by done. done.
    + rewrite (bool_decide_eq_false_2 (k = name)) by done. simpl.
      rewrite IH by done.
      destruct (decide (name = name')) as [<-|Hn].
      * by rewrite (bool_decide_eq_true_2 (name = name)) by done.
      * by rewrite (bool_decide_eq_false_2 (name = name')) by done.
Qed.

Lemma lookupField_assign source name : forall target,
  NoDup target.*1 ->
  lookupField name (assign target source)
  = Offline.merged target source name.
Proof.
  unfold assign, Offline.merged.
  induction source as [|[k v] source IH]; intros target Hnd; simpl; [done|].
  rewrite IH by (by apply setField_NoDup).
  destruct (lookupField name source); [|done].
  rewrite lookupField_setField by done. by case_bool_decide.
Qed.

Lemma lookupField_assign_nil source name :
  lookupField name (assign [] source) = lookupField name source.
Proof.
  rewrite lookupField_assign by apply NoDup_nil_2.
  unfold Offline.merged. by destruct (lookupField name source).
Qed.

(** X20.  A user created by the fallback can be updated by the fallback.
    After [getOrCreateUser] stored the fallback user, [updateUser] with the
    backend failing finds it, returns it merged with the update and stores
    the result; it does not throw.  The merged user holds, under every
    property name, what the update sets, else what the stored user held,
    except [updatedAt], which is the time of the update. *)
Theorem offline_user_can_be_updated (toISOString : Z -> jsstring)
    (userData : UserData) (data : list (jsstring * json)) (error error' : jsstring)
    (t0 now : Z) (st : Storage) :
  wfJson (fallbackUser toISOString userData t0) = true ->
  let st1 := (getOrCreateUser toISOString userData (Threw error) t0 st).2 in
  exists updated,
    updateUser toISOString (clerkId userData) data (Threw error') now st1
    = (Returned (JObject updated),
       <[u "user_" ++ clerkId userData := stringify (JObject updated)]> st1) /\
    NoDup updated.*1 /\
    lookupField (u "updatedAt") updated = Val (JString (toISOString now)) /\
    forall name, name <> u "updatedAt" ->
      lookupField name updated
      = Offline.merged (Offline.fieldsOf (fallbackUser toISOString userData t0))
          data name.
Proof.
  intros Hwf st1. subst st1. unfold getOrCreateUser. cbn [snd].
  unfold updateUser.
  rewrite getTruthy_insert by (by apply stringify_nonempty).
  rewrite parse_stringify by done.
  set (fields := Offline.fieldsOf (fallbackUser toISOString userData t0)).
  assert (Hown : ownFields (fallbackUser toISOString userData t0) = assign [] fields)
    by done.
  rewrite Hown.
  assert (Hnd : NoDup (assign (assign [] fields) (assign [] data)).*1).
  { apply assign_NoDup, assign_NoDup, NoDup_nil_2. }
  eexists. split; [reflexivity|]. split; [by apply assign_NoDup|]. split.
  - rewrite lookupField_assign by done. unfold Offline.merged.
    cbn [lookupField]. by rewrite bool_decide_eq_true_2.
  - intros name Hname. rewrite lookupField_assign by done.
    unfold Offline.merged at 1. cbn [lookupField].
    rewrite bool_decide_eq_false_2 by done.
    rewrite lookupField_assign by (apply assign_NoDup, NoDup_nil_2).
    unfold Offline.merged. by rewrite !lookupField_assign_nil.
Qed.

Lemma offline_user_can_be_updated_witness :
  wfJson (fallbackUser isoStub sampleUser 0) = true /\
  exists updated,
    (updateUser isoStub (u "user-1") [(u "firstName", JString (u "Augusta"))]
       (Threw (u "offline")) 1 storedUser).1 = Returned (JObject updated) /\
    lookupField (u "firstName") updated = Val (JString (u "Augusta")) /\
    lookupField (u "lastName") updated = Val (JString (u "Lovelace")).
Proof.
  assert (Hwf : wfJson (fallbackUser isoStub sampleUser 0) = true) by (by vm_compute).
  split; [exact Hwf|].
  destruct (offline_user_can_be_updated isoStub sampleUser
              [(u "firstName", JString (u "Augusta"))]
              (u "backend unreachable") (u "offline") 0 1 ∅ Hwf)
    as (updated & Hupdate & _ & _ & Hfields).
  exists updated. split; [|split].
  - exact (f_equal fst Hupdate).
  - rewrite Hfields by (by vm_compute). by vm_compute.
  - rewrite Hfields by (by vm_compute). by vm_compute.
Defined.



(** *** The scan of the stored entries *)






End StorageFacts.

(** ** Chapter progress in the local fallback *)

Module ProgressFacts.

Import JSON Js UserService Storable RoundTripFacts StorageFacts.




Section Progress.

Variable toISOString : Z -> jsstring.










End Progress.


End ProgressFacts.

(** ** Reading and deleting under the policies *)

Module AccessFacts.

Import JSON Store StoreFacts Access.

(** The policies read the table of users only. *)
Lemma usingPolicy_users session db db' row :
  users db' = users db -> usingPolicy session db' row = usingPolicy session db row.
Proof. intros Hu. unfold usingPolicy. by rewrite Hu. Qed.

Lemma usingPolicy_insertPolicy session db row :
  usingPolicy session db row = insertPolicy session db row.
Proof. done. Qed.

(** What passing the policy means for an authenticated session. *)
Lemma usingPolicy_owner uid db row :
  usingPolicy (Authenticated uid) db row = true <->
  exists user, user ∈ users db /\ clerk_id user = uid /\
               user_id row = Some (userId user).
Proof.
  unfold usingPolicy. destruct (user_id row) as [owner|].
  - rewrite bool_decide_eq_true, list_elem_of_fmap. split.
    + intros (user & -> & Hin). apply list_elem_of_filter in Hin as [Hc Hin]. eauto.
    + intros (user & Hin & Hc & [= ->]). exists user. split; [done|].
      by apply list_elem_of_filter.
  - split; [done|]. by intros (user & _ & _ & ?).
Qed.

(** With [users.id] a key, the [id] names the user. *)
Lemma users_by_id (l : list User) x y :
  NoDup (userId <$> l) -> x ∈ l -> y ∈ l -> userId x = userId y -> x = y.
Proof.
  induction l as [|z l IH]; [by intros _ ?%elem_of_nil|].
  rewrite fmap_cons, NoDup_cons. intros [Hz Hnd] Hx Hy Heq.
  apply elem_of_cons in Hx as [->|Hx]; apply elem_of_cons in Hy as [->|Hy].
  - done.
  - exfalso. apply Hz. rewrite Heq. apply list_elem_of_fmap. eauto.
  - exfalso. apply Hz. rewrite <- Heq. apply list_elem_of_fmap. eauto.
  - by apply IH.
Qed.

(** A row passes the policy for one authenticated user at most. *)
Lemma usingPolicy_one_reader db row uid other :
  NoDup (userId <$> users db) ->
  usingPolicy (Authenticated uid) db row = true ->
  usingPolicy (Authenticated other) db row = true -> other = uid.
Proof.
  intros Hnd Hu Ho.
  apply usingPolicy_owner in Hu as (x & Hx & <- & Hrow).
  apply usingPolicy_owner in Ho as (y & Hy & <- & Hrow').
  rewrite Hrow in Hrow'. injection Hrow' as Heq.
  by rewrite (users_by_id _ x y Hnd Hx Hy Heq).
Qed.

Lemma select_users session db db' :
  users db' = users db -> roadmaps db' = roadmaps db ->
  select session db' = select session db.
Proof.
  intros Hu Hr. unfold select. rewrite Hr. apply list_filter_iff. intros row.
  by rewrite (usingPolicy_users _ _ _ _ Hu).
Qed.

(** X24.  What a user saves, that user reads and nobody else.  With
    [users.id] a key: when an [INSERT] by an authenticated user succeeds, the
    row belongs to a user with the caller's [clerk_id]; the caller's
    [SELECT] returns what it returned before and then the new row; and the
    [SELECT] of every other authenticated user returns what it returned
    before. *)
Theorem insert_then_select (uid : jsstring) (row : Roadmap) (db db' : Database) :
  NoDup (userId <$> users db) ->
  insert (Authenticated uid) row db = inr db' ->
  (exists user, user ∈ users db /\ clerk_id user = uid /\
                user_id row = Some (userId user)) /\
  select (Authenticated uid) db' = select (Authenticated uid) db ++ [row] /\
  forall other, other <> uid ->
    select (Authenticated other) db' = select (Authenticated other) db.
Proof.
  intros Hnd Hinsert.
  assert (Hpolicy : usingPolicy (Authenticated uid) db row = true).
  { rewrite usingPolicy_insertPolicy. unfold insert in Hinsert.
    by destruct (insertPolicy (Authenticated uid) db row). }
  apply insert_inr in Hinsert as (-> & _ & _).
  assert (Hsel : forall session,
    select session {| users := users db; roadmaps := roadmaps db ++ [row] |}
    = select session db
      ++ filter (fun r => usingPolicy session db r = true) [row]).
  { intros session. unfold select. cbn [users roadmaps]. by rewrite filter_app. }
  split_and!.
  - by apply usingPolicy_owner.
  - rewrite Hsel. f_equal. rewrite filter_cons. by rewrite decide_True.
  - intros other Hother. rewrite Hsel, filter_cons, decide_False, app_nil_r; [done|].
    intros Ho. apply Hother. by apply (usingPolicy_one_reader db row).
Qed.

Lemma insert_then_select_witness :
  NoDup (userId <$> users twoUsers) /\
  insert (Authenticated (u "clerk-bob")) (rowOf 11 2) twoUsers
  = inr {| users := [ada; bob]; roadmaps := [rowOf 10 1; rowOf 11 2] |} /\
  select (Authenticated (u "clerk-ada"))
    {| users := [ada; bob]; roadmaps := [rowOf 10 1; rowOf 11 2] |}
  = select (Authenticated (u "clerk-ada")) twoUsers.
Proof.
  assert (Hnd : NoDup (userId <$> users twoUsers)).
  { apply (bool_decide_unpack _). by vm_compute. }
  assert (Hinsert : insert (Authenticated (u "clerk-bob")) (rowOf 11 2) twoUsers
                    = inr {| users := [ada; bob];
                             roadmaps := [rowOf 10 1; rowOf 11 2] |}).
  { by vm_compute. }
  split; [exact Hnd|]. split; [exact Hinsert|].
  destruct (insert_then_select _ _ _ _ Hnd Hinsert) as (_ & _ & Hothers).
  apply Hothers. by vm_compute.
Defined.

(** The rows a [DELETE] keeps are rows of the table, in their order. *)
Lemma delete_sublist session cond db :
  roadmaps (delete session cond db) `sublist_of` roadmaps db.
Proof. apply sublist_filter. Qed.

Lemma omap_sublist {A B} (f : A -> option B) (l k : list A) :
  l `sublist_of` k -> omap f l `sublist_of` omap f k.
Proof.
  induction 1 as [|x l k _ IH|x l k _ IH]; simpl; [done| |].
  - destruct (f x); [by apply sublist_skip|done].
  - destruct (f x); [by apply sublist_cons|done].
Qed.

Lemma uniquePairs_sublist db db' :
  roadmaps db' `sublist_of` roadmaps db -> uniquePairs db -> uniquePairs db'.
Proof.
  unfold uniquePairs. intros Hsub Hnd.
  exact (sublist_NoDup _ _ Hnd (omap_sublist indexKey _ _ Hsub)).
Qed.

(** X25.  A [DELETE] reaches the caller's rows only.  With [users.id] a key,
    after a [DELETE] by an authenticated user with any condition: every
    other authenticated user reads what they read before; the caller reads
    the rows they read before that do not meet the condition; rows without a
    user stay; and the table still holds each user and roadmap identifier
    once at most, with every owner among the users. *)
Theorem delete_reaches_own_rows (uid : jsstring) (cond : Roadmap -> bool)
    (db : Database) :
  NoDup (userId <$> users db) ->
  let db' := delete (Authenticated uid) cond db in
  (forall other, other <> uid ->
     select (Authenticated other) db' = select (Authenticated other) db) /\
  select (Authenticated uid) db'
  = filter (fun row => cond row = false) (select (Authenticated uid) db) /\
  (forall row, row ∈ roadmaps db -> user_id row = None -> row ∈ roadmaps db') /\
  (uniquePairs db -> uniquePairs db') /\
  (ownersExist db -> ownersExist db').
Proof.
  intros Hnd db'. split_and!.
  - intros other Hother. unfold select, db'. cbn [delete roadmaps].
    rewrite list_filter_filter. apply list_filter_iff. intros row.
    rewrite (usingPolicy_users (Authenticated other) db (delete _ cond db) row)
      by done.
    split; [tauto|].
    intros Ho. split; [done|]. intros [Hu _]. apply Hother.
    by apply (usingPolicy_one_reader db row).
  - unfold select, db'. cbn [delete roadmaps].
    rewrite !list_filter_filter. apply list_filter_iff. intros row.
    rewrite (usingPolicy_users (Authenticated uid) db (delete _ cond db) row)
      by done.
    destruct (cond row); intuition congruence.
  - intros row Hin Hnull. unfold db', delete. cbn [roadmaps].
    apply list_elem_of_filter. split; [|done]. intros [Hu _].
    unfold usingPolicy in Hu. by rewrite Hnull in Hu.
  - apply uniquePairs_sublist, delete_sublist.
  - unfold ownersExist. intros Hown. unfold db', delete. cbn [roadmaps].
    apply Forall_forall. intros row Hin. apply list_elem_of_filter in Hin as [_ Hin].
    rewrite Forall_forall in Hown. exact (Hown row Hin).
Qed.

Lemma delete_reaches_own_rows_witness :
  NoDup (userId <$> users twoUsers) /\
  select (Authenticated (u "clerk-ada"))
    (delete (Authenticated (u "clerk-bob")) (fun _ => true) twoUsers)
  = [rowOf 10 1].
Proof.
  assert (Hnd : NoDup (userId <$> users twoUsers)).
  { apply (bool_decide_unpack _). by vm_compute. }
  split; [exact Hnd|].
  destruct (delete_reaches_own_rows (u "clerk-bob") (fun _ => true) twoUsers Hnd)
    as (Hothers & _).
  rewrite Hothers; [by vm_compute|by vm_compute].
Defined.

(** X26.  Deleting a user takes the user's roadmaps along and nothing else.
    After the deletion no row is left with the user's [id]; the rows of the
    other users and the rows without a user are the rows left, in their
    order; and the table keeps what it maintained: every owner is among the
    users, and each user and roadmap identifier is held once at most. *)
Theorem deleteUser_cascades (uid : Z) (db : Database) :
  ownersExist db ->
  let db' := deleteUser uid db in
  (forall row, row ∈ roadmaps db' <-> row ∈ roadmaps db /\ user_id row <> Some uid) /\
  roadmaps db' `sublist_of` roadmaps db /\
  (uid ∉ userId <$> users db') /\
  ownersExist db' /\
  (uniquePairs db -> uniquePairs db').
Proof.
  intros Hown db'. split_and!.
  - intros row. unfold db', deleteUser. cbn [roadmaps].
    rewrite list_elem_of_filter. tauto.
  - apply sublist_filter.
  - unfold db', deleteUser. cbn [users]. intros Hin.
    apply list_elem_of_fmap in Hin as (user & -> & Hin).
    by apply list_elem_of_filter in Hin as [Hne _].
  - unfold ownersExist in *. rewrite Forall_forall in Hown.
    apply Forall_forall. intros row Hin. unfold db', deleteUser in Hin.
    cbn [roadmaps] in Hin. apply list_elem_of_filter in Hin as [Hne Hin].
    specialize (Hown row Hin). unfold referencesUser in *.
    destruct (user_id row) as [owner|]; [|done].
    apply bool_decide_eq_true in Hown. apply bool_decide_eq_true.
    apply list_elem_of_fmap in Hown as (user & -> & Huser).
    apply list_elem_of_fmap. exists user. split; [done|].
    unfold db', deleteUser. cbn [users]. apply list_elem_of_filter.
    split; [|done]. intros Heq. apply Hne. by rewrite Heq.
  - apply uniquePairs_sublist. apply sublist_filter.
Qed.

Lemma deleteUser_cascades_witness :
  ownersExist twoUsers /\ roadmaps (deleteUser 1 twoUsers) = [] /\
  ownersExist (deleteUser 1 twoUsers).
Proof.
  assert (Hown : ownersExist twoUsers).
  { unfold ownersExist. apply Forall_forall. intros row Hin.
    apply list_elem_of_singleton in Hin as ->. by vm_compute. }
  split; [exact Hown|]. split; [by vm_compute|].
  exact (proj1 (proj2 (proj2 (proj2 (deleteUser_cascades 1 twoUsers Hown))))).
Defined.

End AccessFacts.
